(** * Myaku: the Japanese lexical-item analyzer ([myaku/japanese_analysis.py])

    A shallow embedding of the MeCab tagger adapter ([MecabTagger]), the
    JMdict dictionary store ([JMdict]) and the lexical-item finder
    ([JapaneseTextAnalyzer]), with the properties of the specification stated
    and settled against it. *)

From Stdlib Require Import String Ascii.
From Stdlib Require Import List Arith Lia Bool NArith QArith Permutation.
Import ListNotations.

Set Implicit Arguments.
Local Open Scope nat_scope.
Local Open Scope list_scope.

(* ===================================================================== *)
(** ** Python strings *)
(* ===================================================================== *)

(** A Python [str] is a sequence of Unicode code points: [len], indexing and
    slicing all count code points, never bytes. *)
Module PyStr.

Definition codepoint := N.
Definition str := list codepoint.

Definition str_eq_dec : forall a b : str, {a = b} + {a <> b} :=
  list_eq_dec N.eq_dec.

Definition strs_eq_dec : forall a b : list str, {a = b} + {a <> b} :=
  list_eq_dec str_eq_dec.

Definition option_eq_dec_of {A : Type}
    (dec : forall a b : A, {a = b} + {a <> b})
  : forall a b : option A, {a = b} + {a <> b}.
Proof. decide equality. Defined.

(** [s[i:j]] for [0 <= i], [0 <= j]: out-of-range bounds are clipped. *)
Definition slice {A : Type} (s : list A) (i j : nat) : list A :=
  firstn (j - i) (skipn i s).

(** [''.join(parts)] *)
Definition join (parts : list str) : str := concat parts.

(** The code points at which [str.splitlines] breaks a line: LF, VT, FF,
    CR, FS, GS, RS, NEL, LS and PS. *)
Definition is_line_boundary (c : codepoint) : bool :=
  existsb (N.eqb c) [10; 11; 12; 13; 28; 29; 30; 133; 8232; 8233]%N.

(** [str.splitlines()]: [cur] is the line being read, in reverse.  A CR
    directly followed by LF is one boundary, and a last line without a
    boundary is kept when it is not empty. *)
Fixpoint splitlines_from (cur : str) (s : str) : list str :=
  match s with
  | [] => match cur with [] => [] | _ => [rev cur] end
  | c :: rest =>
      if is_line_boundary c then
        match rest with
        | c' :: rest' =>
            if (c =? 13)%N && (c' =? 10)%N
            then rev cur :: splitlines_from [] rest'
            else rev cur :: splitlines_from [] rest
        | [] => [rev cur]
        end
      else splitlines_from (c :: cur) rest
  end.

Definition splitlines (s : str) : list str := splitlines_from [] s.

(** [s.split(sep)] for a one-character separator: always at least one
    field. *)
Fixpoint split_from (sep : codepoint) (cur : str) (s : str) : list str :=
  match s with
  | [] => [rev cur]
  | c :: rest =>
      if (c =? sep)%N then rev cur :: split_from sep [] rest
      else split_from sep (c :: cur) rest
  end.

Definition split (sep : codepoint) (s : str) : list str :=
  split_from sep [] s.

(** Literals: a Rocq string literal holds the UTF-8 bytes of the text;
    [u] decodes them to code points (1- to 4-byte sequences). *)
Fixpoint utf8_decode (bs : list N) : str :=
  match bs with
  | [] => []
  | b :: r =>
      if (b <? 128)%N then b :: utf8_decode r
      else if (b <? 224)%N then
        match r with
        | c1 :: r1 => ((b - 192) * 64 + (c1 - 128))%N :: utf8_decode r1
        | _ => []
        end
      else if (b <? 240)%N then
        match r with
        | c1 :: c2 :: r2 =>
            ((b - 224) * 4096 + (c1 - 128) * 64 + (c2 - 128))%N
            :: utf8_decode r2
        | _ => []
        end
      else
        match r with
        | c1 :: c2 :: c3 :: r3 =>
            ((b - 240) * 262144 + (c1 - 128) * 4096
             + (c2 - 128) * 64 + (c3 - 128))%N :: utf8_decode r3
        | _ => []
        end
  end.

Definition u (s : string) : str :=
  utf8_decode (map N_of_ascii (list_ascii_of_string s)).

End PyStr.
Import PyStr.

(* ===================================================================== *)
(** ** Exceptions and non-termination *)
(* ===================================================================== *)

(** The exceptions of [myaku.errors] that the module raises, and the
    built-in ones its expressions can raise. *)
Inductive error : Type :=
| ResourceLoadError
| ResourceNotReadyError
| TextAnalysisError
| IndexError
| ValueError
| AttributeError
| OSError.

(** What a call does: it returns, it raises, or the loop budget of the
    model ran out before it did either. *)
Inductive outcome (A : Type) : Type :=
| Ok (a : A)
| Raise (e : error)
| OutOfFuel.
Arguments Ok {A} a.
Arguments Raise {A} e.
Arguments OutOfFuel {A}.

Definition bind {A B : Type} (c : outcome A) (k : A -> outcome B)
  : outcome B :=
  match c with
  | Ok a => k a
  | Raise e => Raise e
  | OutOfFuel => OutOfFuel
  end.

Declare Scope outcome_scope.
Delimit Scope outcome_scope with outcome.
Notation "x <- c ;; k" := (bind c (fun x => k))
  (at level 100, c at next level, right associativity) : outcome_scope.
Notation "c ;;; k" := (bind c (fun _ => k))
  (at level 100, right associativity) : outcome_scope.
Local Open Scope outcome_scope.

(** [l[i]] raises [IndexError] out of range. *)
Definition index {A : Type} (l : list A) (i : nat) : outcome A :=
  match nth_error l i with
  | Some a => Ok a
  | None => Raise IndexError
  end.

(* ===================================================================== *)
(** ** [myaku.datatypes] *)
(* ===================================================================== *)

Module MyakuDatatypes.

(** Modelled from the spec: the module [myaku.datatypes] is missing; the
    records below follow the data model of the specification and the
    constructor calls of [japanese_analysis.py]. *)
Record JpnArticle : Type := { full_text : str }.

(** Modelled from the spec: [ArticleTextPosition(start, len)], a character
    offset in the article and a character count. *)
Record ArticleTextPosition : Type := { start : nat; len : nat }.

(** Modelled from the spec: the lookup that produced an interpretation. *)
Inductive InterpSource : Type :=
| MECAB
| JMDICT_MECAB_DECOMP
| JMDICT_SURFACE_FORM
| JMDICT_BASE_FORM.

(** Modelled from the spec: parts of speech, and the two optional
    conjugation tags, which are [None] when the constructor is not given
    them. *)
Record MecabLexicalItemInterp : Type := {
  parts_of_speech : list str;
  conjugated_type : option str;
  conjugated_form : option str
}.

(** Modelled from the spec: an interpretation carries a MeCab
    interpretation or the id of a JMdict entry (the one not given to the
    constructor is [None]) and the tuple of its sources. *)
Record JpnLexicalItemInterp : Type := {
  mecab_interp : option MecabLexicalItemInterp;
  jmdict_interp_entry_id : option str;
  interp_sources : list InterpSource
}.

(** Modelled from the spec: a found lexical item, with the cache of the
    surface forms of the positions whose text differs from the base
    form. *)
Record FoundJpnLexicalItem : Type := {
  base_form : str;
  found_positions : list ArticleTextPosition;
  possible_interps : list JpnLexicalItemInterp;
  article : option JpnArticle;
  surface_form_cache : list (ArticleTextPosition * str)
}.

Definition ArticleTextPosition_eq_dec :
  forall a b : ArticleTextPosition, {a = b} + {a <> b}.
Proof. decide equality; apply Nat.eq_dec. Defined.

(** The constructor call [FoundJpnLexicalItem(base_form=..,
    found_positions=.., possible_interps=..)]. *)
Definition new_FoundJpnLexicalItem (bf : str)
    (ps : list ArticleTextPosition) (interps : list JpnLexicalItemInterp)
  : FoundJpnLexicalItem :=
  {| base_form := bf; found_positions := ps; possible_interps := interps;
     article := None; surface_form_cache := [] |}.

(** [item.article = article] *)
Definition set_article (a : JpnArticle) (fli : FoundJpnLexicalItem)
  : FoundJpnLexicalItem :=
  {| base_form := base_form fli;
     found_positions := found_positions fli;
     possible_interps := possible_interps fli;
     article := Some a;
     surface_form_cache := surface_form_cache fli |}.

Fixpoint cache_lookup (p : ArticleTextPosition)
    (c : list (ArticleTextPosition * str)) : option str :=
  match c with
  | [] => None
  | (q, s) :: c' =>
      if ArticleTextPosition_eq_dec p q then Some s else cache_lookup p c'
  end.

(** Modelled from the spec: [cache_surface_form] records the surface form
    of a position when it differs from the base form. *)
Definition cache_surface_form (fli : FoundJpnLexicalItem)
    (surface_form : str) (p : ArticleTextPosition) : FoundJpnLexicalItem :=
  if str_eq_dec surface_form (base_form fli) then fli
  else
    {| base_form := base_form fli;
       found_positions := found_positions fli;
       possible_interps := possible_interps fli;
       article := article fli;
       surface_form_cache :=
         (p, surface_form)
         :: filter (fun e => if ArticleTextPosition_eq_dec p (fst e)
                             then false else true)
                   (surface_form_cache fli) |}.

(** Modelled from the spec: [get_first_surface_form] is the surface form
    at the first found position: the cached one, the base form when none
    is cached. *)
Definition get_first_surface_form (fli : FoundJpnLexicalItem)
  : outcome str :=
  p <- index (found_positions fli) 0 ;;
  match cache_lookup p (surface_form_cache fli) with
  | Some s => Ok s
  | None => Ok (base_form fli)
  end.

End MyakuDatatypes.
Import MyakuDatatypes.

(* ===================================================================== *)
(** ** [JMdictEntry] *)
(* ===================================================================== *)

(** The dataclass [JMdictEntry].  [entry_id] and [text_form] are parsed as
    required elements, so an entry of a loaded dictionary has both; the
    tuple-valued attributes stay [None] until an element sets them. *)
Module JMdictEntry.

Record t : Type := mk {
  entry_id : str;
  text_form : str;
  text_form_info : option (list str);
  text_form_freq : option (list str);
  parts_of_speech : option (list str);
  fields : option (list str);
  dialects : option (list str);
  misc : option (list str)
}.

(** The [__eq__] of a dataclass compares the attributes in order. *)
Definition eq_dec : forall a b : t, {a = b} + {a <> b}.
Proof.
  decide equality;
    try apply (option_eq_dec_of strs_eq_dec); apply str_eq_dec.
Defined.

End JMdictEntry.

(* ===================================================================== *)
(** ** Python dictionaries *)
(* ===================================================================== *)

(** A [dict] keeps its items in insertion order, and [items()] lists them
    in that order: it is an association list with one item per key. *)
Section PyDict.

Context {K V : Type}.
Variable K_eq_dec : forall a b : K, {a = b} + {a <> b}.

Definition dict : Type := list (K * V).

(** [d.get(k)] *)
Fixpoint dict_get (d : dict) (k : K) : option V :=
  match d with
  | [] => None
  | (k', v) :: d' => if K_eq_dec k k' then Some v else dict_get d' k
  end.

(** [k in d] *)
Definition dict_contains (d : dict) (k : K) : bool :=
  match dict_get d k with Some _ => true | None => false end.

(** [d[k] = v]: the value of an existing key is replaced where it stands,
    a new key goes last. *)
Fixpoint dict_set (d : dict) (k : K) (v : V) : dict :=
  match d with
  | [] => [(k, v)]
  | (k', v') :: d' =>
      if K_eq_dec k k' then (k', v) :: d'
      else (k', v') :: dict_set d' k v
  end.

(** [d.keys()] and [d.items()] *)
Definition dict_keys (d : dict) : list K := map fst d.
Definition dict_items (d : dict) : list (K * V) := d.

End PyDict.

(** [d[k].append(x)] on a [defaultdict(list)]: a missing key is first given
    the empty list. *)
Definition dict_append {K X : Type}
    (K_eq_dec : forall a b : K, {a = b} + {a <> b})
    (d : @dict K (list X)) (k : K) (x : X) : @dict K (list X) :=
  match dict_get K_eq_dec d k with
  | Some l => dict_set K_eq_dec d k (l ++ [x])
  | None => dict_set K_eq_dec d k ([] ++ [x])
  end.

(** [max(f(x) for x in xs)] raises [ValueError] on an empty sequence. *)
Definition py_max (xs : list nat) : outcome nat :=
  match xs with
  | [] => Raise ValueError
  | x :: xs' => Ok (fold_left Nat.max xs' x)
  end.

(* ===================================================================== *)
(** ** [MecabTagger] *)
(* ===================================================================== *)

Definition MecabTags : Type := list str.

Section MecabTagger.

(** [self._mecab_tagger.parse]: the MeCab tagger itself, which maps a text
    to its output in chasen format.  It is outside the program. *)
Variable mecab : str -> str.

Definition _END_OF_SECTION_MARKER : str := u "EOS".
Definition _POS_SPLITTER : codepoint := 45%N.   (* '-' *)
Definition _TOKEN_SPLITTER : codepoint := 9%N.  (* '\t' *)
Definition _EXPECTED_TOKEN_TAG_COUNTS : list nat := [4; 5; 6].

Definition _ADJUST_TAGS_MAP : @dict MecabTags MecabTags :=
  [ ([u "な"; u "ナ"; u "だ"; u "助動詞"; u "特殊・ダ"; u "体言接続"],
     [u "な"; u "ナ"; u "な"; u "助動詞"; u "特殊・ダ"; u "体言接続"]) ].

(** [tags[i] = x] for [i] in range. *)
Definition list_set {A : Type} (l : list A) (i : nat) (x : A) : list A :=
  firstn i l ++ x :: skipn (S i) l.

Definition _adjust_if_known_problem (tags : list str) : list str :=
  let tags :=
    if (4 <=? length tags)
       && (0 <? length (nth 0 tags []))
       && (length (nth 2 tags []) =? 0)
    then list_set tags 2 (nth 0 tags [])
    else tags in
  match dict_get strs_eq_dec _ADJUST_TAGS_MAP tags with
  | Some adjusted_tags =>
      (* for i, _ in enumerate(tags): tags[i] = adjusted_tags[i] *)
      map (fun i => nth i adjusted_tags []) (seq 0 (length tags))
  | None => tags
  end.

Definition _parse_mecab_output (output : str) : list (list str) :=
  flat_map
    (fun line =>
       if length line =? 0 then []
       else
         let tags := split _TOKEN_SPLITTER line in
         let tags := _adjust_if_known_problem tags in
         let tags := filter (fun t => 0 <? length t) tags in
         [tags])
    (splitlines output).

Definition _create_mecab_interp (parsed_token_tags : list str)
  : outcome JpnLexicalItemInterp :=
  pos <- index parsed_token_tags 3 ;;
  let pos_tuple := split _POS_SPLITTER pos in
  (* if len(parsed_token_tags) >= 6: mecab_interp = ... *)
  mecab_interp <-
    (if 6 <=? length parsed_token_tags then
       ct <- index parsed_token_tags 4 ;;
       cf <- index parsed_token_tags 5 ;;
       Ok (Some {| parts_of_speech := pos_tuple;
                   conjugated_type := Some ct;
                   conjugated_form := Some cf |})
     else Ok None) ;;
  (* if len(parsed_token_tags) >= 5: mecab_interp = ...
     else: mecab_interp = ...
     A second [if], which assigns [mecab_interp] in both branches. *)
  mecab_interp <-
    (if 5 <=? length parsed_token_tags then
       ct <- index parsed_token_tags 4 ;;
       Ok {| parts_of_speech := pos_tuple;
             conjugated_type := Some ct;
             conjugated_form := None |}
     else
       Ok {| parts_of_speech := pos_tuple;
             conjugated_type := None;
             conjugated_form := None |}) ;;
  Ok {| mecab_interp := Some mecab_interp;
        jmdict_interp_entry_id := None;
        interp_sources := [MECAB] |}.

Definition _create_found_lexical_item (parsed_token_tags : list str)
    (interp : JpnLexicalItemInterp) (offset : nat)
  : outcome FoundJpnLexicalItem :=
  bf <- index parsed_token_tags 2 ;;
  sf <- index parsed_token_tags 0 ;;
  let found_lexical_item :=
    new_FoundJpnLexicalItem bf
      [ {| start := offset; len := length sf |} ] [interp] in
  p0 <- index (found_positions found_lexical_item) 0 ;;
  Ok (cache_surface_form found_lexical_item sf p0).

(** The loop of [parse] that skips the white space MeCab dropped:
    [while text[offset:offset + len(tok)] != tok: offset += 1].  Nothing
    bounds it, so the model counts its iterations against [fuel]. *)
Fixpoint align (fuel : nat) (text tok : str) (offset : nat)
  : outcome nat :=
  if str_eq_dec (slice text offset (offset + length tok)) tok
  then Ok offset
  else
    match fuel with
    | 0 => OutOfFuel
    | S fuel' => align fuel' text tok (offset + 1)
    end.

(** The body of [for parsed_token_tags in parsed_tokens], from the state
    [(offset, found_lexical_items)]. *)
Fixpoint parse_loop (fuel : nat) (text : str) (text_offset : nat)
    (parsed_tokens : list (list str)) (offset : nat)
    (found_lexical_items : list FoundJpnLexicalItem)
  : outcome (list FoundJpnLexicalItem) :=
  match parsed_tokens with
  | [] => Ok found_lexical_items
  | parsed_token_tags :: rest =>
      if (length parsed_token_tags =? 1)
         && (if str_eq_dec (nth 0 parsed_token_tags [])
                           _END_OF_SECTION_MARKER then true else false)
      then parse_loop fuel text text_offset rest offset found_lexical_items
      else if negb (existsb (Nat.eqb (length parsed_token_tags))
                            _EXPECTED_TOKEN_TAG_COUNTS)
      then Raise TextAnalysisError
      else
        tok <- index parsed_token_tags 0 ;;
        offset <- align fuel text tok offset ;;
        interp <- _create_mecab_interp parsed_token_tags ;;
        fli <- _create_found_lexical_item parsed_token_tags interp
                 (text_offset + offset) ;;
        let offset := offset + length tok in
        parse_loop fuel text text_offset rest offset
          (found_lexical_items ++ [fli])
  end.

(** [MecabTagger.parse(text, text_offset)]; every run of the alignment
    loop may take up to [fuel] steps. *)
Definition parse (fuel : nat) (text : str) (text_offset : nat)
  : outcome (list FoundJpnLexicalItem) :=
  let mecab_out := mecab text in
  let parsed_tokens := _parse_mecab_output mecab_out in
  parse_loop fuel text text_offset parsed_tokens 0 [].

End MecabTagger.

(* ===================================================================== *)
(** ** XML elements and the files of the program *)
(* ===================================================================== *)

(** An [xml.etree.ElementTree.Element]: tag, text and child elements. *)
Module Xml.

#[warnings="-register-all"]
Inductive Element : Type :=
| Elem (tag : str) (text : option str) (children : list Element).

Definition tag (e : Element) : str :=
  match e with Elem t _ _ => t end.
Definition text (e : Element) : option str :=
  match e with Elem _ x _ => x end.
Definition children (e : Element) : list Element :=
  match e with Elem _ _ c => c end.

(** [parent.findall(tag)]: the direct children with that tag, in document
    order. *)
Definition findall (t : str) (parent : Element) : list Element :=
  filter (fun c => if str_eq_dec (tag c) t then true else false)
         (children parent).

End Xml.

(** The JMdict XML file: its last modification time and the root of the
    document [ElementTree.parse] reads from it. *)
Record XmlFile : Type := { xml_mtime : Q; xml_root : Xml.Element }.

(** The shelf file: its last modification time and the value stored under
    the key ['_mecab_decomp_map_items']. *)
Record ShelfFile : Type := {
  shelf_mtime : Q;
  _mecab_decomp_map_items : list (list str * list JMdictEntry.t)
}.

(** The two files [JMdict] reads and writes; [None] is a file that does not
    exist. *)
Record FileSystem : Type := {
  xml_file : option XmlFile;
  shelf_file : option ShelfFile
}.

(* ===================================================================== *)
(** ** [JMdict] *)
(* ===================================================================== *)

Definition EntryMap : Type := @dict str (list JMdictEntry.t).
Definition MecabDecompMap : Type := @dict (list str) (list JMdictEntry.t).

(** The attributes of a [JMdict] object; all four are [None] until data is
    loaded. *)
Record JMdict : Type := {
  _entry_map : option EntryMap;
  _mecab_decomp_map : option MecabDecompMap;
  _max_text_form_len : option nat;
  _max_mecab_decomp_len : option nat
}.

(** The dataclass [JMdict._JMdictSense]. *)
Module _JMdictSense.

Record t : Type := mk {
  applicable_elements : option (list str);
  parts_of_speech : option (list str);
  fields : option (list str);
  dialects : option (list str);
  misc : option (list str)
}.

Definition new : t := mk None None None None None.

End _JMdictSense.

(** An argument of [contains_entry] and [get_entries]: a string is a text
    form, a tuple of strings a MeCab decomposition. *)
Inductive JMdictKey : Type :=
| TextForm (s : str)
| MecabDecomp (d : list str).

(** [f(x)] for every [x] of a list in turn, stopping at the first one that
    does not return. *)
Fixpoint map_outcome {A B : Type} (f : A -> outcome B) (l : list A)
  : outcome (list B) :=
  match l with
  | [] => Ok []
  | a :: l' => b <- f a ;; bs <- map_outcome f l' ;; Ok (b :: bs)
  end.

(** A [for] loop that threads a state through its body. *)
Fixpoint for_each {A S : Type} (body : S -> A -> outcome S) (l : list A)
    (s : S) : outcome S :=
  match l with
  | [] => Ok s
  | a :: l' => s' <- body s a ;; for_each body l' s'
  end.

Section JMdictDef.

Variable mecab : str -> str.

(** [_SENSE_OPTIONAL_TAGS] is a set of strings; a loop over it visits the
    tags in an order the program does not choose. *)
Variable sense_tag_order : list str.

Definition _REPR_ELEMENT_TAGS : list str := [u "k_ele"; u "r_ele"].
Definition _SENSE_ELEMENT_TAG : str := u "sense".
Definition _ENTRY_ID_TAG : str := u "ent_seq".

Definition _REPR_TEXT_FORM_TAG : @dict str str :=
  [(u "k_ele", u "keb"); (u "r_ele", u "reb")].

Definition _REPR_OPTIONAL_TAGS : @dict str (list str) :=
  [(u "k_ele", [u "ke_inf"; u "ke_pri"]);
   (u "r_ele", [u "re_inf"; u "re_pri"])].

Definition _SENSE_OPTIONAL_TAGS : list str := sense_tag_order.

Definition new_JMdict : JMdict :=
  {| _entry_map := None; _mecab_decomp_map := None;
     _max_text_form_len := None; _max_mecab_decomp_len := None |}.

Definition max_text_form_len (jm : JMdict) : outcome nat :=
  match _max_text_form_len jm with
  | None => Raise ResourceNotReadyError
  | Some n => Ok n
  end.

Definition max_mecab_decomp_len (jm : JMdict) : outcome nat :=
  match _max_mecab_decomp_len jm with
  | None => Raise ResourceNotReadyError
  | Some n => Ok n
  end.

Definition _raise_if_no_text (element : Xml.Element) : outcome str :=
  match Xml.text element with
  | Some s => if 0 <? length s then Ok s else Raise ResourceLoadError
  | None => Raise ResourceLoadError
  end.

Definition _find_all_raise_if_none (tag : str) (parent : Xml.Element)
  : outcome (list Xml.Element) :=
  let elements := Xml.findall tag parent in
  if length elements =? 0 then Raise ResourceLoadError else Ok elements.

(** [_append_to_tuple_attr]: the new value of a tuple attribute. *)
Definition _append_to_tuple_attr (current_val : option (list str))
    (append_item : str) : option (list str) :=
  match current_val with
  | None => Some [append_item]
  | Some t => Some (t ++ [append_item])
  end.

(** [_parse_text_elements(storage_obj, parent_element, element_tags,
    required)].  [store obj tag text] is what the body does with the text
    of one element: [setattr], or [_append_to_tuple_attr] for the tags of
    [_TUPPLE_TAGS], on the attribute [_TAG_TO_OBJ_ATTR_MAP[tag]]. *)
Definition _parse_text_elements {S : Type} (store : S -> str -> str -> S)
    (storage_obj : S) (parent_element : Xml.Element)
    (element_tags : list str) (required : bool) : outcome S :=
  for_each
    (fun obj tag =>
       elements <-
         (if required then _find_all_raise_if_none tag parent_element
          else Ok (Xml.findall tag parent_element)) ;;
       for_each
         (fun obj ele =>
            txt <- _raise_if_no_text ele ;; Ok (store obj tag txt))
         elements obj)
    element_tags storage_obj.

(** A [JMdictEntry] under construction: [entry_id] and [text_form] are
    [None] until their required elements are read. *)
Record entry_attrs : Type := {
  a_entry_id : option str;
  a_text_form : option str;
  a_text_form_info : option (list str);
  a_text_form_freq : option (list str)
}.

Definition tag_in (tag : str) (tags : list string) : bool :=
  existsb (fun t => if str_eq_dec tag (u t) then true else false) tags.

(** The attribute assignments of [_parse_text_elements] on a
    [JMdictEntry], by [_TAG_TO_OBJ_ATTR_MAP] and [_TUPPLE_TAGS]. *)
Definition store_entry_attr (o : entry_attrs) (tag txt : str)
  : entry_attrs :=
  if tag_in tag ["ent_seq"%string] then
    {| a_entry_id := Some txt; a_text_form := a_text_form o;
       a_text_form_info := a_text_form_info o;
       a_text_form_freq := a_text_form_freq o |}
  else if tag_in tag ["keb"; "reb"]%string then
    {| a_entry_id := a_entry_id o; a_text_form := Some txt;
       a_text_form_info := a_text_form_info o;
       a_text_form_freq := a_text_form_freq o |}
  else if tag_in tag ["ke_inf"; "re_inf"]%string then
    {| a_entry_id := a_entry_id o; a_text_form := a_text_form o;
       a_text_form_info := _append_to_tuple_attr (a_text_form_info o) txt;
       a_text_form_freq := a_text_form_freq o |}
  else if tag_in tag ["ke_pri"; "re_pri"]%string then
    {| a_entry_id := a_entry_id o; a_text_form := a_text_form o;
       a_text_form_info := a_text_form_info o;
       a_text_form_freq := _append_to_tuple_attr (a_text_form_freq o) txt |}
  else o.

(** The same on a [_JMdictSense]. *)
Definition store_sense_attr (o : _JMdictSense.t) (tag txt : str)
  : _JMdictSense.t :=
  let '(_JMdictSense.mk ae pos fl dl ms) := o in
  if tag_in tag ["stagk"; "stagr"]%string then
    _JMdictSense.mk (_append_to_tuple_attr ae txt) pos fl dl ms
  else if tag_in tag ["pos"]%string then
    _JMdictSense.mk ae (_append_to_tuple_attr pos txt) fl dl ms
  else if tag_in tag ["field"]%string then
    _JMdictSense.mk ae pos (_append_to_tuple_attr fl txt) dl ms
  else if tag_in tag ["misc"; "s_inf"]%string then
    _JMdictSense.mk ae pos fl dl (_append_to_tuple_attr ms txt)
  else if tag_in tag ["dial"]%string then
    _JMdictSense.mk ae pos fl (_append_to_tuple_attr dl txt) ms
  else o.

(** The finished [JMdictEntry]; both required attributes are set once the
    two required calls of [_parse_text_elements] have returned. *)
Definition entry_of_attrs (o : entry_attrs) : outcome JMdictEntry.t :=
  match a_entry_id o, a_text_form o with
  | Some i, Some t =>
      Ok (JMdictEntry.mk i t (a_text_form_info o) (a_text_form_freq o)
            None None None None)
  | _, _ => Raise ResourceLoadError
  end.

Definition _add_sense_data (entries : list JMdictEntry.t)
    (senses : list _JMdictSense.t) : list JMdictEntry.t :=
  fold_left
    (fun entries sense =>
       map (fun entry =>
              if match _JMdictSense.applicable_elements sense with
                 | Some ae =>
                     (0 <? length ae)
                     && negb (existsb
                                (fun x =>
                                   if str_eq_dec (JMdictEntry.text_form entry) x
                                   then true else false) ae)
                 | None => false
                 end
              then entry
              else
                JMdictEntry.mk
                  (JMdictEntry.entry_id entry)
                  (JMdictEntry.text_form entry)
                  (JMdictEntry.text_form_info entry)
                  (JMdictEntry.text_form_freq entry)
                  (_JMdictSense.parts_of_speech sense)
                  (_JMdictSense.fields sense)
                  (_JMdictSense.dialects sense)
                  (_JMdictSense.misc sense))
           entries)
    senses entries.

Definition _parse_entry_xml (entry : Xml.Element)
  : outcome (list JMdictEntry.t) :=
  objs <-
    for_each
      (fun (st : list JMdictEntry.t * list _JMdictSense.t) element =>
         let '(repr_objs, sense_objs) := st in
         if tag_in (Xml.tag element) ["k_ele"; "r_ele"]%string then
           let repr_obj :=
             {| a_entry_id := None; a_text_form := None;
                a_text_form_info := None; a_text_form_freq := None |} in
           repr_obj <- _parse_text_elements store_entry_attr repr_obj
                         entry [_ENTRY_ID_TAG] true ;;
           text_form_tag <-
             match dict_get str_eq_dec _REPR_TEXT_FORM_TAG (Xml.tag element)
             with Some t => Ok t | None => Raise IndexError end ;;
           repr_obj <- _parse_text_elements store_entry_attr repr_obj
                         element [text_form_tag] true ;;
           optional_tags <-
             match dict_get str_eq_dec _REPR_OPTIONAL_TAGS (Xml.tag element)
             with Some t => Ok t | None => Raise IndexError end ;;
           repr_obj <- _parse_text_elements store_entry_attr repr_obj
                         element optional_tags false ;;
           repr_obj <- entry_of_attrs repr_obj ;;
           Ok (repr_objs ++ [repr_obj], sense_objs)
         else if str_eq_dec (Xml.tag element) _SENSE_ELEMENT_TAG then
           sense_obj <- _parse_text_elements store_sense_attr
                          _JMdictSense.new element _SENSE_OPTIONAL_TAGS
                          false ;;
           Ok (repr_objs, sense_objs ++ [sense_obj])
         else if negb (if str_eq_dec (Xml.tag element) _ENTRY_ID_TAG
                       then true else false)
         then Raise ResourceLoadError
         else Ok (repr_objs, sense_objs))
      (Xml.children entry) ([], []) ;;
  let '(repr_objs, sense_objs) := objs in
  Ok (_add_sense_data repr_objs sense_objs).

Definition _get_mecab_decomb (fuel : nat) (entry : JMdictEntry.t)
  : outcome (list str) :=
  flis <- parse mecab fuel (JMdictEntry.text_form entry) 0 ;;
  let base_forms := map base_form flis in
  Ok base_forms.

(** [self._entry_map] and [self._mecab_decomp_map] replaced. *)
Definition set_maps (self : JMdict) (em : EntryMap) (dm : MecabDecompMap)
  : JMdict :=
  {| _entry_map := Some em; _mecab_decomp_map := Some dm;
     _max_text_form_len := _max_text_form_len self;
     _max_mecab_decomp_len := _max_mecab_decomp_len self |}.

Definition _set_max_entry_lens (self : JMdict) : outcome JMdict :=
  match _entry_map self, _mecab_decomp_map self with
  | Some em, Some dm =>
      mt <- py_max (map (@length codepoint) (dict_keys em)) ;;
      md <- py_max (map (@length str) (dict_keys dm)) ;;
      Ok {| _entry_map := Some em; _mecab_decomp_map := Some dm;
            _max_text_form_len := Some mt;
            _max_mecab_decomp_len := Some md |}
  | _, _ => Raise AttributeError
  end.

(** The loop of [_load_from_shelf_if_newer] over the stored items. *)
Definition load_shelf_items
    (items : list (list str * list JMdictEntry.t))
  : EntryMap * MecabDecompMap :=
  fold_left
    (fun (st : EntryMap * MecabDecompMap) item =>
       let '(em, dm) := st in
       let '(mecab_decomp, entry_list) := item in
       let dm := dict_set strs_eq_dec dm mecab_decomp entry_list in
       let em :=
         fold_left
           (fun em entry =>
              dict_append str_eq_dec em (JMdictEntry.text_form entry) entry)
           entry_list em in
       (em, dm))
    items ([], []).

Definition _load_from_shelf_if_newer (self : JMdict) (fs : FileSystem)
    (comp_timestamp : Q) : outcome (bool * JMdict) :=
  match shelf_file fs with
  | None => Ok (false, self)
  | Some shelf =>
      let shelf_timestamp := shelf_mtime shelf in
      if Qle_bool shelf_timestamp comp_timestamp then Ok (false, self)
      else
        let '(em, dm) := load_shelf_items (_mecab_decomp_map_items shelf) in
        self <- _set_max_entry_lens (set_maps self em dm) ;;
        Ok (true, self)
  end.

(** [_write_to_shelf]: a new shelf replaces the file; [now] is the
    modification time the file gets. *)
Definition _write_to_shelf (self : JMdict) (fs : FileSystem) (now : Q)
  : outcome FileSystem :=
  match _mecab_decomp_map self with
  | Some dm =>
      Ok {| xml_file := xml_file fs;
            shelf_file :=
              Some {| shelf_mtime := now;
                      _mecab_decomp_map_items := dict_items dm |} |}
  | None => Raise AttributeError
  end.

(** The loop of [load_jmdict] over the entries of the XML root. *)
Definition load_xml_entries (fuel : nat) (root : Xml.Element)
  : outcome (EntryMap * MecabDecompMap) :=
  for_each
    (fun st entry_element =>
       entry_objs <- _parse_entry_xml entry_element ;;
       for_each
         (fun (st : EntryMap * MecabDecompMap) entry_obj =>
            let '(em, dm) := st in
            mecab_decomp <- _get_mecab_decomb fuel entry_obj ;;
            let dm := dict_append strs_eq_dec dm mecab_decomp entry_obj in
            let em :=
              dict_append str_eq_dec em (JMdictEntry.text_form entry_obj)
                entry_obj in
            Ok (em, dm))
         entry_objs st)
    (Xml.children root) ([], []).

(** [load_jmdict(xml_filepath)] on the object [self], in the file system
    [fs]; returns the object and the file system it leaves. *)
Definition load_jmdict (self : JMdict) (fs : FileSystem) (now : Q)
    (fuel : nat) : outcome (JMdict * FileSystem) :=
  xml_last_modified_time <-
    match xml_file fs with
    | Some x => Ok (xml_mtime x)
    | None => Raise OSError
    end ;;
  r <- _load_from_shelf_if_newer self fs xml_last_modified_time ;;
  let '(loaded, self) := r in
  if (loaded : bool) then Ok (self, fs)
  else
    match xml_file fs with
    | None => Raise ResourceLoadError
    | Some x =>
        maps <- load_xml_entries fuel (xml_root x) ;;
        let '(em, dm) := maps in
        self <- _set_max_entry_lens (set_maps self em dm) ;;
        fs <- _write_to_shelf self fs now ;;
        Ok (self, fs)
    end.

Definition contains_entry (self : JMdict) (entry : JMdictKey)
  : outcome bool :=
  match _entry_map self, _mecab_decomp_map self with
  | Some em, Some dm =>
      match entry with
      | TextForm s => Ok (dict_contains str_eq_dec em s)
      | MecabDecomp d => Ok (dict_contains strs_eq_dec dm d)
      end
  | _, _ => Raise ResourceNotReadyError
  end.

Definition get_entries (self : JMdict) (entry : JMdictKey)
  : outcome (list JMdictEntry.t) :=
  match _entry_map self, _mecab_decomp_map self with
  | Some em, Some dm =>
      match entry with
      | TextForm s =>
          Ok (match dict_get str_eq_dec em s with
              | Some l => l | None => [] end)
      | MecabDecomp d =>
          Ok (match dict_get strs_eq_dec dm d with
              | Some l => l | None => [] end)
      end
  | _, _ => Raise ResourceNotReadyError
  end.

End JMdictDef.

(* ===================================================================== *)
(** ** [myaku.utils] *)
(* ===================================================================== *)

Module Utils.

(** Modelled from the spec: [utils.unique] is missing; it keeps the first
    occurrence of every item, in the order the items are first seen.
    [unique_step] is the body of its loop. *)
Definition unique_step {A : Type}
    (eq_dec : forall a b : A, {a = b} + {a <> b})
    (seen : list A) (x : A) : list A :=
  if in_dec eq_dec x seen then seen else seen ++ [x].

Definition unique {A : Type} (eq_dec : forall a b : A, {a = b} + {a <> b})
    (items : list A) : list A :=
  fold_left (unique_step eq_dec) items [].

End Utils.

(* ===================================================================== *)
(** ** [JapaneseTextAnalyzer] *)
(* ===================================================================== *)

Section JapaneseTextAnalyzer.

Variable mecab : str -> str.

(** [self._jmdict] *)
Variable jmdict : JMdict.

Definition _SYMBOL_PART_OF_SPEECH : str := u "記号".

Definition sum (l : list nat) : nat := fold_left Nat.add l 0.

Definition _within_jmdict_max_entry_len (flis : list FoundJpnLexicalItem)
  : outcome bool :=
  max_decomp <- max_mecab_decomp_len jmdict ;;
  if length flis <=? max_decomp then Ok true
  else
    let base_form_len := sum (map (fun item => length (base_form item)) flis) in
    max_text <- max_text_form_len jmdict ;;
    if base_form_len <=? max_text then Ok true
    else
      surface_forms <- map_outcome get_first_surface_form flis ;;
      let surface_form_len := sum (map (@length codepoint) surface_forms) in
      max_text <- max_text_form_len jmdict ;;
      if surface_form_len <=? max_text then Ok true
      else Ok false.

Definition entry_in (entry : JMdictEntry.t) (l : list JMdictEntry.t)
  : bool :=
  if in_dec JMdictEntry.eq_dec entry l then true else false.

Definition _lookup_meta_lexical_item
    (base_decomp : list FoundJpnLexicalItem)
  : outcome (list FoundJpnLexicalItem) :=
  let decomp_base_forms := map base_form base_decomp in
  decomp_entries <- get_entries jmdict (MecabDecomp decomp_base_forms) ;;
  surface_forms <- map_outcome get_first_surface_form base_decomp ;;
  let surface_form := join surface_forms in
  surface_entries <- get_entries jmdict (TextForm surface_form) ;;
  let base_form := join decomp_base_forms in
  base_entries <- get_entries jmdict (TextForm base_form) ;;
  match decomp_entries, surface_entries, base_entries with
  | [], [], [] => Ok []
  | _, _, _ =>
      let entries :=
        Utils.unique JMdictEntry.eq_dec
          (decomp_entries ++ surface_entries ++ base_entries) in
      map_outcome
        (fun entry =>
           let sources :=
             (if entry_in entry decomp_entries
              then [JMDICT_MECAB_DECOMP] else [])
             ++ (if entry_in entry surface_entries
                 then [JMDICT_SURFACE_FORM] else [])
             ++ (if entry_in entry base_entries
                 then [JMDICT_BASE_FORM] else []) in
           first <- index base_decomp 0 ;;
           first_pos <- index (found_positions first) 0 ;;
           Ok (new_FoundJpnLexicalItem
                 (JMdictEntry.text_form entry)
                 [ {| start := start first_pos;
                      len := length surface_form |} ]
                 [ {| mecab_interp := None;
                      jmdict_interp_entry_id :=
                        Some (JMdictEntry.entry_id entry);
                      interp_sources := sources |} ]))
        entries
  end.

(** The two nested [while] loops of [_find_meta_lexical_items].  [visit]
    is what the body does with a window that is within the length bound:
    the finder looks it up.  The loops count their iterations against
    [fuel]; [length base_lexical_items] is always enough. *)
Section MetaLoops.

Context {A : Type}.
Variable visit : list FoundJpnLexicalItem -> outcome (list A).
Variable base_lexical_items : list FoundJpnLexicalItem.

Fixpoint inner_while (fuel : nat) (start end_ : nat) (acc : list A)
  : outcome (list A) :=
  if end_ <? length base_lexical_items then
    match fuel with
    | 0 => OutOfFuel
    | S fuel' =>
        let decomp := slice base_lexical_items start (end_ + 1) in
        within <- _within_jmdict_max_entry_len decomp ;;
        if negb within then Ok acc
        else
          lookup_lexical_items <- visit decomp ;;
          inner_while fuel' start (end_ + 1)
            (acc ++ lookup_lexical_items)
    end
  else Ok acc.

Fixpoint outer_while (fuel : nat) (start : nat) (acc : list A)
  : outcome (list A) :=
  if start <? length base_lexical_items then
    match fuel with
    | 0 => OutOfFuel
    | S fuel' =>
        let end_ := start + 1 in
        acc <- inner_while (length base_lexical_items) start end_ acc ;;
        outer_while fuel' (start + 1) acc
    end
  else Ok acc.

End MetaLoops.

Definition _find_meta_lexical_items
    (base_lexical_items : list FoundJpnLexicalItem)
  : outcome (list FoundJpnLexicalItem) :=
  outer_while _lookup_meta_lexical_item base_lexical_items
    (length base_lexical_items) 0 [].

(** The windows [_find_meta_lexical_items] looks up, in the order it looks
    them up: the same loops, keeping the window after its lookup. *)
Definition looked_up_windows
    (base_lexical_items : list FoundJpnLexicalItem)
  : outcome (list (list FoundJpnLexicalItem)) :=
  outer_while
    (fun decomp => _lookup_meta_lexical_item decomp ;;; Ok [decomp])
    base_lexical_items (length base_lexical_items) 0 [].

Definition _is_symbol (fli : FoundJpnLexicalItem) : bool :=
  existsb
    (fun possible_interp =>
       match mecab_interp possible_interp with
       | None => false
       | Some mi =>
           existsb
             (fun part_of_speech =>
                if str_eq_dec part_of_speech _SYMBOL_PART_OF_SPEECH
                then true else false)
             (MyakuDatatypes.parts_of_speech mi)
       end)
    (possible_interps fli).

Definition _find_lexical_items (fuel : nat) (text : str) (offset : nat)
    (article : JpnArticle) : outcome (list FoundJpnLexicalItem) :=
  mecab_lexical_items <- parse mecab fuel text offset ;;
  let mecab_lexical_items :=
    map (set_article article) mecab_lexical_items in
  meta_lexical_items <- _find_meta_lexical_items mecab_lexical_items ;;
  let found_lexical_items := mecab_lexical_items ++ meta_lexical_items in
  Ok (map (set_article article)
        (filter (fun item => negb (_is_symbol item)) found_lexical_items)).

End JapaneseTextAnalyzer.

(* ===================================================================== *)
(** ** Sample data *)
(* ===================================================================== *)

Module Samples.

Local Open Scope string_scope.

Definition tab : str := [_TOKEN_SPLITTER].
Definition nl : str := [10%N].

(** A column the tagger leaves empty. *)
Definition blank : string := EmptyString.

(** One line of chasen output from its columns. *)
Definition chasen_line (cols : list string) : str :=
  match map u cols with
  | [] => nl
  | c :: cs => (c ++ flat_map (fun x => tab ++ x) cs ++ nl)%list
  end.

Definition chasen (lines : list (list string)) : str :=
  (flat_map chasen_line lines ++ u "EOS" ++ nl)%list.

(** A tagger that knows a few texts and answers [EOS] to the rest. *)
Definition sample_outputs : @dict str str :=
  [ (u "猫 が 走る",
     chasen [ ["猫"; "ネコ"; "猫"; "名詞-一般"; blank; blank];
              ["が"; "ガ"; "が"; "助詞-格助詞-一般"; blank; blank];
              ["走る"; "ハシル"; "走る"; "動詞-自立"; "五段・ラ行"; "基本形"] ]);
    (u "猫 が 走る 物 物",
     chasen [ ["猫"; "ネコ"; "猫"; "名詞-一般"; blank; blank];
              ["が"; "ガ"; "が"; "助詞-格助詞-一般"; blank; blank];
              ["走る"; "ハシル"; "走る"; "動詞-自立"; "五段・ラ行"; "基本形"];
              ["物"; "モノ"; "物"; "名詞-一般"; blank; blank];
              ["物"; "モノ"; "物"; "名詞-一般"; blank; blank] ]);
    (u "食べ物",
     chasen [ ["食べ"; "タベ"; "食べる"; "動詞-自立"; "一段"; "連用形"];
              ["物"; "モノ"; "物"; "名詞-一般"; blank; blank] ]);
    (u "物",
     chasen [ ["物"; "モノ"; "物"; "名詞-一般"; blank; blank] ]);
    (u "たべもの",
     chasen [ ["たべ"; "タベ"; "たべる"; "動詞-自立"; "一段"; "連用形"];
              ["もの"; "モノ"; "もの"; "名詞-非自立-一般"; blank; blank] ]);
    (u "走る",
     chasen [ ["走る"; "ハシル"; "走る"; "動詞-自立"; "五段・ラ行"; "基本形"] ]);
    (u "猫。",
     chasen [ ["猫"; "ネコ"; "猫"; "名詞-一般"; blank; blank];
              ["。"; "。"; "。"; "記号-句点"; blank; blank] ]);
    (u "x",
     chasen [ ["x"; "エックス"; "x"; "名詞-記号"; blank; blank] ]);
    (u "ab",
     chasen [ ["a"; "エー"; "a"; "名詞-一般"; blank; blank];
              ["c"; "シー"; "c"; "名詞-一般"; blank; blank] ]);
    (u "犬",
     chasen [ ["犬"; "イヌ"; "犬" ] ]) ].

Definition sample_mecab (text : str) : str :=
  match dict_get str_eq_dec sample_outputs text with
  | Some out => out
  | None => chasen []
  end.

Definition elem (tag : string) (children : list Xml.Element)
  : Xml.Element := Xml.Elem (u tag) None children.

Definition leaf (tag text : string) : Xml.Element :=
  Xml.Elem (u tag) (Some (u text)) [].

(** A JMdict document with two entries: 食べ物 (たべもの) and 物. *)
Definition sample_root : Xml.Element :=
  elem "JMdict"
    [ elem "entry"
        [ leaf "ent_seq" "1358280";
          elem "k_ele" [ leaf "keb" "食べ物"; leaf "ke_pri" "ichi1" ];
          elem "r_ele" [ leaf "reb" "たべもの" ];
          elem "sense" [ leaf "pos" "n" ] ];
      elem "entry"
        [ leaf "ent_seq" "1502390";
          elem "k_ele" [ leaf "keb" "物" ];
          elem "sense" [ leaf "pos" "n"; leaf "misc" "uk" ] ] ].

Definition sample_tag_order : list str :=
  map u ["stagk"; "stagr"; "pos"; "field"; "misc"; "dial"; "s_inf"].

(** The XML file, last modified at time 10, and no shelf yet. *)
Definition sample_fs : FileSystem :=
  {| xml_file := Some {| xml_mtime := 10; xml_root := sample_root |};
     shelf_file := None |}.

Definition sample_article : JpnArticle := {| full_text := u "食べ物" |}.

(** The dictionary object after [load_jmdict] on [sample_fs], the shelf
    being written at time 20. *)
Definition sample_jmdict : JMdict :=
  match load_jmdict sample_mecab sample_tag_order new_JMdict sample_fs 20 5
  with
  | Ok (jm, _) => jm
  | _ => new_JMdict
  end.

(** The files after that load: the shelf is there. *)
Definition sample_fs_loaded : FileSystem :=
  match load_jmdict sample_mecab sample_tag_order new_JMdict sample_fs 20 5
  with
  | Ok (_, fs) => fs
  | _ => sample_fs
  end.

(** The base items of the text 食べ物, as [parse] returns them and with
    their article set. *)
Definition sample_parsed : list FoundJpnLexicalItem :=
  match parse sample_mecab 5 (u "食べ物") 0 with
  | Ok l => l
  | _ => []
  end.

Definition sample_base_items : list FoundJpnLexicalItem :=
  map (set_article sample_article) sample_parsed.

(** The meta items of these base items, and all the items found. *)
Definition sample_meta_items : list FoundJpnLexicalItem :=
  match _find_meta_lexical_items sample_jmdict sample_base_items with
  | Ok l => l
  | _ => []
  end.

Definition sample_found : list FoundJpnLexicalItem :=
  match _find_lexical_items sample_mecab sample_jmdict 5 (u "食べ物") 0
          sample_article with
  | Ok l => l
  | _ => []
  end.

(** The base items of the text 猫 が 走る 物 物. *)
Definition sample_long_items : list FoundJpnLexicalItem :=
  match parse sample_mecab 9 (u "猫 が 走る 物 物") 0 with
  | Ok l => l
  | _ => []
  end.

(** The items found in the text 猫。, whose second token is a symbol. *)
Definition sample_neko_found : list FoundJpnLexicalItem :=
  match _find_lexical_items sample_mecab sample_jmdict 5 (u "猫。") 0
          sample_article with
  | Ok l => l
  | _ => []
  end.

Definition sample_entry_map : EntryMap :=
  match _entry_map sample_jmdict with Some em => em | None => [] end.

Definition sample_decomp_map : MecabDecompMap :=
  match _mecab_decomp_map sample_jmdict with Some dm => dm | None => [] end.

Definition sample_first : FoundJpnLexicalItem :=
  nth 0 sample_base_items (new_FoundJpnLexicalItem [] [] []).

Definition sample_rest : list FoundJpnLexicalItem := tl sample_base_items.

(** The meta item 食べ物, found by its decomposition and by its surface
    form. *)
Definition sample_meta_item : FoundJpnLexicalItem :=
  new_FoundJpnLexicalItem (u "食べ物")
    [ {| start := 0; len := 3 |} ]
    [ {| mecab_interp := None;
         jmdict_interp_entry_id := Some (u "1358280");
         interp_sources := [JMDICT_MECAB_DECOMP; JMDICT_SURFACE_FORM] |} ].

End Samples.

(* ===================================================================== *)
(** ** Predicates of the specification *)
(* ===================================================================== *)

(** Some MeCab interpretation of the item has 記号 among its parts of
    speech, at any depth. *)
Definition has_symbol_pos (fli : FoundJpnLexicalItem) : Prop :=
  exists interp mi,
    In interp (possible_interps fli)
    /\ mecab_interp interp = Some mi
    /\ In _SYMBOL_PART_OF_SPEECH (MyakuDatatypes.parts_of_speech mi).


(** The sole interpretation of the item is a dictionary interpretation. *)
Definition is_meta_item (fli : FoundJpnLexicalItem) : Prop :=
  exists entry_id sources,
    possible_interps fli
    = [ {| mecab_interp := None;
           jmdict_interp_entry_id := Some entry_id;
           interp_sources := sources |} ].

(** Every MeCab interpretation of the item has 記号 as its first part of
    speech. *)
Definition all_morph_first_pos_symbol (fli : FoundJpnLexicalItem) : Prop :=
  forall interp mi,
    In interp (possible_interps fli) ->
    mecab_interp interp = Some mi ->
    nth_error (MyakuDatatypes.parts_of_speech mi) 0
    = Some _SYMBOL_PART_OF_SPEECH.

(** The first part of speech of some MeCab interpretation of the item is
    not 記号. *)
Definition has_non_symbol_first_pos (fli : FoundJpnLexicalItem) : Prop :=
  exists interp mi pos,
    In interp (possible_interps fli)
    /\ mecab_interp interp = Some mi
    /\ nth_error (MyakuDatatypes.parts_of_speech mi) 0 = Some pos
    /\ pos <> _SYMBOL_PART_OF_SPEECH.

(** The text reads [tok] at position [p]: [text[p:p + len(tok)] == tok]. *)
Definition matches_at (text tok : str) (p : nat) : Prop :=
  slice text p (p + length tok) = tok.

(** [p] is the first position at or after [cursor] where the text reads
    [tok]. *)
Definition first_match_from (text tok : str) (cursor p : nat) : Prop :=
  cursor <= p
  /\ matches_at text tok p
  /\ forall q, cursor <= q < p -> ~ matches_at text tok q.

(** A search for that position that always ends: a match of a non-empty
    token starts before the end of the text. *)
Definition find_from (text tok : str) (cursor : nat) : option nat :=
  match align (length text - cursor) text tok cursor with
  | Ok p => Some p
  | _ => None
  end.

(** The line is the end-of-section marker. *)
Definition is_eos (tags : list str) : bool :=
  (length tags =? 1)
  && (if str_eq_dec (nth 0 tags []) _END_OF_SECTION_MARKER
      then true else false).

(** The line has four, five or six tokens. *)
Definition accepted_count (tags : list str) : bool :=
  existsb (Nat.eqb (length tags)) _EXPECTED_TOKEN_TAG_COUNTS.

(** The item [parse] makes of an accepted line, at the article offset
    [offset]. *)
Definition item_of_line (tags : list str) (offset : nat)
  : outcome FoundJpnLexicalItem :=
  interp <- _create_mecab_interp tags ;;
  _create_found_lexical_item tags interp offset.

(** Where the cursor of [parse] stands after the lines [toks], started at
    [cursor]; [None] when the surface form of some line is not found. *)
Fixpoint cursor_after (text : str) (toks : list (list str)) (cursor : nat)
  : option nat :=
  match toks with
  | [] => Some cursor
  | tags :: rest =>
      if is_eos tags then cursor_after text rest cursor
      else
        match find_from text (nth 0 tags []) cursor with
        | Some p => cursor_after text rest (p + length (nth 0 tags []))
        | None => None
        end
  end.

(** The lines that are not the end-of-section marker. *)
Definition token_lines (toks : list (list str)) : list (list str) :=
  filter (fun tags => negb (is_eos tags)) toks.

(** The line is the end-of-section marker or has an accepted number of
    tokens. *)
Definition well_formed_line (tags : list str) : Prop :=
  is_eos tags = true \/ accepted_count tags = true.

(** The dictionary object has data loaded: the two maps and the two
    maximal lengths. *)
Definition loaded (jm : JMdict) (em : EntryMap) (dm : MecabDecompMap)
    (max_text max_decomp : nat) : Prop :=
  jm = {| _entry_map := Some em; _mecab_decomp_map := Some dm;
          _max_text_form_len := Some max_text;
          _max_mecab_decomp_len := Some max_decomp |}.

(** The item has a position; every item [parse] makes has one. *)
Definition has_position (fli : FoundJpnLexicalItem) : Prop :=
  found_positions fli <> [].

(** The first surface form of an item that has a position. *)
Definition first_surface_form (fli : FoundJpnLexicalItem) : str :=
  match get_first_surface_form fli with
  | Ok s => s
  | _ => []
  end.

(** The length bound of the specification: the number of items is at most
    [max_decomp], or the summed length of the base forms is at most
    [max_text], or the summed length of the first surface forms is. *)
Definition within_bound (max_text max_decomp : nat)
    (window : list FoundJpnLexicalItem) : bool :=
  (length window <=? max_decomp)
  || (sum (map (fun b => length (base_form b)) window) <=? max_text)
  || (sum (map (fun b => length (first_surface_form b)) window) <=? max_text).

(** The longest prefix of a list whose elements all pass [f]. *)
Fixpoint take_while {A : Type} (f : A -> bool) (l : list A) : list A :=
  match l with
  | [] => []
  | a :: l' => if f a then a :: take_while f l' else []
  end.

(** The windows [B[i..=j]] for [j = i + 1, i + 2, ...] up to, and without,
    the first one that is not within the bound. *)
Definition windows_from (max_text max_decomp : nat)
    (B : list FoundJpnLexicalItem) (i : nat)
  : list (list FoundJpnLexicalItem) :=
  map (fun j => slice B i (j + 1))
      (take_while (fun j => within_bound max_text max_decomp
                              (slice B i (j + 1)))
                  (seq (i + 1) (length B - (i + 1)))).

(** These windows for [i = 0, 1, ...], in order. *)
Definition bounded_windows (max_text max_decomp : nat)
    (B : list FoundJpnLexicalItem) : list (list FoundJpnLexicalItem) :=
  flat_map (windows_from max_text max_decomp B) (seq 0 (length B)).

(** The entries under a key of the text-form index and of the decomposition
    index; none under a key that is not there. *)
Definition lookup_text (em : EntryMap) (s : str) : list JMdictEntry.t :=
  match dict_get str_eq_dec em s with Some l => l | None => [] end.

Definition lookup_decomp (dm : MecabDecompMap) (d : list str)
  : list JMdictEntry.t :=
  match dict_get strs_eq_dec dm d with Some l => l | None => [] end.

(** The source tags of an entry, from the results of the three lookups. *)
Definition meta_sources (decomp_entries surface_entries base_entries
                           : list JMdictEntry.t)
    (entry : JMdictEntry.t) : list InterpSource :=
  (if entry_in entry decomp_entries then [JMDICT_MECAB_DECOMP] else [])
  ++ (if entry_in entry surface_entries then [JMDICT_SURFACE_FORM] else [])
  ++ (if entry_in entry base_entries then [JMDICT_BASE_FORM] else []).

(** The start of the first position of an item. *)
Definition first_start (fli : FoundJpnLexicalItem) : nat :=
  nth 0 (map start (found_positions fli)) 0.

(** The items the lookup of a window returns. *)
Definition meta_items_of (jm : JMdict) (window : list FoundJpnLexicalItem)
  : list FoundJpnLexicalItem :=
  match _lookup_meta_lexical_item jm window with
  | Ok items => items
  | _ => []
  end.

(** At least one of the three length measures of the window is within its
    bound. *)
Definition some_measure_within (max_text max_decomp : nat)
    (window : list FoundJpnLexicalItem) : Prop :=
  length window <= max_decomp
  \/ sum (map (fun b => length (base_form b)) window) <= max_text
  \/ sum (map (fun b => length (first_surface_form b)) window) <= max_text.

(** Equality of two dictionaries as Python compares them: the same keys,
    and equal values under every key.  The order of the items does not
    count; the order inside a list value does. *)
Definition dict_eq {K V : Type}
    (K_eq_dec : forall a b : K, {a = b} + {a <> b})
    (d1 d2 : @dict K V) : Prop :=
  forall k, dict_get K_eq_dec d1 k = dict_get K_eq_dec d2 k.

(** No key of the index has an empty list of entries. *)
Definition nonempty_values {K X : Type} (d : @dict K (list X)) : Prop :=
  Forall (fun item => snd item <> []) d.

(** The MeCab decomposition of a text form: the base forms [parse] returns
    for it. *)
Definition decomposition (mecab : str -> str) (fuel : nat) (text_form : str)
  : list str :=
  match parse mecab fuel text_form 0 with
  | Ok flis => map base_form flis
  | _ => []
  end.

(** The value [x] has the key [k]. *)
Definition has_key {K X : Type}
    (K_eq_dec : forall a b : K, {a = b} + {a <> b})
    (key : X -> K) (k : K) (x : X) : bool :=
  if K_eq_dec (key x) k then true else false.

(** A list of values indexed under the key of each, in the order of the
    list: what a loop of [d[key(x)].append(x)] builds. *)
Definition group_by {K X : Type}
    (K_eq_dec : forall a b : K, {a = b} + {a <> b})
    (key : X -> K) (xs : list X) (d : @dict K (list X))
  : @dict K (list X) :=
  fold_left (fun d x => dict_append K_eq_dec d (key x) x) xs d.

(** The two indexes after the loop of [load_jmdict] over the entries [es]
    of the document, in document order, started from the indexes [st]. *)
Definition xml_indexes (mecab : str -> str) (fuel : nat)
    (es : list JMdictEntry.t) (st : EntryMap * MecabDecompMap)
  : EntryMap * MecabDecompMap :=
  (group_by str_eq_dec JMdictEntry.text_form es (fst st),
   group_by strs_eq_dec
     (fun e => decomposition mecab fuel (JMdictEntry.text_form e))
     es (snd st)).

(** The file systems the program can leave behind: it starts without a
    shelf, every successful [load_jmdict] leaves one, and the XML file may
    be replaced between two runs. *)
Inductive reachable_fs (mecab : str -> str) (sense_tag_order : list str)
  : FileSystem -> Prop :=
| reachable_no_shelf : forall x,
    reachable_fs mecab sense_tag_order
      {| xml_file := x; shelf_file := None |}
| reachable_load : forall fs self now fuel jm fs',
    reachable_fs mecab sense_tag_order fs ->
    load_jmdict mecab sense_tag_order self fs now fuel = Ok (jm, fs') ->
    reachable_fs mecab sense_tag_order fs'
| reachable_new_xml : forall fs x,
    reachable_fs mecab sense_tag_order fs ->
    reachable_fs mecab sense_tag_order
      {| xml_file := x; shelf_file := shelf_file fs |}.

(* ===================================================================== *)
(** ** Further predicates *)
(* ===================================================================== *)

(** The positions follow one another without overlap between [lo] and
    [hi]: each starts at or after the end of the one before. *)
Fixpoint in_order (lo : nat) (ps : list ArticleTextPosition) (hi : nat)
  : Prop :=
  match ps with
  | [] => lo <= hi
  | p :: rest => lo <= start p /\ in_order (start p + len p) rest hi
  end.

(** The items [parse] makes of the token lines [lines], the cursor going
    from [cursor] to [cursor']: each line is found at its first match at or
    after the cursor, and the cursor moves to the end of the match. *)
Inductive parsed_from (text : str) (text_offset : nat)
  : nat -> list (list str) -> list FoundJpnLexicalItem -> nat -> Prop :=
| parsed_nil : forall cursor, parsed_from text text_offset cursor [] [] cursor
| parsed_cons : forall cursor tags lines p fli flis cursor',
    accepted_count tags = true ->
    first_match_from text (nth 0 tags []) cursor p ->
    item_of_line tags (text_offset + p) = Ok fli ->
    parsed_from text text_offset (p + length (nth 0 tags [])) lines flis
      cursor' ->
    parsed_from text text_offset cursor (tags :: lines) (fli :: flis) cursor'.

(** More sample data. *)
Module Fixtures.

(** The items of the text 猫 が 走る, parsed at the article offset 10. *)
Definition neko_items : list FoundJpnLexicalItem :=
  match parse Samples.sample_mecab 6 (u "猫 が 走る") 10 with
  | Ok l => l
  | _ => []
  end.

End Fixtures.

(** The entries of a JMdict document, in document order: the entries
    [_parse_entry_xml] makes of each record under the root. *)
Definition document_entries (sense_tag_order : list str)
    (root : Xml.Element) : outcome (list JMdictEntry.t) :=
  entry_lists <- map_outcome (_parse_entry_xml sense_tag_order)
                   (Xml.children root) ;;
  Ok (concat entry_lists).

(** The load reads the XML file [x]: there is no shelf, or the shelf is
    not newer than the file. *)
Definition reads_xml (fs : FileSystem) (x : XmlFile) : Prop :=
  xml_file fs = Some x
  /\ forall shelf,
      shelf_file fs = Some shelf -> (shelf_mtime shelf <= xml_mtime x)%Q.

(** The tagger adapter returns for the text form of the entry, with its
    decomposition. *)
Definition decomposed (mecab : str -> str) (fuel : nat) (e : JMdictEntry.t)
  : Prop :=
  _get_mecab_decomb mecab fuel e
  = Ok (decomposition mecab fuel (JMdictEntry.text_form e)).

(** The call returns or raises one of the errors [allowed]; it does not
    run out of fuel. *)
Definition ends_with (allowed : list error) {A : Type} (c : outcome A)
  : Prop :=
  match c with
  | Ok _ => True
  | Raise e => In e allowed
  | OutOfFuel => False
  end.

(** The tag of a child that [_parse_entry_xml] knows. *)
Definition known_tag (tag : str) : Prop :=
  In tag [u "k_ele"; u "r_ele"; u "sense"; u "ent_seq"].

(** The child is a representation: a [k_ele] or an [r_ele] element. *)
Definition is_repr (el : Xml.Element) : bool :=
  tag_in (Xml.tag el) ["k_ele"%string; "r_ele"%string].

(** The child is a representation that lacks its text: a [k_ele] without a
    [keb], or an [r_ele] without a [reb]. *)
Definition lacks_text_form (el : Xml.Element) : Prop :=
  (Xml.tag el = u "k_ele" /\ Xml.findall (u "keb") el = [])
  \/ (Xml.tag el = u "r_ele" /\ Xml.findall (u "reb") el = []).

(** The sense applies to the entry: it names no element, or it names the
    text form of the entry. *)
Definition sense_applies (sense : _JMdictSense.t) (entry : JMdictEntry.t)
  : bool :=
  match _JMdictSense.applicable_elements sense with
  | None => true
  | Some [] => true
  | Some names =>
      if in_dec str_eq_dec (JMdictEntry.text_form entry) names
      then true else false
  end.

(** [e'] is [e] with the sense data of the last sense of [senses] that
    applies to it, and [e] itself where no sense applies. *)
Definition carries_sense (senses : list _JMdictSense.t)
    (e e' : JMdictEntry.t) : Prop :=
  JMdictEntry.entry_id e' = JMdictEntry.entry_id e
  /\ JMdictEntry.text_form e' = JMdictEntry.text_form e
  /\ JMdictEntry.text_form_info e' = JMdictEntry.text_form_info e
  /\ JMdictEntry.text_form_freq e' = JMdictEntry.text_form_freq e
  /\ match find (fun s => sense_applies s e) (rev senses) with
     | Some s =>
         JMdictEntry.parts_of_speech e' = _JMdictSense.parts_of_speech s
         /\ JMdictEntry.fields e' = _JMdictSense.fields s
         /\ JMdictEntry.dialects e' = _JMdictSense.dialects s
         /\ JMdictEntry.misc e' = _JMdictSense.misc s
     | None =>
         JMdictEntry.parts_of_speech e' = JMdictEntry.parts_of_speech e
         /\ JMdictEntry.fields e' = JMdictEntry.fields e
         /\ JMdictEntry.dialects e' = JMdictEntry.dialects e
         /\ JMdictEntry.misc e' = JMdictEntry.misc e
     end.

Module RecordFixtures.

Import Samples.

(** A record with a child that [_parse_entry_xml] does not know. *)
Definition unknown_child : Xml.Element := leaf "gloss" "cat".

Definition record_with_unknown_child : Xml.Element :=
  elem "entry"
    [leaf "ent_seq" "1467640"; elem "k_ele" [leaf "keb" "猫"];
     unknown_child].

(** A record with two representations and a sense for the second one. *)
Definition record : Xml.Element :=
  elem "entry"
    [leaf "ent_seq" "1358280";
     elem "k_ele" [leaf "keb" "食べ物"; leaf "ke_pri" "ichi1"];
     elem "r_ele" [leaf "reb" "たべもの"];
     elem "sense" [leaf "stagr" "たべもの"; leaf "pos" "n"]].

Definition record_entries : list JMdictEntry.t :=
  match _parse_entry_xml sample_tag_order record with
  | Ok es => es
  | _ => []
  end.

(** A document whose second record is malformed, and no shelf. *)
Definition malformed_fs : FileSystem :=
  {| xml_file :=
       Some {| xml_mtime := 10;
               xml_root :=
                 elem "JMdict" [record; record_with_unknown_child] |};
     shelf_file := None |}.

(** The shelf of [sample_fs_loaded] and no XML file. *)
Definition shelf_only_fs : FileSystem :=
  {| xml_file := None; shelf_file := shelf_file sample_fs_loaded |}.

(** A document without a record, and no shelf. *)
Definition empty_document_fs : FileSystem :=
  {| xml_file := Some {| xml_mtime := 10; xml_root := elem "JMdict" [] |};
     shelf_file := None |}.

End RecordFixtures.

(** ** What a record of the document holds *)

(** [element.text], with the empty string for an element without text. *)
Definition text_of (el : Xml.Element) : str :=
  match Xml.text el with Some s => s | None => [] end.

Definition has_text (el : Xml.Element) : Prop := text_of el <> [].

(** The texts of the children of [parent] with the tag, in document
    order. *)
Definition element_texts (tag : str) (parent : Xml.Element) : list str :=
  map text_of (Xml.findall tag parent).

(** The children of [parent] with the tag can be read: each has text, and
    there is one when they are required. *)
Definition readable (required : bool) (parent : Xml.Element) (tag : str)
  : Prop :=
  Forall has_text (Xml.findall tag parent)
  /\ (required = true -> Xml.findall tag parent <> []).

(** A tuple attribute after its texts are appended: [None] is kept when
    there is none. *)
Definition tuple_of (texts : list str) : option (list str) :=
  match texts with [] => None | _ => Some texts end.

(** The tags of the text form, of its information and of its frequency
    within a representation. *)
Definition repr_tags (el : Xml.Element) : str * str * str :=
  if str_eq_dec (Xml.tag el) (u "k_ele")
  then (u "keb", u "ke_inf", u "ke_pri")
  else (u "reb", u "re_inf", u "re_pri").

(** The entry of a representation [el] of the record [entry], before the
    sense data is added: where an element occurs more than once, the last
    [ent_seq] of the record and the last text form of the representation
    stay. *)
Definition raw_entry (entry el : Xml.Element) : JMdictEntry.t :=
  let '(form, info, pri) := repr_tags el in
  JMdictEntry.mk
    (last (element_texts (u "ent_seq") entry) [])
    (last (element_texts form el) [])
    (tuple_of (element_texts info el))
    (tuple_of (element_texts pri el))
    None None None None.

Definition is_sense (el : Xml.Element) : bool :=
  if str_eq_dec (Xml.tag el) (u "sense") then true else false.

(** The sense read from a [sense] element, its tags visited in [order]. *)
Definition sense_of (order : list str) (el : Xml.Element)
  : _JMdictSense.t :=
  fold_left
    (fun o tag =>
       fold_left (fun o txt => store_sense_attr o tag txt)
         (element_texts tag el) o)
    order _JMdictSense.new.

(** A child that [_parse_entry_xml] accepts. *)
Definition well_formed_child (order : list str) (entry el : Xml.Element)
  : Prop :=
  if is_repr el then
    let '(form, info, pri) := repr_tags el in
    readable true entry (u "ent_seq")
    /\ readable true el form
    /\ readable false el info
    /\ readable false el pri
  else if is_sense el then Forall (readable false el) order
  else Xml.tag el = u "ent_seq".

(** The two lists of [_parse_entry_xml] after one more child. *)
Definition record_step (order : list str) (entry : Xml.Element)
    (st : list JMdictEntry.t * list _JMdictSense.t) (el : Xml.Element)
  : list JMdictEntry.t * list _JMdictSense.t :=
  if is_repr el then (fst st ++ [raw_entry entry el], snd st)
  else if is_sense el then (fst st, snd st ++ [sense_of order el])
  else st.

(** The attributes of an entry that the sense data leaves alone. *)
Definition identity_of (e : JMdictEntry.t)
  : str * str * option (list str) * option (list str) :=
  (JMdictEntry.entry_id e, JMdictEntry.text_form e,
   JMdictEntry.text_form_info e, JMdictEntry.text_form_freq e).


(** The list stored on the shelf under a decomposition: that of the last
    item with the key, and the empty list where there is none. *)
Definition stored_under (items : list (list str * list JMdictEntry.t))
    (d : list str) : list JMdictEntry.t :=
  match find (fun item => if strs_eq_dec (fst item) d then true else false)
          (rev items)
  with
  | Some item => snd item
  | None => []
  end.

(** The load reads the shelf: both files exist and the shelf is newer. *)
Definition reads_shelf (fs : FileSystem) (shelf : ShelfFile) : Prop :=
  shelf_file fs = Some shelf
  /\ exists x, xml_file fs = Some x /\ (xml_mtime x < shelf_mtime shelf)%Q.

(** All the windows of two or more consecutive items: [B[i..=j]] for every
    start [i] and every end [j > i], by start and then by end. *)
Definition all_windows (B : list FoundJpnLexicalItem)
  : list (list FoundJpnLexicalItem) :=
  flat_map
    (fun i =>
       map (fun j => slice B i (j + 1)) (seq (i + 1) (length B - (i + 1))))
    (seq 0 (length B)).

(* ===================================================================== *)
(** ** [JapaneseTextAnalyzer.find_article_lexical_items] *)
(* ===================================================================== *)

Section FindArticleLexicalItems.

Variable mecab : str -> str.
Variable jmdict : JMdict.

(** [reduce_found_lexical_items] of [myaku.datatypes], which is not part of
    the sources at hand: any function on lists of found items. *)
Variable reduce_found_lexical_items :
  list FoundJpnLexicalItem -> list FoundJpnLexicalItem.

(** The body of the loop over the blocks; the state is [offset] and
    [article_lexical_items], and [visit] is the call on a block that is not
    empty. *)
Definition article_loop_body {A : Type}
    (visit : str -> nat -> outcome (list A))
    (st : nat * list A) (text_block : str) : outcome (nat * list A) :=
  let '(offset, article_lexical_items) := st in
  if length text_block =? 0 then Ok (offset + 1, article_lexical_items)
  else
    found_lexical_items <- visit text_block offset ;;
    Ok (offset + (length text_block + 1),
        article_lexical_items ++ found_lexical_items).

Definition find_article_lexical_items (fuel : nat) (article : JpnArticle)
  : outcome (list FoundJpnLexicalItem) :=
  let article_blocks := splitlines (full_text article) in
  st <- for_each
          (article_loop_body
             (fun text_block offset =>
                _find_lexical_items mecab jmdict fuel text_block offset
                  article))
          article_blocks (0, []) ;;
  Ok (reduce_found_lexical_items (snd st)).

End FindArticleLexicalItems.

(** The blocks with the offsets the loop has when it reaches them. *)
Fixpoint with_offsets (offset : nat) (blocks : list str)
  : list (str * nat) :=
  match blocks with
  | [] => []
  | b :: rest => (b, offset) :: with_offsets (offset + (length b + 1)) rest
  end.

(** The blocks that are analysed, each with the offset it is given. *)
Definition analysed_blocks (text : str) : list (str * nat) :=
  filter (fun bo => negb (length (fst bo) =? 0))
    (with_offsets 0 (splitlines text)).

(** The text has a CR directly followed by a LF. *)
Fixpoint has_crlf (s : str) : bool :=
  match s with
  | [] => false
  | c :: rest =>
      match rest with
      | c' :: _ => ((c =? 13)%N && (c' =? 10)%N) || has_crlf rest
      | [] => false
      end
  end.

(** The block stands in the text at the offset. *)
Definition stands_at (text : str) (bo : str * nat) : Prop :=
  slice text (snd bo) (snd bo + length (fst bo)) = fst bo.

Module ArticleFixtures.

Import Samples.

Definition two_blocks : JpnArticle :=
  {| full_text := (u "猫。" ++ [10%N] ++ [10%N] ++ u "猫。")%list |}.

Definition two_blocks_items : list FoundJpnLexicalItem :=
  match find_article_lexical_items sample_mecab sample_jmdict
          (fun items => items) 5 two_blocks
  with
  | Ok items => items
  | _ => []
  end.


Definition crlf_blocks : JpnArticle :=
  {| full_text := (u "猫。" ++ [13%N; 10%N] ++ u "猫。")%list |}.

Definition crlf_blocks_items : list FoundJpnLexicalItem :=
  match find_article_lexical_items sample_mecab sample_jmdict
          (fun items => items) 5 crlf_blocks
  with
  | Ok items => items
  | _ => []
  end.

End ArticleFixtures.

(** No character of the line is a line boundary. *)
Definition one_line (l : str) : Prop :=
  Forall (fun c => is_line_boundary c = false) l.


(** A tagger whose answer for a text has a line that is not in the text
    before a line with a wrong number of tokens. *)
Module CountFixtures.

Import Samples.

Local Open Scope string_scope.

(** For the text [ab]: the lines [a] and [c], of four tokens each, then a
    line of three tokens. *)
Definition mecab (text : str) : str :=
  chasen [ ["a"; "エー"; "a"; "名詞-一般"; blank; blank];
           ["c"; "シー"; "c"; "名詞-一般"; blank; blank];
           ["b"; "ビー"; "b"] ].

End CountFixtures.
(* ===================================================================== *)
(** * Properties *)
(* ===================================================================== *)

Unset Implicit Arguments.

(** ** Outcomes *)

Lemma bind_Ok_inv {A B : Type} (c : outcome A) (k : A -> outcome B) (b : B) :
  bind c k = Ok b -> exists a, c = Ok a /\ k a = Ok b.
Proof. destruct c; simpl; intros H; try discriminate; eauto. Qed.

Lemma bind_Ok {A B : Type} (c : outcome A) (k : A -> outcome B) (a : A) :
  c = Ok a -> bind c k = k a.
Proof. intros ->; reflexivity. Qed.

(** Splits a hypothesis [x <- c ;; k = Ok b] into its two runs. *)
Ltac bind_inv H :=
  let a := fresh "a" in
  let Ha := fresh "Ha" in
  apply bind_Ok_inv in H; destruct H as (a & Ha & H).

Lemma map_outcome_Ok_length {A B : Type} (f : A -> outcome B) l out :
  map_outcome f l = Ok out -> length out = length l.
Proof.
  revert out; induction l as [|a l IH]; simpl; intros out H.
  - inversion H; reflexivity.
  - bind_inv H. bind_inv H. inversion H; subst; simpl.
    f_equal; eauto.
Qed.

Lemma map_outcome_pure {A B : Type} (f : A -> outcome B) (g : A -> B) l :
  (forall a, In a l -> f a = Ok (g a)) -> map_outcome f l = Ok (map g l).
Proof.
  induction l as [|a l IH]; simpl; intros H; [reflexivity|].
  rewrite (H a (or_introl eq_refl)); simpl.
  rewrite IH by (intros; apply H; right; assumption). reflexivity.
Qed.

(** ** Strings and tagger output on small inputs *)

Example u_decodes_code_points :
  u "猫 が 走る" = [29483; 32; 12364; 32; 36208; 12427]%N.
Proof. reflexivity. Qed.

Example splitlines_crlf :
  splitlines [97; 13; 10; 98; 10]%N = [[97]; [98]]%N.
Proof. reflexivity. Qed.

Example splitlines_keeps_blank_lines :
  splitlines [97; 10; 10; 98]%N = [[97]; []; [98]]%N.
Proof. reflexivity. Qed.

Example split_keeps_empty_fields :
  split _TOKEN_SPLITTER [97; 9; 9; 98]%N = [[97]; []; [98]]%N.
Proof. reflexivity. Qed.

Example slice_clips :
  slice [1; 2; 3] 2 10 = [3] /\ slice [1; 2; 3] 5 6 = [].
Proof. split; reflexivity. Qed.

(** The two corrections of [_adjust_if_known_problem]: a blank base form
    becomes the surface form, and な gets the base form な. *)
Example adjust_blank_base_form :
  _adjust_if_known_problem [u "令和"; u "レイワ"; []; u "名詞-固有名詞"]
  = [u "令和"; u "レイワ"; u "令和"; u "名詞-固有名詞"].
Proof. vm_compute; reflexivity. Qed.

Example adjust_na :
  _adjust_if_known_problem
    [u "な"; u "ナ"; u "だ"; u "助動詞"; u "特殊・ダ"; u "体言接続"]
  = [u "な"; u "ナ"; u "な"; u "助動詞"; u "特殊・ダ"; u "体言接続"].
Proof. vm_compute; reflexivity. Qed.

Example parse_mecab_output_drops_empty_tokens :
  _parse_mecab_output (Samples.sample_mecab (u "物"))
  = [ [u "物"; u "モノ"; u "物"; u "名詞-一般"]; [u "EOS"] ].
Proof. vm_compute; reflexivity. Qed.

(** ** C2: the conjugation tags of a six-column line *)

(** C2.  A line of six tokens is meant to give a MeCab interpretation with
    both the conjugated type (column 4) and the conjugated form (column 5).
    [_create_mecab_interp] builds that interpretation and then, because the
    test for five tokens is a second [if] and not an [elif], replaces it by
    one that has the conjugated type only: for every six-token line the
    conjugated form of the result is [None].  So it is for 走る as the
    tagger reports it. *)
Theorem create_mecab_interp_six_tokens_drops_conjugated_form :
  (forall t0 t1 t2 t3 t4 t5 : str,
      _create_mecab_interp [t0; t1; t2; t3; t4; t5]
      = Ok {| mecab_interp :=
                Some {| parts_of_speech := split _POS_SPLITTER t3;
                        conjugated_type := Some t4;
                        conjugated_form := None |};
              jmdict_interp_entry_id := None;
              interp_sources := [MECAB] |})
  /\ parse Samples.sample_mecab 0 (u "走る") 0
     = Ok [ {| base_form := u "走る";
               found_positions := [ {| start := 0; len := 2 |} ];
               possible_interps :=
                 [ {| mecab_interp :=
                        Some {| parts_of_speech := [u "動詞"; u "自立"];
                                conjugated_type := Some (u "五段・ラ行");
                                conjugated_form := None |};
                      jmdict_interp_entry_id := None;
                      interp_sources := [MECAB] |} ];
               article := None;
               surface_form_cache := [] |} ].
Proof.
  split.
  - intros; reflexivity.
  - vm_compute; reflexivity.
Qed.

(** ** The symbol filter (C1, C10) *)

Lemma is_symbol_spec (fli : FoundJpnLexicalItem) :
  _is_symbol fli = true <-> has_symbol_pos fli.
Proof.
  unfold _is_symbol, has_symbol_pos. rewrite existsb_exists. split.
  - intros (interp & Hin & H). destruct (mecab_interp interp) as [mi|] eqn:E;
      [|discriminate].
    apply existsb_exists in H. destruct H as (pos & Hpos & Heq).
    destruct (str_eq_dec pos _SYMBOL_PART_OF_SPEECH); [subst|discriminate].
    exists interp, mi; auto.
  - intros (interp & mi & Hin & E & Hpos). exists interp; split; [assumption|].
    rewrite E. apply existsb_exists. exists _SYMBOL_PART_OF_SPEECH.
    split; [assumption|].
    destruct (str_eq_dec _SYMBOL_PART_OF_SPEECH _SYMBOL_PART_OF_SPEECH);
      congruence.
Qed.

Lemma is_symbol_set_article a fli :
  _is_symbol (set_article a fli) = _is_symbol fli.
Proof. reflexivity. Qed.

Lemma has_symbol_pos_dec fli : has_symbol_pos fli \/ ~ has_symbol_pos fli.
Proof.
  destruct (_is_symbol fli) eqn:E.
  - left; apply is_symbol_spec; assumption.
  - right; intros H; apply is_symbol_spec in H; congruence.
Qed.

(** What [_find_lexical_items] returns, from what the tagger and the
    meta-item finder return. *)
Lemma find_lexical_items_Ok mecab jm fuel text offset art out :
  _find_lexical_items mecab jm fuel text offset art = Ok out ->
  exists base meta,
    parse mecab fuel text offset = Ok base
    /\ _find_meta_lexical_items jm (map (set_article art) base) = Ok meta
    /\ out = map (set_article art)
               (filter (fun item => negb (_is_symbol item))
                       (map (set_article art) base ++ meta)).
Proof.
  unfold _find_lexical_items; intros H.
  bind_inv H. bind_inv H. inversion H; subst. eauto.
Qed.

Lemma filtered_iff art (found : list FoundJpnLexicalItem) item :
  In item found ->
  In (set_article art item)
     (map (set_article art)
        (filter (fun item => negb (_is_symbol item)) found))
  <-> ~ has_symbol_pos item.
Proof.
  intros Hin. rewrite <- is_symbol_spec. split.
  - intros H. apply in_map_iff in H. destruct H as (item' & Heq & H).
    apply filter_In in H. destruct H as [_ H].
    rewrite <- (is_symbol_set_article art item), <- Heq,
      is_symbol_set_article.
    destruct (_is_symbol item'); [discriminate|congruence].
  - intros H. apply in_map. apply filter_In. split; [assumption|].
    destruct (_is_symbol item); [congruence|reflexivity].
Qed.

(** C1 (as amended).  In the filtering step of [_find_lexical_items], an item
    found by the tagger or by the meta-item finder is dropped if and only if
    some MeCab interpretation of it has 記号 among its parts of speech, at
    any depth; the items with no such interpretation are exactly the ones
    that are returned. *)
Theorem symbol_filter_drops_items_with_a_symbol_pos
    mecab jm fuel text offset art out
    (Hrun : _find_lexical_items mecab jm fuel text offset art = Ok out) :
  exists base meta,
    parse mecab fuel text offset = Ok base
    /\ _find_meta_lexical_items jm (map (set_article art) base) = Ok meta
    /\ forall item,
         In item (map (set_article art) base ++ meta) ->
         (~ In (set_article art item) out <-> has_symbol_pos item).
Proof.
  destruct (find_lexical_items_Ok _ _ _ _ _ _ _ Hrun)
    as (base & meta & Hb & Hm & ->).
  exists base, meta; repeat split; try assumption.
  - intros Hout. destruct (has_symbol_pos_dec item) as [|Hn]; [assumption|].
    exfalso; apply Hout. apply filtered_iff; assumption.
  - intros Hs Hout. apply filtered_iff in Hout; auto.
Qed.

Lemma symbol_filter_drops_items_with_a_symbol_pos_witness :
  exists base meta,
    parse Samples.sample_mecab 5 (u "猫。") 0 = Ok base
    /\ _find_meta_lexical_items Samples.sample_jmdict
         (map (set_article Samples.sample_article) base) = Ok meta
    /\ forall item,
         In item (map (set_article Samples.sample_article) base ++ meta) ->
         (~ In (set_article Samples.sample_article item)
              Samples.sample_neko_found
          <-> has_symbol_pos item).
Proof.
  apply (symbol_filter_drops_items_with_a_symbol_pos
           Samples.sample_mecab Samples.sample_jmdict 5 (u "猫。") 0
           Samples.sample_article Samples.sample_neko_found).
  vm_compute; reflexivity.
Defined.

(** C1 (as stated) fails, in both directions.  The meta item 食べ物 has no
    MeCab interpretation, so all of its MeCab interpretations have 記号 as
    first part of speech, and it is not dropped.  The tagger line
    [x  エックス  x  名詞-記号] gives a base item whose only MeCab
    interpretation has the first part of speech 名詞, which is not 記号, and
    the item is dropped all the same, because its second part of speech is
    記号. *)
Lemma symbol_filter_first_pos_counterexample :
  (all_morph_first_pos_symbol Samples.sample_meta_item
   /\ _find_lexical_items Samples.sample_mecab Samples.sample_jmdict 5
        (u "食べ物") 0 Samples.sample_article = Ok Samples.sample_found
   /\ In (set_article Samples.sample_article Samples.sample_meta_item)
         Samples.sample_found)
  /\ exists item,
       parse Samples.sample_mecab 5 (u "x") 0 = Ok [item]
       /\ has_non_symbol_first_pos item
       /\ _is_symbol item = true
       /\ _find_lexical_items Samples.sample_mecab Samples.sample_jmdict 5
            (u "x") 0 Samples.sample_article = Ok [].
Proof.
  split.
  - split; [|split].
    + intros interp mi [<-|[]]; discriminate.
    + vm_compute; reflexivity.
    + vm_compute. right; right; left; reflexivity.
  - eexists; split; [vm_compute; reflexivity|].
    split; [|split; vm_compute; reflexivity].
    eexists; eexists; exists (u "名詞"); simpl.
    split; [left; reflexivity|].
    split; [reflexivity|]. split; [reflexivity|].
    vm_compute; discriminate.
Qed.

(** ** C10: meta items pass the symbol filter *)

Lemma map_outcome_Forall {A B : Type} (f : A -> outcome B) (P : B -> Prop)
    l out :
  (forall a b, f a = Ok b -> P b) ->
  map_outcome f l = Ok out -> Forall P out.
Proof.
  intros Hf; revert out; induction l as [|a l IH]; simpl; intros out H.
  - inversion H; constructor.
  - bind_inv H. bind_inv H. inversion H; subst.
    constructor; eauto.
Qed.

Lemma lookup_meta_items_are_meta jm w out :
  _lookup_meta_lexical_item jm w = Ok out -> Forall is_meta_item out.
Proof.
  unfold _lookup_meta_lexical_item; intros H.
  bind_inv H. bind_inv H. bind_inv H. bind_inv H.
  assert (Hshape : forall l,
             map_outcome
               (fun entry =>
                  let sources :=
                    (if entry_in entry a then [JMDICT_MECAB_DECOMP] else [])
                    ++ (if entry_in entry a1 then [JMDICT_SURFACE_FORM]
                        else [])
                    ++ (if entry_in entry a2 then [JMDICT_BASE_FORM]
                        else []) in
                  first <- index w 0 ;;
                  first_pos <- index (found_positions first) 0 ;;
                  Ok (new_FoundJpnLexicalItem (JMdictEntry.text_form entry)
                        [ {| start := start first_pos;
                             len := length (join a0) |} ]
                        [ {| mecab_interp := None;
                             jmdict_interp_entry_id :=
                               Some (JMdictEntry.entry_id entry);
                             interp_sources := sources |} ])) l = Ok out ->
             Forall is_meta_item out).
  { intros l. apply map_outcome_Forall. intros e b Hb.
    bind_inv Hb. bind_inv Hb. inversion Hb; subst.
    unfold is_meta_item; simpl; eauto. }
  destruct a, a1, a2; try (eapply Hshape; eassumption).
  inversion H; constructor.
Qed.

Section LoopInvariant.

Context {A : Type}.
Variable jm : JMdict.
Variable visit : list FoundJpnLexicalItem -> outcome (list A).
Variable bs : list FoundJpnLexicalItem.
Variable P : A -> Prop.
Hypothesis visit_P : forall w l, visit w = Ok l -> Forall P l.

Lemma inner_while_Forall fuel start end_ acc out :
  Forall P acc ->
  inner_while jm visit bs fuel start end_ acc = Ok out -> Forall P out.
Proof.
  revert end_ acc; induction fuel as [|fuel IH]; intros end_ acc Hacc;
    simpl; destruct (end_ <? length bs); intros H;
    try discriminate; try (inversion H; subst; assumption).
  bind_inv H. destruct a; simpl in H.
  - bind_inv H. eapply IH; [|eassumption].
    apply Forall_app; split; eauto.
  - inversion H; subst; assumption.
Qed.

Lemma outer_while_Forall fuel start acc out :
  Forall P acc ->
  outer_while jm visit bs fuel start acc = Ok out -> Forall P out.
Proof.
  revert start acc; induction fuel as [|fuel IH]; intros start acc Hacc;
    simpl; destruct (start <? length bs); intros H;
    try discriminate; try (inversion H; subst; assumption).
  bind_inv H. eapply IH; [|eassumption].
  eapply inner_while_Forall; eassumption.
Qed.

End LoopInvariant.

Lemma find_meta_items_are_meta jm bs meta :
  _find_meta_lexical_items jm bs = Ok meta -> Forall is_meta_item meta.
Proof.
  unfold _find_meta_lexical_items; intros H.
  eapply outer_while_Forall; [|constructor|eassumption].
  intros w l; apply lookup_meta_items_are_meta.
Qed.

Lemma no_mecab_interp_not_symbol fli :
  (forall interp, In interp (possible_interps fli) ->
                  mecab_interp interp = None) ->
  _is_symbol fli = false.
Proof.
  intros H. destruct (_is_symbol fli) eqn:E; [|reflexivity].
  apply is_symbol_spec in E. destruct E as (interp & mi & Hin & Hmi & _).
  rewrite (H interp Hin) in Hmi; discriminate.
Qed.

Lemma meta_item_not_symbol fli : is_meta_item fli -> _is_symbol fli = false.
Proof.
  intros (eid & srcs & E). apply no_mecab_interp_not_symbol.
  rewrite E; intros interp [<-|[]]; reflexivity.
Qed.

(** C10.  An item none of whose interpretations carries a MeCab
    interpretation is not a symbol; every item the meta-item finder returns
    has a dictionary interpretation as its sole interpretation, so it is not
    a symbol, and [_find_lexical_items] returns every one of them. *)
Theorem meta_items_pass_the_symbol_filter
    mecab jm fuel text offset art base meta out
    (Hbase : parse mecab fuel text offset = Ok base)
    (Hmeta : _find_meta_lexical_items jm (map (set_article art) base)
             = Ok meta)
    (Hrun : _find_lexical_items mecab jm fuel text offset art = Ok out) :
  (forall fli,
      (forall interp, In interp (possible_interps fli) ->
                      mecab_interp interp = None) ->
      _is_symbol fli = false)
  /\ forall m, In m meta ->
       is_meta_item m
       /\ _is_symbol m = false
       /\ In (set_article art m) out.
Proof.
  split; [exact no_mecab_interp_not_symbol|].
  intros m Hm.
  pose proof (find_meta_items_are_meta _ _ _ Hmeta) as Hall.
  rewrite Forall_forall in Hall. specialize (Hall m Hm).
  split; [assumption|]. split; [apply meta_item_not_symbol; assumption|].
  destruct (find_lexical_items_Ok _ _ _ _ _ _ _ Hrun)
    as (base' & meta' & Hb & Hm' & ->).
  rewrite Hbase in Hb; inversion Hb; subst base'.
  rewrite Hmeta in Hm'; inversion Hm'; subst meta'.
  apply filtered_iff.
  - apply in_or_app; right; assumption.
  - rewrite <- is_symbol_spec, (meta_item_not_symbol _ Hall). discriminate.
Qed.

Lemma meta_items_pass_the_symbol_filter_witness :
  is_meta_item Samples.sample_meta_item
  /\ _is_symbol Samples.sample_meta_item = false
  /\ In (set_article Samples.sample_article Samples.sample_meta_item)
        Samples.sample_found.
Proof.
  refine (proj2 (meta_items_pass_the_symbol_filter
                   Samples.sample_mecab Samples.sample_jmdict 5 (u "食べ物")
                   0 Samples.sample_article Samples.sample_parsed
                   Samples.sample_meta_items Samples.sample_found _ _ _)
                Samples.sample_meta_item _).
  - vm_compute; reflexivity.
  - vm_compute; reflexivity.
  - vm_compute; reflexivity.
  - vm_compute; left; reflexivity.
Defined.

(** ** The alignment loop of [parse] *)

Lemma matches_at_dec text tok p :
  {matches_at text tok p} + {~ matches_at text tok p}.
Proof. unfold matches_at; apply str_eq_dec. Qed.

Lemma align_unfold fuel text tok offset :
  align fuel text tok offset
  = if str_eq_dec (slice text offset (offset + length tok)) tok
    then Ok offset
    else match fuel with
         | 0 => OutOfFuel
         | S fuel' => align fuel' text tok (offset + 1)
         end.
Proof. destruct fuel; reflexivity. Qed.

(** The loop only ever stops at the first match. *)
Lemma align_sound fuel text tok offset p :
  align fuel text tok offset = Ok p -> first_match_from text tok offset p.
Proof.
  revert offset; induction fuel as [|fuel IH]; intros offset;
    rewrite align_unfold;
    destruct (str_eq_dec (slice text offset (offset + length tok)) tok)
      as [E|E]; intros H; try discriminate.
  - inversion H; subst. repeat split; [lia|exact E|intros; lia].
  - inversion H; subst. repeat split; [lia|exact E|intros; lia].
  - destruct (IH _ H) as (Hle & Hm & Hfirst).
    repeat split; [lia|exact Hm|].
    intros q Hq. destruct (Nat.eq_dec q offset) as [->|Hne]; [exact E|].
    apply Hfirst; lia.
Qed.

(** It stops there when it is given the steps to reach it. *)
Lemma align_complete fuel text tok offset p :
  first_match_from text tok offset p -> p - offset <= fuel ->
  align fuel text tok offset = Ok p.
Proof.
  revert offset; induction fuel as [|fuel IH]; intros offset
    (Hle & Hm & Hfirst) Hfuel; rewrite align_unfold;
    destruct (str_eq_dec (slice text offset (offset + length tok)) tok)
      as [E|E].
  - destruct (Nat.eq_dec p offset) as [->|Hne]; [reflexivity|].
    exfalso; apply (Hfirst offset); [lia|exact E].
  - exfalso; apply E. replace offset with p by lia. exact Hm.
  - destruct (Nat.eq_dec p offset) as [->|Hne]; [reflexivity|].
    exfalso; apply (Hfirst offset); [lia|exact E].
  - destruct (Nat.eq_dec p offset) as [->|Hne]; [contradiction|].
    apply IH; [|lia].
    repeat split; [lia|exact Hm|intros; apply Hfirst; lia].
Qed.

(** Without a match ahead, the loop does not stop, whatever the number of
    steps it is given. *)
Lemma align_diverges text tok offset :
  (forall q, offset <= q -> ~ matches_at text tok q) ->
  forall fuel, align fuel text tok offset = OutOfFuel.
Proof.
  intros Hno fuel; revert offset Hno; induction fuel as [|fuel IH];
    intros offset Hno; rewrite align_unfold;
    destruct (str_eq_dec (slice text offset (offset + length tok)) tok)
      as [E|E]; try reflexivity;
    try (exfalso; apply (Hno offset); [lia|exact E]).
  apply IH. intros q Hq; apply Hno; lia.
Qed.

Lemma align_never_raises fuel text tok offset e :
  align fuel text tok offset <> Raise e.
Proof.
  revert offset; induction fuel as [|fuel IH]; intros offset;
    rewrite align_unfold;
    destruct (str_eq_dec (slice text offset (offset + length tok)) tok);
    try discriminate. apply IH.
Qed.

Lemma slice_length {A : Type} (s : list A) i j :
  length (slice s i j) = Nat.min (j - i) (length s - i).
Proof. unfold slice. rewrite length_firstn, length_skipn. reflexivity. Qed.

(** A match of a non-empty token starts inside the text. *)
Lemma matches_at_bound text tok p :
  matches_at text tok p -> tok <> [] -> p < length text.
Proof.
  unfold matches_at; intros H Hne.
  apply (f_equal (@length _)) in H. rewrite slice_length in H.
  destruct tok as [|c tok]; [congruence|]. simpl in H. lia.
Qed.

Lemma matches_at_empty text p : matches_at text [] p.
Proof.
  unfold matches_at, slice; simpl.
  replace (p + 0 - p) with 0 by lia. reflexivity.
Qed.

(** Some match at or after the cursor gives a first one. *)
Lemma first_match_exists text tok cursor q :
  cursor <= q -> matches_at text tok q ->
  exists p, p <= q /\ first_match_from text tok cursor p.
Proof.
  intros Hle Hm.
  remember (q - cursor) as d eqn:Hd. revert cursor Hle Hd.
  induction d as [|d IH]; intros cursor Hle Hd.
  - exists cursor. replace q with cursor in * by lia.
    repeat split; try lia; exact Hm.
  - destruct (matches_at_dec text tok cursor) as [Hc|Hc].
    + exists cursor. repeat split; try lia; exact Hc.
    + destruct (IH (S cursor)) as (p & Hp & Hle' & Hm' & Hfirst); try lia.
      exists p. repeat split; try lia; [exact Hm'|].
      intros r Hr. destruct (Nat.eq_dec r cursor) as [->|]; [exact Hc|].
      apply Hfirst; lia.
Qed.

Lemma find_from_Some text tok cursor p :
  find_from text tok cursor = Some p <-> first_match_from text tok cursor p.
Proof.
  unfold find_from. split.
  - destruct (align (length text - cursor) text tok cursor) eqn:E;
      intros H; inversion H; subst. eapply align_sound; eassumption.
  - intros H. rewrite (align_complete _ _ _ _ p); [reflexivity|exact H|].
    destruct H as (Hle & Hm & Hfirst).
    destruct tok as [|c tok].
    + destruct (Nat.eq_dec p cursor) as [->|]; [lia|].
      exfalso; apply (Hfirst cursor); [lia|apply matches_at_empty].
    + assert (p < length text)
        by (eapply matches_at_bound; [eassumption|discriminate]). lia.
Qed.

Lemma find_from_None text tok cursor :
  find_from text tok cursor = None <->
  forall q, cursor <= q -> ~ matches_at text tok q.
Proof.
  split.
  - intros Hnone q Hq Hm.
    destruct (first_match_exists _ _ _ _ Hq Hm) as (p & _ & Hp).
    apply find_from_Some in Hp. congruence.
  - intros Hno. destruct (find_from text tok cursor) as [p|] eqn:E;
      [|reflexivity].
    apply find_from_Some in E. destruct E as (Hle & Hm & _).
    exfalso; eapply Hno; eassumption.
Qed.

(** The bound of the search is enough for the loop itself. *)
Lemma find_from_align text tok cursor p fuel :
  find_from text tok cursor = Some p -> length text <= fuel ->
  align fuel text tok cursor = Ok p.
Proof.
  intros H Hfuel. pose proof H as H'. apply find_from_Some in H.
  apply align_complete; [exact H|].
  destruct H as (Hle & Hm & Hfirst). destruct tok as [|c tok].
  - destruct (Nat.eq_dec p cursor) as [->|]; [lia|].
    exfalso; apply (Hfirst cursor); [lia|apply matches_at_empty].
  - assert (p < length text)
      by (eapply matches_at_bound; [eassumption|discriminate]). lia.
Qed.

(** ** The token loop of [parse] *)

Lemma accepted_count_cases tags :
  accepted_count tags = true ->
  length tags = 4 \/ length tags = 5 \/ length tags = 6.
Proof.
  unfold accepted_count, _EXPECTED_TOKEN_TAG_COUNTS; simpl.
  rewrite !orb_true_iff, !Nat.eqb_eq. intuition discriminate.
Qed.

(** Destructs a token list of known length into its tokens. *)
Ltac explode_tags tags H :=
  repeat (destruct tags as [|? tags]; simpl in H; try discriminate H;
          try lia).

(** [parse] makes an item of every line with an accepted token count: base
    form from column 2, one position of the length of column 0, and one
    MeCab interpretation. *)
Lemma item_of_line_accepted tags offset :
  accepted_count tags = true ->
  exists fli mi,
    item_of_line tags offset = Ok fli
    /\ base_form fli = nth 2 tags []
    /\ found_positions fli
       = [ {| start := offset; len := length (nth 0 tags []) |} ]
    /\ possible_interps fli
       = [ {| mecab_interp := Some mi;
              jmdict_interp_entry_id := None;
              interp_sources := [MECAB] |} ].
Proof.
  intros H. apply accepted_count_cases in H.
  destruct H as [H|[H|H]]; explode_tags tags H;
    unfold item_of_line, _create_found_lexical_item, cache_surface_form;
    simpl;
    match goal with
    | |- context [str_eq_dec ?a ?b] => destruct (str_eq_dec a b)
    end; simpl; eexists; eexists; repeat split; reflexivity.
Qed.

Lemma index_0_accepted tags :
  accepted_count tags = true -> index tags 0 = Ok (nth 0 tags []).
Proof.
  intros H. apply accepted_count_cases in H.
  destruct tags; simpl in H; [lia|reflexivity].
Qed.

Lemma parse_loop_unfold fuel text text_offset tags rest cursor acc :
  parse_loop fuel text text_offset (tags :: rest) cursor acc
  = if is_eos tags then parse_loop fuel text text_offset rest cursor acc
    else if negb (accepted_count tags) then Raise TextAnalysisError
    else
      tok <- index tags 0 ;;
      p <- align fuel text tok cursor ;;
      fli <- item_of_line tags (text_offset + p) ;;
      parse_loop fuel text text_offset rest (p + length tok) (acc ++ [fli]).
Proof.
  simpl. unfold is_eos, accepted_count, item_of_line.
  destruct ((length tags =? 1) && _); [reflexivity|].
  destruct (negb _); [reflexivity|].
  destruct (index tags 0); simpl; try reflexivity.
  destruct (align fuel text a cursor); simpl; try reflexivity.
  destruct (_create_mecab_interp tags); reflexivity.
Qed.

Lemma parse_loop_eos fuel text text_offset tags rest cursor acc :
  is_eos tags = true ->
  parse_loop fuel text text_offset (tags :: rest) cursor acc
  = parse_loop fuel text text_offset rest cursor acc.
Proof. intros H; rewrite parse_loop_unfold, H; reflexivity. Qed.

Lemma parse_loop_bad_count fuel text text_offset tags rest cursor acc :
  is_eos tags = false -> accepted_count tags = false ->
  parse_loop fuel text text_offset (tags :: rest) cursor acc
  = Raise TextAnalysisError.
Proof. intros H1 H2; rewrite parse_loop_unfold, H1, H2; reflexivity. Qed.

Lemma parse_loop_accept fuel text text_offset tags rest cursor acc p :
  is_eos tags = false -> accepted_count tags = true ->
  align fuel text (nth 0 tags []) cursor = Ok p ->
  exists fli,
    item_of_line tags (text_offset + p) = Ok fli
    /\ parse_loop fuel text text_offset (tags :: rest) cursor acc
       = parse_loop fuel text text_offset rest
           (p + length (nth 0 tags [])) (acc ++ [fli]).
Proof.
  intros H1 H2 Ha.
  destruct (item_of_line_accepted tags (text_offset + p) H2)
    as (fli & mi & Hfli & _).
  exists fli; split; [assumption|].
  rewrite parse_loop_unfold, H1, H2, (index_0_accepted _ H2); simpl.
  rewrite Ha; simpl. rewrite Hfli; reflexivity.
Qed.

(** A line whose surface form is not ahead of the cursor stops [parse] for
    good: it neither returns nor raises, however many steps the loop is
    given. *)
Lemma parse_loop_alignment_failure fuel text text_offset tags rest cursor acc :
  is_eos tags = false -> accepted_count tags = true ->
  (forall q, cursor <= q -> ~ matches_at text (nth 0 tags []) q) ->
  parse_loop fuel text text_offset (tags :: rest) cursor acc = OutOfFuel.
Proof.
  intros H1 H2 Hno.
  rewrite parse_loop_unfold, H1, H2, (index_0_accepted _ H2); simpl.
  rewrite (align_diverges _ _ _ Hno). reflexivity.
Qed.

(** The run of the loop over lines that are all well formed and all found
    in the text: one item per line that is not the marker, in order. *)
Lemma parse_loop_total fuel text text_offset toks :
  length text <= fuel ->
  Forall well_formed_line toks ->
  forall cursor acc,
    cursor_after text toks cursor <> None ->
    exists flis,
      parse_loop fuel text text_offset toks cursor acc = Ok (acc ++ flis)
      /\ Forall2
           (fun tags fli =>
              exists p, item_of_line tags (text_offset + p) = Ok fli)
           (token_lines toks) flis.
Proof.
  intros Hfuel Hwf; induction Hwf as [|tags rest Htags _ IH];
    intros cursor acc Hcur.
  - exists []; simpl; rewrite app_nil_r; split; [reflexivity|constructor].
  - simpl in Hcur. destruct (is_eos tags) eqn:Eeos.
    + rewrite parse_loop_eos by assumption.
      unfold token_lines; simpl; rewrite Eeos; simpl.
      apply IH; assumption.
    + destruct Htags as [Htags|Htags]; [congruence|].
      destruct (find_from text (nth 0 tags []) cursor) as [p|] eqn:Ef;
        [|congruence].
      destruct (parse_loop_accept fuel text text_offset tags rest cursor acc
                  p Eeos Htags (find_from_align _ _ _ _ _ Ef Hfuel))
        as (fli & Hfli & ->).
      destruct (IH (p + length (nth 0 tags [])) (acc ++ [fli]) Hcur)
        as (flis & -> & Hall).
      exists (fli :: flis); rewrite <- app_assoc; split; [reflexivity|].
      unfold token_lines; simpl; rewrite Eeos; simpl.
      constructor; [exists p; assumption|assumption].
Qed.

(** The run up to the first line with a wrong token count. *)
Lemma parse_loop_raises fuel text text_offset pre bad post :
  length text <= fuel ->
  Forall well_formed_line pre ->
  is_eos bad = false -> accepted_count bad = false ->
  forall cursor acc,
    cursor_after text pre cursor <> None ->
    parse_loop fuel text text_offset (pre ++ bad :: post) cursor acc
    = Raise TextAnalysisError.
Proof.
  intros Hfuel Hwf Hb1 Hb2; induction Hwf as [|tags rest Htags _ IH];
    intros cursor acc Hcur; simpl app.
  - apply parse_loop_bad_count; assumption.
  - simpl in Hcur. destruct (is_eos tags) eqn:Eeos.
    + rewrite parse_loop_eos by assumption. apply IH; assumption.
    + destruct Htags as [Htags|Htags]; [congruence|].
      destruct (find_from text (nth 0 tags []) cursor) as [p|] eqn:Ef;
        [|congruence].
      destruct (parse_loop_accept fuel text text_offset tags
                  (rest ++ bad :: post) cursor acc
                  p Eeos Htags (find_from_align _ _ _ _ _ Ef Hfuel))
        as (fli & Hfli & ->).
      apply IH; assumption.
Qed.

(** The loop returns only when every line is well formed. *)
Lemma parse_loop_Ok_well_formed fuel text text_offset toks cursor acc out :
  parse_loop fuel text text_offset toks cursor acc = Ok out ->
  Forall well_formed_line toks.
Proof.
  revert cursor acc; induction toks as [|tags toks IH]; intros cursor acc H.
  - constructor.
  - rewrite parse_loop_unfold in H. unfold well_formed_line.
    destruct (is_eos tags) eqn:E1.
    + constructor; [left; assumption|eapply IH; eassumption].
    + destruct (accepted_count tags) eqn:E2; [|discriminate].
      cbn [negb] in H. bind_inv H. bind_inv H. bind_inv H.
      constructor; [right; assumption|eapply IH; eassumption].
Qed.

(** The loop raises only at a line with a wrong token count, and then it
    raises [TextAnalysisError]. *)
Lemma parse_loop_Raise fuel text text_offset toks cursor acc e :
  parse_loop fuel text text_offset toks cursor acc = Raise e ->
  e = TextAnalysisError
  /\ exists pre bad post,
      toks = pre ++ bad :: post
      /\ Forall well_formed_line pre
      /\ is_eos bad = false /\ accepted_count bad = false.
Proof.
  revert cursor acc; induction toks as [|tags toks IH]; intros cursor acc H.
  - discriminate.
  - rewrite parse_loop_unfold in H.
    assert (Hrec : forall c a,
               parse_loop fuel text text_offset toks c a = Raise e ->
               well_formed_line tags ->
               e = TextAnalysisError
               /\ exists pre bad post,
                   tags :: toks = pre ++ bad :: post
                   /\ Forall well_formed_line pre
                   /\ is_eos bad = false /\ accepted_count bad = false).
    { intros c a Hr Hwf.
      destruct (IH _ _ Hr) as (-> & pre & bad & post & -> & Hpre & Hb).
      split; [reflexivity|]. exists (tags :: pre), bad, post.
      split; [reflexivity|]. split; [constructor; assumption|exact Hb]. }
    destruct (is_eos tags) eqn:E1.
    + eapply Hrec; [eassumption|left; assumption].
    + destruct (accepted_count tags) eqn:E2; cbn [negb] in H.
      * rewrite (index_0_accepted _ E2) in H; cbn [bind] in H.
        destruct (align fuel text (nth 0 tags []) cursor) as [p| |] eqn:Ea;
          cbn [bind] in H; try discriminate.
        -- destruct (item_of_line_accepted tags (text_offset + p) E2)
             as (fli & mi & Hfli & _).
           rewrite Hfli in H; cbn [bind] in H.
           eapply Hrec; [eassumption|right; assumption].
        -- exfalso; eapply align_never_raises; eassumption.
      * inversion H; subst. split; [reflexivity|].
        exists [], tags, toks. repeat split; try assumption. constructor.
Qed.

(** ** C3, C6, C7: [MecabTagger.parse] *)

(** C3.  When the surface form of a token does not occur at or after the
    cursor, [parse] is meant to fail with a [TextAnalysisError].  It does
    not: for the text [ab], which the tagger splits into the tokens [a] and
    [c], the token [c] is nowhere in the text, and whatever the number of
    steps the alignment loop is given, [parse] neither returns nor
    raises. *)
Theorem parse_never_ends_on_alignment_failure :
  map (fun tags => nth 0 tags [])
      (_parse_mecab_output (Samples.sample_mecab (u "ab")))
  = [u "a"; u "c"; u "EOS"]
  /\ (forall q, ~ matches_at (u "ab") (u "c") q)
  /\ forall fuel, parse Samples.sample_mecab fuel (u "ab") 0 = OutOfFuel.
Proof.
  assert (Hno : forall q, ~ matches_at (u "ab") (u "c") q).
  { intros q Hm.
    assert (Hq : q < 2)
      by (apply (matches_at_bound _ _ _ Hm); discriminate).
    destruct q as [|[|q]]; [vm_compute in Hm; discriminate..|lia]. }
  split; [vm_compute; reflexivity|]. split; [exact Hno|].
  intros fuel. unfold parse.
  assert (E : _parse_mecab_output (Samples.sample_mecab (u "ab"))
              = [ [u "a"; u "エー"; u "a"; u "名詞-一般"];
                  [u "c"; u "シー"; u "c"; u "名詞-一般"];
                  [u "EOS"] ])
    by (vm_compute; reflexivity).
  rewrite E.
  assert (Ha : align fuel (u "ab") (u "a") 0 = Ok 0).
  { apply align_complete; [|lia].
    repeat split; [vm_compute; reflexivity|intros; lia]. }
  destruct (parse_loop_accept fuel (u "ab") 0
              [u "a"; u "エー"; u "a"; u "名詞-一般"]
              [ [u "c"; u "シー"; u "c"; u "名詞-一般"]; [u "EOS"] ]
              0 [] 0 eq_refl eq_refl Ha) as (fli & _ & ->).
  apply parse_loop_alignment_failure; [reflexivity|reflexivity|].
  intros q _; apply Hno.
Qed.

(** C6.  For a line with an accepted token count, [parse] moves its cursor
    to the first position [p] at or after the cursor where the text reads
    the surface form (column 0), records the position
    [(text_offset + p, len(column 0))], counted in code points, and goes on
    with the cursor at [p + len(column 0)].  For the text 猫 が 走る at
    offset 0 the three base items start at 0, 2 and 4. *)
Theorem parse_records_the_first_match
    fuel text text_offset tags rest cursor acc p
    (Hline : is_eos tags = false)
    (Hcount : accepted_count tags = true)
    (Hfirst : first_match_from text (nth 0 tags []) cursor p)
    (Hfuel : p - cursor <= fuel) :
  (exists fli,
      found_positions fli
      = [ {| start := text_offset + p; len := length (nth 0 tags []) |} ]
      /\ parse_loop fuel text text_offset (tags :: rest) cursor acc
         = parse_loop fuel text text_offset rest
             (p + length (nth 0 tags [])) (acc ++ [fli]))
  /\ match parse Samples.sample_mecab 6 (u "猫 が 走る") 0 with
     | Ok flis => map found_positions flis
     | _ => []
     end
     = [ [ {| start := 0; len := 1 |} ];
         [ {| start := 2; len := 1 |} ];
         [ {| start := 4; len := 2 |} ] ].
Proof.
  split; [|vm_compute; reflexivity].
  destruct (parse_loop_accept fuel text text_offset tags rest cursor acc p
              Hline Hcount (align_complete _ _ _ _ _ Hfirst Hfuel))
    as (fli & Hfli & Hloop).
  exists fli; split; [|exact Hloop].
  destruct (item_of_line_accepted tags (text_offset + p) Hcount)
    as (fli' & mi & Hfli' & _ & Hpos & _).
  congruence.
Qed.

Lemma parse_records_the_first_match_witness :
  (exists fli,
      found_positions fli = [ {| start := 7 + 2; len := 1 |} ]
      /\ parse_loop 1 (u "猫 が 走る") 7
           [ [u "が"; u "ガ"; u "が"; u "助詞-格助詞-一般"] ] 1 []
         = parse_loop 1 (u "猫 が 走る") 7 [] (2 + 1) ([] ++ [fli]))
  /\ match parse Samples.sample_mecab 6 (u "猫 が 走る") 0 with
     | Ok flis => map found_positions flis
     | _ => []
     end
     = [ [ {| start := 0; len := 1 |} ];
         [ {| start := 2; len := 1 |} ];
         [ {| start := 4; len := 2 |} ] ].
Proof.
  apply (parse_records_the_first_match 1 (u "猫 が 走る") 7
           [u "が"; u "ガ"; u "が"; u "助詞-格助詞-一般"] [] 1 [] 2).
  - reflexivity.
  - reflexivity.
  - split; [lia|]. split; [vm_compute; reflexivity|].
    intros q Hq. assert (q = 1) by lia; subst q.
    vm_compute; discriminate.
  - simpl; lia.
Defined.

(** The token counts where the lines are found.  Let the lines of the
    tagger output before some line all be found in the text.  If every
    line that is not empty and not the marker has four, five or six
    tokens, [parse] returns, with exactly one item per such line, in
    order; if the first line with another token count is [bad], [parse]
    raises [TextAnalysisError], and returns no item at all.  Whatever the
    text, [parse] returns only when every line has an accepted token
    count, and it raises nothing but [TextAnalysisError], and only at a
    line with another token count. *)
Lemma parse_token_count_contract mecab fuel text text_offset
    (Hfuel : length text <= fuel) :
  (Forall well_formed_line (_parse_mecab_output (mecab text)) ->
   cursor_after text (_parse_mecab_output (mecab text)) 0 <> None ->
   exists flis,
     parse mecab fuel text text_offset = Ok flis
     /\ Forall2
          (fun tags fli =>
             exists p, item_of_line tags (text_offset + p) = Ok fli)
          (token_lines (_parse_mecab_output (mecab text))) flis)
  /\ (forall pre bad post,
         _parse_mecab_output (mecab text) = pre ++ bad :: post ->
         Forall well_formed_line pre ->
         cursor_after text pre 0 <> None ->
         is_eos bad = false -> accepted_count bad = false ->
         parse mecab fuel text text_offset = Raise TextAnalysisError)
  /\ (forall flis,
         parse mecab fuel text text_offset = Ok flis ->
         Forall well_formed_line (_parse_mecab_output (mecab text)))
  /\ (forall e,
         parse mecab fuel text text_offset = Raise e ->
         e = TextAnalysisError
         /\ exists pre bad post,
             _parse_mecab_output (mecab text) = pre ++ bad :: post
             /\ Forall well_formed_line pre
             /\ is_eos bad = false /\ accepted_count bad = false).
Proof.
  split; [|split; [|split]].
  - intros Hwf Hcur.
    exact (parse_loop_total fuel text text_offset _ Hfuel Hwf 0 [] Hcur).
  - intros pre bad post E Hwf Hcur Hb1 Hb2. unfold parse; rewrite E.
    apply parse_loop_raises; assumption.
  - intros flis H. eapply parse_loop_Ok_well_formed; exact H.
  - intros e H. eapply parse_loop_Raise; exact H.
Qed.

Lemma parse_token_count_contract_witness :
  (exists flis,
      parse Samples.sample_mecab 6 (u "猫 が 走る") 0 = Ok flis
      /\ Forall2
           (fun tags fli => exists p, item_of_line tags (0 + p) = Ok fli)
           (token_lines
              (_parse_mecab_output (Samples.sample_mecab (u "猫 が 走る"))))
           flis)
  /\ parse Samples.sample_mecab 1 (u "犬") 0 = Raise TextAnalysisError.
Proof.
  split.
  - apply (proj1 (parse_token_count_contract Samples.sample_mecab 6
                    (u "猫 が 走る") 0 (le_n 6))).
    + vm_compute.
      repeat (constructor;
              [(left; reflexivity) || (right; reflexivity)|]).
      constructor.
    + vm_compute; discriminate.
  - apply (proj1 (proj2 (parse_token_count_contract Samples.sample_mecab 1
                           (u "犬") 0 (le_n 1)))
             [] [u "犬"; u "イヌ"; u "犬"] [[u "EOS"]]).
    + vm_compute; reflexivity.
    + constructor.
    + discriminate.
    + reflexivity.
    + reflexivity.
Defined.

(** C7.  A line of the tagger output that is not the marker and has a
    token count other than four, five or six is meant to make [parse]
    raise [TextAnalysisError] for the whole text.  It does when the lines
    before it are found in the text ([parse_token_count_contract]), and
    not otherwise: for the text [ab], with the lines [a] and [c] of four
    tokens and then a line of three tokens, the alignment loop never
    leaves the line [c], which is nowhere in the text, so the line of
    three tokens is never counted; whatever the number of steps the loop
    is given, [parse] neither raises nor returns. *)
Theorem parse_wrong_token_count_behind_a_lost_line_is_not_reported :
  map (@length str) (_parse_mecab_output (CountFixtures.mecab (u "ab")))
  = [4; 4; 3; 1]
  /\ (let bad := nth 2 (_parse_mecab_output (CountFixtures.mecab (u "ab"))) []
      in is_eos bad = false /\ accepted_count bad = false)
  /\ (forall q, ~ matches_at (u "ab") (u "c") q)
  /\ forall fuel,
       parse CountFixtures.mecab fuel (u "ab") 0 = OutOfFuel
       /\ parse CountFixtures.mecab fuel (u "ab") 0
          <> Raise TextAnalysisError.
Proof.
  assert (Hno : forall q, ~ matches_at (u "ab") (u "c") q).
  { intros q Hm.
    assert (Hq : q < 2)
      by (apply (matches_at_bound _ _ _ Hm); discriminate).
    destruct q as [|[|q]]; [vm_compute in Hm; discriminate..|lia]. }
  split; [vm_compute; reflexivity|].
  split; [split; vm_compute; reflexivity|]. split; [exact Hno|].
  intros fuel.
  assert (Hstuck : parse CountFixtures.mecab fuel (u "ab") 0 = OutOfFuel).
  { unfold parse.
    assert (E : _parse_mecab_output (CountFixtures.mecab (u "ab"))
                = [ [u "a"; u "エー"; u "a"; u "名詞-一般"];
                    [u "c"; u "シー"; u "c"; u "名詞-一般"];
                    [u "b"; u "ビー"; u "b"];
                    [u "EOS"] ])
      by (vm_compute; reflexivity).
    rewrite E.
    assert (Ha : align fuel (u "ab") (u "a") 0 = Ok 0).
    { apply align_complete; [|lia].
      repeat split; [vm_compute; reflexivity|intros; lia]. }
    destruct (parse_loop_accept fuel (u "ab") 0
                [u "a"; u "エー"; u "a"; u "名詞-一般"]
                [ [u "c"; u "シー"; u "c"; u "名詞-一般"];
                  [u "b"; u "ビー"; u "b"]; [u "EOS"] ]
                0 [] 0 eq_refl eq_refl Ha) as (fli & _ & ->).
    apply parse_loop_alignment_failure; [reflexivity|reflexivity|].
    intros q _; apply Hno. }
  split; [exact Hstuck|]. rewrite Hstuck. discriminate.
Qed.

(** ** The meta-item finder (C4, C5) *)

Lemma In_slice {A : Type} (s : list A) i j x : In x (slice s i j) -> In x s.
Proof.
  unfold slice; intros H.
  rewrite <- (firstn_skipn i s). apply in_or_app; right.
  rewrite <- (firstn_skipn (j - i) (skipn i s)). apply in_or_app; left.
  exact H.
Qed.

Lemma Forall_slice {A : Type} (P : A -> Prop) (s : list A) i j :
  Forall P s -> Forall P (slice s i j).
Proof.
  rewrite !Forall_forall; intros H x Hx. eapply H, In_slice; eassumption.
Qed.

Lemma get_first_surface_form_Ok fli :
  has_position fli ->
  get_first_surface_form fli = Ok (first_surface_form fli).
Proof.
  unfold has_position, first_surface_form, get_first_surface_form.
  destruct (found_positions fli) as [|p ps]; [congruence|]; intros _; simpl.
  destruct (cache_lookup p (surface_form_cache fli)); reflexivity.
Qed.

Lemma surface_forms_Ok w :
  Forall has_position w ->
  map_outcome get_first_surface_form w = Ok (map first_surface_form w).
Proof.
  intros H. apply map_outcome_pure. rewrite Forall_forall in H.
  intros b Hb. apply get_first_surface_form_Ok, H, Hb.
Qed.

(** [_within_jmdict_max_entry_len] computes the length bound of the
    specification. *)
Lemma within_jmdict_max_entry_len_spec jm em dm max_text max_decomp w :
  loaded jm em dm max_text max_decomp ->
  Forall has_position w ->
  _within_jmdict_max_entry_len jm w
  = Ok (within_bound max_text max_decomp w).
Proof.
  intros -> Hpos. unfold _within_jmdict_max_entry_len, within_bound; simpl.
  destruct (length w <=? max_decomp); [reflexivity|]; simpl.
  destruct (sum (map (fun b => length (base_form b)) w) <=? max_text);
    [reflexivity|]; simpl.
  rewrite (surface_forms_Ok _ Hpos); simpl. rewrite map_map.
  destruct (sum (map (fun b => length (first_surface_form b)) w)
            <=? max_text); reflexivity.
Qed.

(** The loops of the finder, for a body [visit] that returns on every
    window within the bound: they visit the windows of [windows_from], for
    every start in turn, and no other. *)
Section LoopSpec.

Context {A : Type}.
Variable jm : JMdict.
Variable visit : list FoundJpnLexicalItem -> outcome (list A).
Variable bs : list FoundJpnLexicalItem.
Variable wb : list FoundJpnLexicalItem -> bool.
Variable v : list FoundJpnLexicalItem -> list A.

Hypothesis within_wb : forall i j,
    i < j < length bs ->
    _within_jmdict_max_entry_len jm (slice bs i (j + 1))
    = Ok (wb (slice bs i (j + 1))).

Hypothesis visit_v : forall i j,
    i < j < length bs -> wb (slice bs i (j + 1)) = true ->
    visit (slice bs i (j + 1)) = Ok (v (slice bs i (j + 1))).

Lemma inner_while_spec fuel i j acc :
  i < j -> length bs - j <= fuel ->
  inner_while jm visit bs fuel i j acc
  = Ok (acc ++ flat_map v
          (map (fun j => slice bs i (j + 1))
             (take_while (fun j => wb (slice bs i (j + 1)))
                (seq j (length bs - j))))).
Proof.
  revert j acc; induction fuel as [|fuel IH]; intros j acc Hij Hfuel;
    simpl; destruct (Nat.ltb_spec j (length bs)) as [Hj|Hj].
  - lia.
  - replace (length bs - j) with 0 by lia; simpl.
    rewrite app_nil_r; reflexivity.
  - replace (length bs - j) with (S (length bs - (j + 1))) by lia.
    rewrite within_wb by lia. simpl.
    destruct (wb (slice bs i (j + 1))) eqn:E; simpl.
    + rewrite visit_v by (assumption || lia). simpl.
      rewrite IH by lia. rewrite <- app_assoc.
      replace (S j) with (j + 1) by lia. reflexivity.
    + rewrite app_nil_r; reflexivity.
  - replace (length bs - j) with 0 by lia; simpl.
    rewrite app_nil_r; reflexivity.
Qed.

Lemma outer_while_spec fuel i acc :
  length bs - i <= fuel ->
  outer_while jm visit bs fuel i acc
  = Ok (acc ++ flat_map
          (fun i =>
             flat_map v
               (map (fun j => slice bs i (j + 1))
                  (take_while (fun j => wb (slice bs i (j + 1)))
                     (seq (i + 1) (length bs - (i + 1))))))
          (seq i (length bs - i))).
Proof.
  revert i acc; induction fuel as [|fuel IH]; intros i acc Hfuel;
    simpl; destruct (Nat.ltb_spec i (length bs)) as [Hi|Hi].
  - lia.
  - replace (length bs - i) with 0 by lia; simpl.
    rewrite app_nil_r; reflexivity.
  - replace (length bs - i) with (S (length bs - (i + 1))) by lia.
    rewrite inner_while_spec by lia. simpl.
    rewrite IH by lia. rewrite <- app_assoc.
    replace (S i) with (i + 1) by lia. reflexivity.
  - replace (length bs - i) with 0 by lia; simpl.
    rewrite app_nil_r; reflexivity.
Qed.

End LoopSpec.

Lemma sum_list_sum l : sum l = list_sum l.
Proof.
  unfold sum. assert (H : forall a, fold_left Nat.add l a = a + list_sum l).
  { induction l as [|x l IH]; intros a; simpl; [lia|]. rewrite IH; lia. }
  apply H.
Qed.

Lemma length_join parts :
  length (join parts) = sum (map (@length codepoint) parts).
Proof. unfold join. rewrite sum_list_sum. apply length_concat. Qed.

Lemma filter_filter {A : Type} (f g : A -> bool) l :
  filter f (filter g l) = filter (fun x => f x && g x) l.
Proof.
  induction l as [|x l IH]; cbn [filter]; [reflexivity|].
  destruct (g x); cbn [filter]; rewrite ?andb_true_r, ?andb_false_r;
    [destruct (f x)|]; rewrite IH; reflexivity.
Qed.

(** [utils.unique], as modelled: no item twice, the items of the list and
    no other, and each at the place of its first occurrence. *)
Section Unique.

Context {A : Type}.
Variable eq_dec : forall a b : A, {a = b} + {a <> b}.

Lemma unique_fold_In l seen x :
  In x (fold_left (Utils.unique_step eq_dec) l seen) <-> In x seen \/ In x l.
Proof.
  revert seen; induction l as [|y l IH]; intros seen; cbn [fold_left].
  - simpl; tauto.
  - rewrite IH. unfold Utils.unique_step.
    destruct (in_dec eq_dec y seen) as [Hy|Hy]; cbn [In].
    + split; [tauto|]. intros [H|[->|H]]; tauto.
    + rewrite in_app_iff; cbn [In]. tauto.
Qed.

Lemma unique_fold_NoDup l seen :
  NoDup seen -> NoDup (fold_left (Utils.unique_step eq_dec) l seen).
Proof.
  revert seen; induction l as [|y l IH]; intros seen Hs; cbn [fold_left];
    [assumption|].
  apply IH. unfold Utils.unique_step.
  destruct (in_dec eq_dec y seen) as [Hy|Hy]; [assumption|].
  apply NoDup_app; [assumption|repeat constructor; intros []|].
  intros a Ha [<-|[]]; contradiction.
Qed.

Lemma unique_step_nil x : Utils.unique_step eq_dec [] x = [x].
Proof.
  unfold Utils.unique_step. destruct (in_dec eq_dec x []) as [[]|];
    reflexivity.
Qed.

Lemma not_in_single_iff (x y : A) :
  (if in_dec eq_dec y [x] then false else true)
  = (if eq_dec y x then false else true).
Proof.
  destruct (in_dec eq_dec y [x]) as [[E'|[]]|Hy];
    destruct (eq_dec y x) as [E|E]; try reflexivity; try congruence.
  exfalso; apply Hy; left; congruence.
Qed.

Lemma unique_fold_seen l seen :
  fold_left (Utils.unique_step eq_dec) l seen
  = seen ++ filter (fun y => if in_dec eq_dec y seen then false else true)
              (fold_left (Utils.unique_step eq_dec) l []).
Proof.
  revert seen; induction l as [|x l IH]; intros seen; cbn [fold_left].
  - cbn [filter]. rewrite app_nil_r; reflexivity.
  - rewrite (IH (Utils.unique_step eq_dec seen x)), unique_step_nil, (IH [x]).
    rewrite filter_app, filter_filter.
    change (filter (fun y => if in_dec eq_dec y seen then false else true)
              [x])
      with (if (if in_dec eq_dec x seen then false else true)
            then [x] else []).
    unfold Utils.unique_step.
    destruct (in_dec eq_dec x seen) as [Hx|Hx]; cbn [app].
    + f_equal. apply filter_ext_in; intros y _.
      rewrite not_in_single_iff.
      destruct (in_dec eq_dec y seen) as [Hy|Hy]; cbn [andb];
        [reflexivity|].
      destruct (eq_dec y x) as [->|]; [contradiction|reflexivity].
    + rewrite <- app_assoc; cbn [app]. do 2 f_equal.
      apply filter_ext_in; intros y _. rewrite not_in_single_iff.
      destruct (in_dec eq_dec y (seen ++ [x])) as [Hy|Hy];
        destruct (in_dec eq_dec y seen) as [Hy'|Hy'];
        destruct (eq_dec y x) as [Hy''|Hy'']; cbn [andb];
        try reflexivity; exfalso; rewrite in_app_iff in Hy; cbn [In] in Hy;
        intuition congruence.
Qed.

Lemma unique_In l x : In x (Utils.unique eq_dec l) <-> In x l.
Proof.
  unfold Utils.unique. rewrite unique_fold_In; simpl; tauto.
Qed.

Lemma unique_NoDup l : NoDup (Utils.unique eq_dec l).
Proof. apply unique_fold_NoDup; constructor. Qed.

(** First-seen order: the head stays first, and the rest is the unique list
    of the tail without the head. *)
Lemma unique_cons x l :
  Utils.unique eq_dec (x :: l)
  = x :: filter (fun y => if eq_dec y x then false else true)
           (Utils.unique eq_dec l).
Proof.
  unfold Utils.unique; cbn [fold_left].
  rewrite unique_step_nil, unique_fold_seen. cbn [app]. f_equal.
  apply filter_ext; intros y. apply not_in_single_iff.
Qed.

End Unique.

Lemma entry_in_spec e l : entry_in e l = true <-> In e l.
Proof.
  unfold entry_in; destruct (in_dec JMdictEntry.eq_dec e l);
    split; intros; congruence || assumption || reflexivity.
Qed.

Lemma meta_sources_spec d s b e src :
  In src (meta_sources d s b e)
  <-> (src = JMDICT_MECAB_DECOMP /\ In e d)
      \/ (src = JMDICT_SURFACE_FORM /\ In e s)
      \/ (src = JMDICT_BASE_FORM /\ In e b).
Proof.
  unfold meta_sources. rewrite !in_app_iff.
  rewrite <- !entry_in_spec.
  destruct (entry_in e d), (entry_in e s), (entry_in e b); simpl;
    intuition (congruence || auto).
Qed.

Lemma get_entries_loaded jm em dm max_text max_decomp :
  loaded jm em dm max_text max_decomp ->
  (forall s, get_entries jm (TextForm s) = Ok (lookup_text em s))
  /\ (forall d, get_entries jm (MecabDecomp d) = Ok (lookup_decomp dm d)).
Proof. intros ->; split; reflexivity. Qed.

(** The run of [_lookup_meta_lexical_item] on a window of items that have
    positions, with a loaded dictionary. *)
Lemma lookup_meta_lexical_item_run
    jm em dm max_text max_decomp first rest :
  loaded jm em dm max_text max_decomp ->
  Forall has_position (first :: rest) ->
  let window := first :: rest in
  let d := lookup_decomp dm (map base_form window) in
  let s := lookup_text em (join (map first_surface_form window)) in
  let b := lookup_text em (join (map base_form window)) in
  let entries := Utils.unique JMdictEntry.eq_dec (d ++ s ++ b) in
  _lookup_meta_lexical_item jm window
  = Ok (map
          (fun entry =>
             new_FoundJpnLexicalItem
               (JMdictEntry.text_form entry)
               [ {| start := first_start first;
                    len := sum (map (fun item =>
                                       length (first_surface_form item))
                                    window) |} ]
               [ {| mecab_interp := None;
                    jmdict_interp_entry_id :=
                      Some (JMdictEntry.entry_id entry);
                    interp_sources := meta_sources d s b entry |} ])
          entries).
Proof.
  intros Hloaded Hpos window d s b entries.
  destruct (get_entries_loaded _ _ _ _ _ Hloaded) as [Htext Hdecomp].
  pose proof (surface_forms_Ok _ Hpos
              : map_outcome get_first_surface_form window
                = Ok (map first_surface_form window)) as Hsf.
  unfold _lookup_meta_lexical_item.
  rewrite Hdecomp; cbn [bind].
  rewrite Hsf; cbn [bind].
  rewrite !Htext; cbn [bind].
  fold d s b.
  assert (Hmap :
            map_outcome
              (fun entry =>
                 let sources :=
                   (if entry_in entry d then [JMDICT_MECAB_DECOMP] else [])
                   ++ (if entry_in entry s then [JMDICT_SURFACE_FORM]
                       else [])
                   ++ (if entry_in entry b then [JMDICT_BASE_FORM]
                       else []) in
                 first0 <- index window 0 ;;
                 first_pos <- index (found_positions first0) 0 ;;
                 Ok (new_FoundJpnLexicalItem (JMdictEntry.text_form entry)
                       [ {| start := start first_pos;
                            len := length
                                     (join (map first_surface_form
                                              window)) |} ]
                       [ {| mecab_interp := None;
                            jmdict_interp_entry_id :=
                              Some (JMdictEntry.entry_id entry);
                            interp_sources := sources |} ]))
              entries
            = Ok (map
                    (fun entry =>
                       new_FoundJpnLexicalItem
                         (JMdictEntry.text_form entry)
                         [ {| start := first_start first;
                              len := sum (map (fun item =>
                                       length (first_surface_form item))
                                       window) |} ]
                         [ {| mecab_interp := None;
                              jmdict_interp_entry_id :=
                                Some (JMdictEntry.entry_id entry);
                              interp_sources :=
                                meta_sources d s b entry |} ])
                    entries)).
  { apply map_outcome_pure; intros e _.
    inversion Hpos as [|? ? Hfirst _]; subst. unfold has_position in Hfirst.
    destruct (found_positions first) as [|p ps] eqn:E; [congruence|].
    cbv zeta. unfold window at 1. cbn [index nth_error bind].
    rewrite E. cbn [index nth_error bind].
    unfold first_start. rewrite E. cbn [map nth].
    rewrite length_join, map_map. reflexivity. }
  destruct d as [|d0 d']; [destruct s as [|s0 s']; [destruct b as [|b0 b']|]|];
    exact Hmap.
Qed.

(** C5.  For a window [first :: rest] of base items that have positions and
    a loaded dictionary, [_lookup_meta_lexical_item] returns one meta item
    for every entry of the unique list of the decomposition, surface-form
    and base-form results, in first-seen order (none when the three are
    empty).  The item has the text form of the entry as its base form, the
    single position that starts where [first] starts and has the summed
    length of the surface forms of the window, and the single dictionary
    interpretation of the entry, whose source tags name exactly the lookups
    that returned the entry. *)
Theorem lookup_meta_lexical_item_emits_one_item_per_entry
    jm em dm max_text max_decomp first rest
    (Hloaded : loaded jm em dm max_text max_decomp)
    (Hpos : Forall has_position (first :: rest)) :
  let window := first :: rest in
  let d := lookup_decomp dm (map base_form window) in
  let s := lookup_text em (join (map first_surface_form window)) in
  let b := lookup_text em (join (map base_form window)) in
  let entries := Utils.unique JMdictEntry.eq_dec (d ++ s ++ b) in
  _lookup_meta_lexical_item jm window
  = Ok (map
          (fun entry =>
             {| base_form := JMdictEntry.text_form entry;
                found_positions :=
                  [ {| start := first_start first;
                       len := sum (map (fun item =>
                                          length (first_surface_form item))
                                       window) |} ];
                possible_interps :=
                  [ {| mecab_interp := None;
                       jmdict_interp_entry_id :=
                         Some (JMdictEntry.entry_id entry);
                       interp_sources := meta_sources d s b entry |} ];
                article := None;
                surface_form_cache := [] |})
          entries)
  /\ (d = [] -> s = [] -> b = [] ->
      _lookup_meta_lexical_item jm window = Ok [])
  /\ NoDup entries
  /\ (forall e, In e entries <-> In e d \/ In e s \/ In e b)
  /\ (forall e src,
         In src (meta_sources d s b e)
         <-> (src = JMDICT_MECAB_DECOMP /\ In e d)
             \/ (src = JMDICT_SURFACE_FORM /\ In e s)
             \/ (src = JMDICT_BASE_FORM /\ In e b))
  /\ (forall x l,
         Utils.unique JMdictEntry.eq_dec (x :: l)
         = x :: filter (fun y => if JMdictEntry.eq_dec y x
                                 then false else true)
                  (Utils.unique JMdictEntry.eq_dec l)).
Proof.
  intros window d s b entries.
  pose proof (lookup_meta_lexical_item_run jm em dm max_text max_decomp
                first rest Hloaded Hpos) as Hrun.
  cbv zeta in Hrun. fold window d s b entries in Hrun.
  split; [exact Hrun|].
  split.
  { intros Hd Hs Hb. rewrite Hrun. unfold entries. rewrite Hd, Hs, Hb.
    reflexivity. }
  split; [apply unique_NoDup|].
  split.
  { intros e. unfold entries. rewrite unique_In, !in_app_iff. tauto. }
  split; [intros e src; apply meta_sources_spec|].
  apply unique_cons.
Qed.

Lemma lookup_meta_lexical_item_emits_one_item_per_entry_witness :
  _lookup_meta_lexical_item Samples.sample_jmdict
    (Samples.sample_first :: Samples.sample_rest)
  = Ok [Samples.sample_meta_item].
Proof.
  refine (proj1 (lookup_meta_lexical_item_emits_one_item_per_entry
                   Samples.sample_jmdict Samples.sample_entry_map
                   Samples.sample_decomp_map 4 2
                   Samples.sample_first Samples.sample_rest _ _)).
  - vm_compute; reflexivity.
  - repeat constructor; vm_compute; discriminate.
Defined.

(** ** C4: the windows the finder looks up *)

Lemma take_while_In {A : Type} (f : A -> bool) l x :
  In x (take_while f l) -> In x l /\ f x = true.
Proof.
  induction l as [|a l IH]; simpl; [tauto|].
  destruct (f a) eqn:E; simpl; [|tauto].
  intros [<-|H]; [tauto|]. destruct (IH H); tauto.
Qed.

(** On a range, the longest passing prefix is a range that ends at the end
    or just before the first element that fails. *)
Lemma take_while_seq (f : nat -> bool) a n :
  exists k,
    take_while f (seq a n) = seq a k
    /\ k <= n
    /\ (k < n -> f (a + k) = false).
Proof.
  revert a; induction n as [|n IH]; intros a; simpl.
  - exists 0; repeat split; [lia|lia].
  - destruct (f a) eqn:E.
    + destruct (IH (S a)) as (k & Hk & Hle & Hstop).
      exists (S k); simpl; rewrite Hk. repeat split; [lia|].
      intros Hlt. replace (a + S k) with (S a + k) by lia.
      apply Hstop; lia.
    + exists 0; simpl. repeat split; [lia|].
      intros _. rewrite Nat.add_0_r; exact E.
Qed.

Lemma flat_map_singleton {A : Type} (l : list A) :
  flat_map (fun x => [x]) l = l.
Proof. induction l as [|x l IH]; simpl; congruence. Qed.

Lemma flat_map_flat_map {A B C : Type} (f : A -> list B) (g : B -> list C)
    l :
  flat_map g (flat_map f l) = flat_map (fun x => flat_map g (f x)) l.
Proof.
  induction l as [|x l IH]; simpl; [reflexivity|].
  rewrite flat_map_app, IH; reflexivity.
Qed.

Lemma slice_cons {A : Type} (s : list A) i j :
  i < j -> i < length s -> exists x r, slice s i j = x :: r.
Proof.
  intros Hij Hi. destruct (slice s i j) as [|x r] eqn:E; [|eauto].
  apply (f_equal (@length _)) in E. rewrite slice_length in E.
  simpl in E; lia.
Qed.

Lemma windows_from_In max_text max_decomp bs i w :
  In w (windows_from max_text max_decomp bs i) ->
  exists j,
    i < j < length bs
    /\ w = slice bs i (j + 1)
    /\ within_bound max_text max_decomp w = true.
Proof.
  unfold windows_from; intros H. apply in_map_iff in H.
  destruct H as (j & <- & H). apply take_while_In in H.
  destruct H as [H Hw]. apply in_seq in H.
  exists j; repeat split; [lia|lia|exact Hw].
Qed.

Lemma bounded_windows_In max_text max_decomp bs w :
  In w (bounded_windows max_text max_decomp bs) ->
  exists i j,
    i < j < length bs
    /\ w = slice bs i (j + 1)
    /\ within_bound max_text max_decomp w = true.
Proof.
  unfold bounded_windows; intros H. apply in_flat_map in H.
  destruct H as (i & _ & H). apply windows_from_In in H.
  destruct H as (j & H). exists i, j; exact H.
Qed.

Lemma within_bound_spec max_text max_decomp w :
  within_bound max_text max_decomp w = true
  <-> some_measure_within max_text max_decomp w.
Proof.
  unfold within_bound, some_measure_within.
  rewrite !orb_true_iff, !Nat.leb_le. tauto.
Qed.

(** The lookup of a window of the finder returns. *)
Lemma lookup_meta_window_Ok jm em dm max_text max_decomp bs i j :
  loaded jm em dm max_text max_decomp ->
  Forall has_position bs ->
  i < j < length bs ->
  _lookup_meta_lexical_item jm (slice bs i (j + 1))
  = Ok (meta_items_of jm (slice bs i (j + 1))).
Proof.
  intros Hloaded Hpos Hij.
  destruct (slice_cons bs i (j + 1)) as (x & r & E); [lia|lia|].
  pose proof (Forall_slice _ bs i (j + 1) Hpos) as Hpos'.
  rewrite E in Hpos'. unfold meta_items_of. rewrite E.
  rewrite (lookup_meta_lexical_item_run jm em dm max_text max_decomp x r
             Hloaded Hpos').
  reflexivity.
Qed.

Lemma within_slices jm em dm max_text max_decomp bs :
  loaded jm em dm max_text max_decomp ->
  Forall has_position bs ->
  forall i j,
    i < j < length bs ->
    _within_jmdict_max_entry_len jm (slice bs i (j + 1))
    = Ok (within_bound max_text max_decomp (slice bs i (j + 1))).
Proof.
  intros Hloaded Hpos i j _.
  apply (within_jmdict_max_entry_len_spec jm em dm); [assumption|].
  apply Forall_slice; assumption.
Qed.

(** The finder returns, with the items of the lookups of the windows of
    [bounded_windows]. *)
Lemma find_meta_lexical_items_run jm em dm max_text max_decomp bs :
  loaded jm em dm max_text max_decomp ->
  Forall has_position bs ->
  _find_meta_lexical_items jm bs
  = Ok (flat_map (meta_items_of jm)
          (bounded_windows max_text max_decomp bs)).
Proof.
  intros Hloaded Hpos. unfold _find_meta_lexical_items.
  rewrite (outer_while_spec jm _ bs (within_bound max_text max_decomp)
             (meta_items_of jm)
             (within_slices jm em dm max_text max_decomp bs Hloaded Hpos)).
  - cbn [app]. rewrite Nat.sub_0_r. unfold bounded_windows.
    rewrite flat_map_flat_map. reflexivity.
  - intros i j Hij _.
    apply (lookup_meta_window_Ok jm em dm max_text max_decomp); assumption.
  - lia.
Qed.

(** C4.  With a loaded dictionary and base items that have positions, the
    finder looks up exactly the windows of [bounded_windows], in order, and
    returns the items of these lookups.  Every window it looks up has at
    least one of the three length measures within its bound: the number of
    items at most [max_mecab_decomp_len], or the summed base-form length at
    most [max_text_form_len], or the summed first-surface-form length at
    most [max_text_form_len].  For every start [i], the windows looked up
    are [B[i..=j]] for [j = i + 1, ..., i + k], and when a longer window is
    left, [B[i..=i + k + 1]] has all three measures over their bounds: the
    inner loop stopped at the first window that fails. *)
Theorem meta_finder_looks_up_windows_within_bound
    jm em dm max_text max_decomp bs
    (Hloaded : loaded jm em dm max_text max_decomp)
    (Hpos : Forall has_position bs) :
  looked_up_windows jm bs = Ok (bounded_windows max_text max_decomp bs)
  /\ _find_meta_lexical_items jm bs
     = Ok (flat_map (meta_items_of jm)
             (bounded_windows max_text max_decomp bs))
  /\ Forall (fun w =>
               _lookup_meta_lexical_item jm w = Ok (meta_items_of jm w)
               /\ some_measure_within max_text max_decomp w)
            (bounded_windows max_text max_decomp bs)
  /\ forall i, i < length bs ->
       exists k,
         windows_from max_text max_decomp bs i
         = map (fun j => slice bs i (j + 1)) (seq (i + 1) k)
         /\ i + 1 + k <= length bs
         /\ (i + 1 + k < length bs ->
             ~ some_measure_within max_text max_decomp
                 (slice bs i (i + 1 + k + 1))).
Proof.
  pose proof (within_slices jm em dm max_text max_decomp bs Hloaded Hpos)
    as Hwithin.
  split; [|split; [|split]].
  - unfold looked_up_windows.
    rewrite (outer_while_spec jm _ bs (within_bound max_text max_decomp)
               (fun w => [w]) Hwithin).
    + cbn [app]. rewrite Nat.sub_0_r. unfold bounded_windows.
      f_equal. apply flat_map_ext; intros i.
      rewrite flat_map_singleton. reflexivity.
    + intros i j Hij _.
      rewrite (lookup_meta_window_Ok jm em dm max_text max_decomp bs i j)
        by assumption.
      reflexivity.
    + lia.
  - apply (find_meta_lexical_items_run jm em dm); assumption.
  - apply Forall_forall; intros w Hw.
    apply bounded_windows_In in Hw. destruct Hw as (i & j & Hij & -> & Hw).
    split.
    + apply (lookup_meta_window_Ok jm em dm max_text max_decomp);
        assumption.
    + apply within_bound_spec; exact Hw.
  - intros i Hi. unfold windows_from.
    destruct (take_while_seq
                (fun j => within_bound max_text max_decomp
                            (slice bs i (j + 1)))
                (i + 1) (length bs - (i + 1))) as (k & Hk & Hle & Hstop).
    exists k. rewrite Hk. repeat split; [lia|].
    intros Hlt Hsome. apply within_bound_spec in Hsome.
    rewrite Hstop in Hsome; [discriminate|lia].
Qed.

Lemma meta_finder_looks_up_windows_within_bound_witness :
  match looked_up_windows Samples.sample_jmdict Samples.sample_long_items
  with
  | Ok windows => map (map base_form) windows
  | _ => []
  end
  = [ [u "猫"; u "が"]; [u "猫"; u "が"; u "走る"];
      [u "が"; u "走る"]; [u "が"; u "走る"; u "物"];
      [u "走る"; u "物"]; [u "走る"; u "物"; u "物"];
      [u "物"; u "物"] ].
Proof.
  rewrite (proj1 (meta_finder_looks_up_windows_within_bound
                    Samples.sample_jmdict Samples.sample_entry_map
                    Samples.sample_decomp_map 4 2 Samples.sample_long_items
                    ltac:(vm_compute; reflexivity)
                    ltac:(repeat constructor; vm_compute; discriminate))).
  vm_compute; reflexivity.
Defined.

(** ** Dictionaries *)

Section DictFacts.

Context {K V : Type}.
Variable K_eq_dec : forall a b : K, {a = b} + {a <> b}.

Lemma dict_get_set_eq (d : @dict K V) k v :
  dict_get K_eq_dec (dict_set K_eq_dec d k v) k = Some v.
Proof.
  induction d as [|[k' v'] d IH]; simpl.
  - destruct (K_eq_dec k k); congruence.
  - destruct (K_eq_dec k k') as [->|Hne]; simpl.
    + destruct (K_eq_dec k' k'); congruence.
    + destruct (K_eq_dec k k'); [contradiction|exact IH].
Qed.

Lemma dict_get_set_ne (d : @dict K V) k k' v :
  k <> k' ->
  dict_get K_eq_dec (dict_set K_eq_dec d k v) k' = dict_get K_eq_dec d k'.
Proof.
  intros Hne; induction d as [|[k0 v0] d IH]; simpl.
  - destruct (K_eq_dec k' k); congruence.
  - destruct (K_eq_dec k k0) as [->|Hne0]; simpl.
    + destruct (K_eq_dec k' k0); congruence.
    + destruct (K_eq_dec k' k0); [reflexivity|exact IH].
Qed.

Lemma dict_keys_set (d : @dict K V) k v :
  dict_keys (dict_set K_eq_dec d k v)
  = if dict_contains K_eq_dec d k then dict_keys d else dict_keys d ++ [k].
Proof.
  unfold dict_keys, dict_contains. induction d as [|[k' v'] d IH]; simpl.
  - reflexivity.
  - destruct (K_eq_dec k k') as [->|Hne]; simpl; [reflexivity|].
    rewrite IH. destruct (dict_get K_eq_dec d k); reflexivity.
Qed.

Lemma dict_get_In (d : @dict K V) k v :
  dict_get K_eq_dec d k = Some v -> In (k, v) d.
Proof.
  induction d as [|[k' v'] d IH]; simpl; [discriminate|].
  destruct (K_eq_dec k k') as [->|Hne].
  - intros H; inversion H; left; reflexivity.
  - intros H; right; apply IH; exact H.
Qed.

Lemma dict_In_get (d : @dict K V) k v :
  NoDup (dict_keys d) -> In (k, v) d -> dict_get K_eq_dec d k = Some v.
Proof.
  unfold dict_keys. induction d as [|[k' v'] d IH]; simpl; [tauto|].
  intros Hnd [H|H]; inversion Hnd as [|? ? Hnotin Hnd']; subst.
  - inversion H; subst. destruct (K_eq_dec k k); congruence.
  - destruct (K_eq_dec k k') as [->|Hne]; [|apply IH; assumption].
    exfalso; apply Hnotin. apply in_map_iff. exists (k', v); auto.
Qed.

Lemma dict_keys_In (d : @dict K V) k :
  In k (dict_keys d) <-> dict_get K_eq_dec d k <> None.
Proof.
  unfold dict_keys. induction d as [|[k' v'] d IH]; simpl.
  - split; [tauto|congruence].
  - destruct (K_eq_dec k k') as [->|Hne].
    + split; [discriminate|auto].
    + rewrite <- IH. split; [intros [H|H]; congruence|auto].
Qed.

Lemma dict_keys_set_NoDup (d : @dict K V) k v :
  NoDup (dict_keys d) -> NoDup (dict_keys (dict_set K_eq_dec d k v)).
Proof.
  intros Hnd. rewrite dict_keys_set. unfold dict_contains.
  destruct (dict_get K_eq_dec d k) eqn:E; [assumption|].
  apply NoDup_app; [assumption|repeat constructor; intros []|].
  intros a Ha [<-|[]]. apply dict_keys_In in Ha. congruence.
Qed.

(** Setting the items of a dictionary one by one, in order, on an empty
    dictionary gives the dictionary back. *)
Lemma dict_set_items (items d0 : @dict K V) :
  NoDup (dict_keys (d0 ++ items)) ->
  fold_left (fun d item => dict_set K_eq_dec d (fst item) (snd item))
            items d0
  = d0 ++ items.
Proof.
  revert d0; induction items as [|[k v] items IH]; intros d0 Hnd; simpl.
  - rewrite app_nil_r; reflexivity.
  - assert (Hset : dict_set K_eq_dec d0 k v = d0 ++ [(k, v)]).
    { assert (Hk : ~ In k (dict_keys d0)).
      { unfold dict_keys in *. rewrite map_app in Hnd; simpl in Hnd.
        apply NoDup_remove_2 in Hnd. intros Hin; apply Hnd.
        apply in_or_app; left; exact Hin. }
      clear - Hk. induction d0 as [|[k' v'] d0 IH]; simpl; [reflexivity|].
      destruct (K_eq_dec k k') as [->|Hne].
      - exfalso; apply Hk; left; reflexivity.
      - rewrite IH; [reflexivity|]. intros Hin; apply Hk; right; exact Hin. }
    rewrite Hset, IH; rewrite <- app_assoc; [reflexivity|exact Hnd].
Qed.

End DictFacts.

Section GroupFacts.

Context {K X : Type}.
Variable K_eq_dec : forall a b : K, {a = b} + {a <> b}.
Variable key : X -> K.

Lemma dict_get_append_eq (d : @dict K (list X)) k x :
  dict_get K_eq_dec (dict_append K_eq_dec d k x) k
  = Some (match dict_get K_eq_dec d k with Some l => l | None => [] end
          ++ [x]).
Proof.
  unfold dict_append. destruct (dict_get K_eq_dec d k);
    apply dict_get_set_eq.
Qed.

Lemma dict_get_append_ne (d : @dict K (list X)) k k' x :
  k <> k' ->
  dict_get K_eq_dec (dict_append K_eq_dec d k x) k' = dict_get K_eq_dec d k'.
Proof.
  intros Hne. unfold dict_append. destruct (dict_get K_eq_dec d k);
    apply dict_get_set_ne; exact Hne.
Qed.

(** The list under a key of a grouped dictionary: what was there, then the
    values of that key, in the order of the list. *)
Lemma group_by_get xs (d : @dict K (list X)) k :
  dict_get K_eq_dec (group_by K_eq_dec key xs d) k
  = match filter (has_key K_eq_dec key k) xs with
    | [] => dict_get K_eq_dec d k
    | l => Some (match dict_get K_eq_dec d k with
                 | Some l0 => l0 | None => [] end ++ l)
    end.
Proof.
  unfold group_by. revert d; induction xs as [|x xs IH]; intros d;
    cbn [fold_left filter]; [reflexivity|].
  rewrite IH. unfold has_key at 2.
  destruct (K_eq_dec (key x) k) as [<-|Hne].
  - rewrite dict_get_append_eq.
    destruct (filter (has_key K_eq_dec key (key x)) xs) as [|y l].
    + reflexivity.
    + rewrite <- app_assoc; reflexivity.
  - rewrite dict_get_append_ne by exact Hne. reflexivity.
Qed.

Lemma group_by_keys_NoDup xs (d : @dict K (list X)) :
  NoDup (dict_keys d) -> NoDup (dict_keys (group_by K_eq_dec key xs d)).
Proof.
  unfold group_by. revert d; induction xs as [|x xs IH]; intros d Hnd;
    cbn [fold_left]; [assumption|].
  apply IH. unfold dict_append.
  destruct (dict_get K_eq_dec d (key x)); apply dict_keys_set_NoDup;
    assumption.
Qed.

Lemma dict_set_nonempty (d : @dict K (list X)) k l :
  l <> [] -> nonempty_values d ->
  nonempty_values (dict_set K_eq_dec d k l).
Proof.
  unfold nonempty_values. intros Hl Hd.
  induction d as [|[k' l'] d IH]; simpl.
  - repeat constructor; exact Hl.
  - inversion Hd; subst.
    destruct (K_eq_dec k k'); constructor; auto.
Qed.

Lemma dict_append_nonempty (d : @dict K (list X)) k x :
  nonempty_values d -> nonempty_values (dict_append K_eq_dec d k x).
Proof.
  intros Hd. unfold dict_append.
  destruct (dict_get K_eq_dec d k) as [l|];
    apply dict_set_nonempty; try assumption;
    intros H; apply app_eq_nil in H; destruct H; discriminate.
Qed.

Lemma group_by_nonempty xs (d : @dict K (list X)) :
  nonempty_values d -> nonempty_values (group_by K_eq_dec key xs d).
Proof.
  unfold group_by. revert d; induction xs as [|x xs IH]; intros d Hd;
    cbn [fold_left]; [assumption|].
  apply IH, dict_append_nonempty, Hd.
Qed.

Lemma nonempty_values_get (d : @dict K (list X)) k l :
  nonempty_values d -> dict_get K_eq_dec d k = Some l -> l <> [].
Proof.
  unfold nonempty_values; intros Hd Hg. apply dict_get_In in Hg.
  rewrite Forall_forall in Hd. exact (Hd _ Hg).
Qed.

End GroupFacts.

(** ** Loading the dictionary *)

Section LoadFacts.

Variable mecab : str -> str.
Variable sense_tag_order : list str.

Lemma get_mecab_decomb_Ok fuel e k :
  _get_mecab_decomb mecab fuel e = Ok k ->
  k = decomposition mecab fuel (JMdictEntry.text_form e).
Proof.
  unfold _get_mecab_decomb, decomposition; intros H.
  bind_inv H. rewrite Ha. inversion H; reflexivity.
Qed.

Lemma index_entries_Ok fuel objs st st' :
  for_each
    (fun (st : EntryMap * MecabDecompMap) entry_obj =>
       let '(em, dm) := st in
       mecab_decomp <- _get_mecab_decomb mecab fuel entry_obj ;;
       let dm := dict_append strs_eq_dec dm mecab_decomp entry_obj in
       let em :=
         dict_append str_eq_dec em (JMdictEntry.text_form entry_obj)
           entry_obj in
       Ok (em, dm))
    objs st = Ok st' ->
  st' = xml_indexes mecab fuel objs st.
Proof.
  revert st; induction objs as [|e objs IH]; intros [em dm] H;
    cbn [for_each] in H.
  - inversion H; reflexivity.
  - bind_inv H. bind_inv Ha. inversion Ha; subst a.
    apply get_mecab_decomb_Ok in Ha0; subst a0.
    apply IH in H. rewrite H. reflexivity.
Qed.

Lemma xml_indexes_app fuel es1 es2 st :
  xml_indexes mecab fuel es2 (xml_indexes mecab fuel es1 st)
  = xml_indexes mecab fuel (es1 ++ es2) st.
Proof.
  unfold xml_indexes, group_by; simpl. rewrite !fold_left_app. reflexivity.
Qed.

Lemma load_xml_records_Ok fuel records st st' :
  for_each
    (fun st entry_element =>
       entry_objs <- _parse_entry_xml sense_tag_order entry_element ;;
       for_each
         (fun (st : EntryMap * MecabDecompMap) entry_obj =>
            let '(em, dm) := st in
            mecab_decomp <- _get_mecab_decomb mecab fuel entry_obj ;;
            let dm := dict_append strs_eq_dec dm mecab_decomp entry_obj in
            let em :=
              dict_append str_eq_dec em (JMdictEntry.text_form entry_obj)
                entry_obj in
            Ok (em, dm))
         entry_objs st)
    records st = Ok st' ->
  exists es, st' = xml_indexes mecab fuel es st.
Proof.
  revert st; induction records as [|r records IH]; intros st H;
    cbn [for_each] in H.
  - inversion H; subst. exists []; destruct st'; reflexivity.
  - bind_inv H. bind_inv Ha. apply index_entries_Ok in Ha.
    apply IH in H. destruct H as (es & ->). subst a.
    exists (a0 ++ es). apply xml_indexes_app.
Qed.

Lemma load_xml_entries_Ok fuel root em dm :
  load_xml_entries mecab sense_tag_order fuel root = Ok (em, dm) ->
  exists es, (em, dm) = xml_indexes mecab fuel es ([], []).
Proof. unfold load_xml_entries. apply load_xml_records_Ok. Qed.

Lemma set_max_entry_lens_Ok self (em : EntryMap) (dm : MecabDecompMap) jm :
  _set_max_entry_lens (set_maps self em dm) = Ok jm ->
  exists max_text max_decomp,
    py_max (map (@length codepoint) (dict_keys em)) = Ok max_text
    /\ py_max (map (@length str) (dict_keys dm)) = Ok max_decomp
    /\ loaded jm em dm max_text max_decomp.
Proof.
  unfold _set_max_entry_lens, set_maps; cbn. intros H.
  bind_inv H. bind_inv H. inversion H; subst.
  exists a, a0; repeat split; assumption.
Qed.

(** The items of the shelf go back into the two maps: the decomposition
    map item by item, the text-form map entry by entry. *)
Lemma load_shelf_items_spec items :
  load_shelf_items items
  = (group_by str_eq_dec JMdictEntry.text_form (concat (map snd items)) [],
     fold_left
       (fun d item => dict_set strs_eq_dec d (fst item) (snd item))
       items []).
Proof.
  unfold load_shelf_items.
  assert (H : forall em dm,
             fold_left
               (fun (st : EntryMap * MecabDecompMap) item =>
                  let '(em, dm) := st in
                  let '(mecab_decomp, entry_list) := item in
                  let dm := dict_set strs_eq_dec dm mecab_decomp entry_list in
                  let em :=
                    fold_left
                      (fun em entry =>
                         dict_append str_eq_dec em
                           (JMdictEntry.text_form entry) entry)
                      entry_list em in
                  (em, dm))
               items (em, dm)
             = (group_by str_eq_dec JMdictEntry.text_form
                  (concat (map snd items)) em,
                fold_left
                  (fun d item => dict_set strs_eq_dec d (fst item) (snd item))
                  items dm)).
  { induction items as [|[k l] items IH]; intros em dm; cbn [fold_left].
    - reflexivity.
    - rewrite IH. cbn [map concat fst snd]. unfold group_by.
      rewrite fold_left_app. reflexivity. }
  apply H.
Qed.

(** The two ways [load_jmdict] returns: from a shelf that is newer than the
    XML file, or from the XML file, writing the shelf. *)
Lemma load_jmdict_Ok self fs now fuel jm fs' :
  load_jmdict mecab sense_tag_order self fs now fuel = Ok (jm, fs') ->
  exists x,
    xml_file fs = Some x
    /\ ((exists shelf,
            shelf_file fs = Some shelf
            /\ Qle_bool (shelf_mtime shelf) (xml_mtime x) = false
            /\ fs' = fs
            /\ _set_max_entry_lens
                 (set_maps self
                    (fst (load_shelf_items (_mecab_decomp_map_items shelf)))
                    (snd (load_shelf_items (_mecab_decomp_map_items shelf))))
               = Ok jm)
        \/ ((shelf_file fs = None
             \/ exists shelf,
                 shelf_file fs = Some shelf
                 /\ Qle_bool (shelf_mtime shelf) (xml_mtime x) = true)
            /\ exists em dm,
                load_xml_entries mecab sense_tag_order fuel (xml_root x)
                = Ok (em, dm)
                /\ _set_max_entry_lens (set_maps self em dm) = Ok jm
                /\ fs' = {| xml_file := xml_file fs;
                            shelf_file :=
                              Some {| shelf_mtime := now;
                                      _mecab_decomp_map_items :=
                                        dict_items dm |} |})).
Proof.
  unfold load_jmdict; intros H.
  destruct (xml_file fs) as [x|] eqn:Ex; [|discriminate].
  exists x; split; [reflexivity|]. cbn [bind] in H.
  unfold _load_from_shelf_if_newer in H.
  assert (Hxml : forall self0,
             (maps <- load_xml_entries mecab sense_tag_order fuel
                        (xml_root x) ;;
              let '(em, dm) := maps in
              self1 <- _set_max_entry_lens (set_maps self0 em dm) ;;
              fs1 <- _write_to_shelf self1 fs now ;;
              Ok (self1, fs1)) = Ok (jm, fs') ->
             exists em dm,
               load_xml_entries mecab sense_tag_order fuel (xml_root x)
               = Ok (em, dm)
               /\ _set_max_entry_lens (set_maps self0 em dm) = Ok jm
               /\ fs' = {| xml_file := xml_file fs;
                           shelf_file :=
                             Some {| shelf_mtime := now;
                                     _mecab_decomp_map_items :=
                                       dict_items dm |} |}).
  { intros self0 H0. bind_inv H0. destruct a as [em dm].
    bind_inv H0. bind_inv H0. inversion H0; subst.
    exists em, dm. split; [assumption|]. split; [assumption|].
    destruct (set_max_entry_lens_Ok _ _ _ _ Ha0) as (mt & md & _ & _ & ->).
    unfold _write_to_shelf in Ha1; cbn in Ha1. inversion Ha1.
    rewrite Ex. reflexivity. }
  destruct (shelf_file fs) as [shelf|] eqn:Es.
  - destruct (Qle_bool (shelf_mtime shelf) (xml_mtime x)) eqn:Eq.
    + right. cbn [bind] in H. split; [right; eauto|].
      rewrite <- Ex. apply Hxml. exact H.
    + left. exists shelf. destruct (load_shelf_items _) as [em dm].
      bind_inv H. bind_inv Ha. inversion Ha; subst a.
      cbn in H. inversion H; subst. auto.
  - right. cbn [bind] in H. split; [left; reflexivity|].
    rewrite <- Ex. apply Hxml. exact H.
Qed.

End LoadFacts.

(** ** Maxima *)

Lemma fold_left_max_list_max xs a :
  fold_left Nat.max xs a = Nat.max a (list_max xs).
Proof.
  revert a; induction xs as [|x xs IH]; intros a; simpl.
  - lia.
  - rewrite IH. lia.
Qed.

Lemma In_le_list_max l x : In x l -> x <= list_max l.
Proof.
  intros H. pose proof (proj1 (list_max_le l (list_max l)) (le_n _)) as Hall.
  rewrite Forall_forall in Hall. exact (Hall x H).
Qed.

Lemma list_max_incl l1 l2 :
  (forall x, In x l1 -> In x l2) -> list_max l1 <= list_max l2.
Proof.
  intros H. apply list_max_le, Forall_forall.
  intros x Hx. apply In_le_list_max, H, Hx.
Qed.

(** [max] of a sequence depends on the set of its elements only. *)
Lemma py_max_same_elements l1 l2 :
  (forall x, In x l1 <-> In x l2) -> py_max l1 = py_max l2.
Proof.
  intros H. destruct l1 as [|x1 l1], l2 as [|x2 l2]; simpl.
  - reflexivity.
  - exfalso. apply (proj2 (H x2)). left; reflexivity.
  - exfalso. apply (proj1 (H x1)). left; reflexivity.
  - f_equal. rewrite !fold_left_max_list_max.
    change (list_max (x1 :: l1) = list_max (x2 :: l2)).
    apply Nat.le_antisymm; apply list_max_incl; intros x; apply H.
Qed.

(** ** Regrouping the entries of the decomposition index by text form *)

Lemma filter_concat {A : Type} (f : A -> bool) (ls : list (list A)) :
  filter f (concat ls) = concat (map (filter f) ls).
Proof.
  induction ls as [|l ls IH]; simpl; [reflexivity|].
  rewrite filter_app, IH; reflexivity.
Qed.

Lemma filter_none {A : Type} (f : A -> bool) l :
  (forall x, In x l -> f x = false) -> filter f l = [].
Proof.
  induction l as [|x l IH]; simpl; intros H; [reflexivity|].
  rewrite (H x (or_introl eq_refl)). apply IH; intros; apply H; right;
    assumption.
Qed.

Section Regroup.

Context {X K1 K2 : Type}.
Variable eq1 : forall a b : K1, {a = b} + {a <> b}.
Variable eq2 : forall a b : K2, {a = b} + {a <> b}.
Variable tf : X -> K1.
Variable D : K1 -> K2.

(** Among lists under distinct keys, picking the one under [k0]. *)
Lemma concat_pick (g : @dict K2 (list X)) (k0 : K2) (F : list X) :
  NoDup (dict_keys g) ->
  concat (map (fun item => if eq2 (fst item) k0 then F else []) g)
  = if in_dec eq2 k0 (dict_keys g) then F else [].
Proof.
  unfold dict_keys. induction g as [|[k l] g IH]; intros Hnd; simpl.
  - reflexivity.
  - inversion Hnd as [|? ? Hnotin Hnd']; subst. rewrite (IH Hnd').
    destruct (eq2 k k0) as [->|Hne].
    + destruct (in_dec eq2 k0 (map fst g)); [contradiction|].
      rewrite app_nil_r; reflexivity.
    + destruct (in_dec eq2 k0 (map fst g)) as [Hin|Hnin]; simpl; reflexivity.
Qed.

(** The entries of a text form are together in the list of one key of the
    decomposition index, in the order of the document: reading the lists of
    that index one after the other and keeping the entries of a text form
    gives them as the document has them. *)
Lemma regroup_filter es t :
  filter (has_key eq1 tf t)
         (concat (map snd (group_by eq2 (fun x => D (tf x)) es [])))
  = filter (has_key eq1 tf t) es.
Proof.
  set (g := group_by eq2 (fun x => D (tf x)) es []).
  assert (Hnd : NoDup (dict_keys g))
    by (apply group_by_keys_NoDup; constructor).
  assert (Hget : forall k,
             dict_get eq2 g k
             = match filter (has_key eq2 (fun x => D (tf x)) k) es with
               | [] => None
               | l => Some l
               end).
  { intros k. unfold g. rewrite group_by_get. simpl.
    destruct (filter _ es); reflexivity. }
  rewrite filter_concat, map_map.
  rewrite (map_ext_in _
             (fun item => if eq2 (fst item) (D t)
                          then filter (has_key eq1 tf t) es else [])).
  - rewrite (concat_pick g (D t) _ Hnd).
    destruct (in_dec eq2 (D t) (dict_keys g)) as [Hin|Hnin];
      [reflexivity|].
    symmetry; apply filter_none. intros x Hx.
    unfold has_key. destruct (eq1 (tf x) t) as [E|E]; [|reflexivity].
    exfalso; apply Hnin. apply (dict_keys_In eq2). rewrite Hget.
    destruct (filter (has_key eq2 (fun x => D (tf x)) (D t)) es) eqn:Ef;
      [|discriminate].
    assert (Hxin : In x (filter (has_key eq2 (fun x => D (tf x)) (D t)) es)).
    { apply filter_In; split; [exact Hx|]. unfold has_key.
      destruct (eq2 (D (tf x)) (D t)); congruence. }
    rewrite Ef in Hxin; destruct Hxin.
  - intros [k l] Hkl; cbn [fst snd].
    pose proof (dict_In_get eq2 g k l Hnd Hkl) as Hk. rewrite Hget in Hk.
    assert (Hl : l = filter (has_key eq2 (fun x => D (tf x)) k) es).
    { destruct (filter (has_key eq2 (fun x => D (tf x)) k) es);
        [discriminate|]. inversion Hk; reflexivity. }
    rewrite Hl, filter_filter.
    destruct (eq2 k (D t)) as [->|Hne].
    + apply filter_ext; intros x. unfold has_key.
      destruct (eq1 (tf x) t) as [E|]; [|reflexivity].
      destruct (eq2 (D (tf x)) (D t)) as [|N]; [reflexivity|].
      exfalso; apply N; congruence.
    + apply filter_none; intros x _. unfold has_key.
      destruct (eq1 (tf x) t) as [E|]; [|reflexivity].
      destruct (eq2 (D (tf x)) k) as [E2|]; [|reflexivity].
      exfalso; apply Hne; congruence.
Qed.

End Regroup.

(** ** C8: the cache round trip *)

Lemma set_max_entry_lens_run self (em : EntryMap) (dm : MecabDecompMap)
    max_text max_decomp :
  py_max (map (@length codepoint) (dict_keys em)) = Ok max_text ->
  py_max (map (@length str) (dict_keys dm)) = Ok max_decomp ->
  _set_max_entry_lens (set_maps self em dm)
  = Ok {| _entry_map := Some em; _mecab_decomp_map := Some dm;
          _max_text_form_len := Some max_text;
          _max_mecab_decomp_len := Some max_decomp |}.
Proof.
  intros H1 H2.
  cbv beta iota delta [_set_max_entry_lens set_maps _entry_map
                         _mecab_decomp_map].
  rewrite H1; cbn [bind]. rewrite H2. reflexivity.
Qed.

Lemma load_jmdict_from_shelf mecab order self fs now fuel x shelf jm :
  xml_file fs = Some x ->
  shelf_file fs = Some shelf ->
  Qle_bool (shelf_mtime shelf) (xml_mtime x) = false ->
  _set_max_entry_lens
    (set_maps self
       (fst (load_shelf_items (_mecab_decomp_map_items shelf)))
       (snd (load_shelf_items (_mecab_decomp_map_items shelf))))
  = Ok jm ->
  load_jmdict mecab order self fs now fuel = Ok (jm, fs).
Proof.
  intros Hx Hs Hq Hmax. unfold load_jmdict, _load_from_shelf_if_newer.
  rewrite Hx; cbn [bind]. rewrite Hs, Hq.
  destruct (load_shelf_items (_mecab_decomp_map_items shelf)) as [em dm].
  cbn [fst snd] in Hmax. rewrite Hmax. reflexivity.
Qed.

Lemma dict_eq_keys {K V : Type}
    (K_eq_dec : forall a b : K, {a = b} + {a <> b}) (d1 d2 : @dict K V) :
  dict_eq K_eq_dec d1 d2 ->
  forall k, In k (dict_keys d1) <-> In k (dict_keys d2).
Proof.
  intros H k. rewrite !(dict_keys_In K_eq_dec), (H k). tauto.
Qed.

(** The text-form index rebuilt from the items of the decomposition index
    is the text-form index built from the document. *)
Lemma reload_entry_map mecab fuel es :
  dict_eq str_eq_dec
    (group_by str_eq_dec JMdictEntry.text_form
       (concat (map snd
          (group_by strs_eq_dec
             (fun e => decomposition mecab fuel (JMdictEntry.text_form e))
             es [])))
       [])
    (group_by str_eq_dec JMdictEntry.text_form es []).
Proof.
  intros t. rewrite !group_by_get.
  rewrite (regroup_filter str_eq_dec strs_eq_dec JMdictEntry.text_form
             (decomposition mecab fuel) es t).
  reflexivity.
Qed.

(** C8.  Let [load_jmdict] read the XML file (no shelf, or a shelf that is
    not newer) and write the shelf at a time [now] after the last
    modification of the XML file.  The shelf holds the items of the
    decomposition index and nothing else.  A second [load_jmdict] then
    reads the shelf and returns, without touching the files: its
    decomposition index is the one of the first load, item for item; its
    text-form index has the same keys and under every key the same entries
    in the same order; and the two maximal lengths are computed again to
    the same values. *)
Theorem cache_round_trip
    mecab order self1 self2 fs x now fuel jm1 fs1 now2 fuel2
    (Hxml : xml_file fs = Some x)
    (Hstale : forall shelf,
        shelf_file fs = Some shelf -> (shelf_mtime shelf <= xml_mtime x)%Q)
    (Hload : load_jmdict mecab order self1 fs now fuel = Ok (jm1, fs1))
    (Hnewer : (xml_mtime x < now)%Q) :
  exists em1 dm1 max_text max_decomp em2 jm2,
    loaded jm1 em1 dm1 max_text max_decomp
    /\ fs1 = {| xml_file := Some x;
                shelf_file :=
                  Some {| shelf_mtime := now;
                          _mecab_decomp_map_items := dict_items dm1 |} |}
    /\ load_jmdict mecab order self2 fs1 now2 fuel2 = Ok (jm2, fs1)
    /\ loaded jm2 em2 dm1 max_text max_decomp
    /\ dict_eq str_eq_dec em2 em1.
Proof.
  destruct (load_jmdict_Ok _ _ _ _ _ _ _ _ Hload) as (x' & Hx' & Hcases).
  rewrite Hxml in Hx'; inversion Hx'; subst x'; clear Hx'.
  destruct Hcases as [(shelf & Hs & Hq & _)|(_ & em & dm & Hxl & Hmax & Hfs)].
  { exfalso. pose proof (Hstale shelf Hs) as Hle.
    apply Qle_bool_iff in Hle. congruence. }
  destruct (load_xml_entries_Ok _ _ _ _ _ _ Hxl) as (es & Hidx).
  unfold xml_indexes in Hidx; cbn [fst snd] in Hidx.
  inversion Hidx as [[Hem Hdm]]; clear Hidx.
  destruct (set_max_entry_lens_Ok _ _ _ _ Hmax)
    as (max_text & max_decomp & Hmt & Hmd & Hloaded).
  set (em2 := group_by str_eq_dec JMdictEntry.text_form
                (concat (map snd dm)) []).
  assert (Heq : dict_eq str_eq_dec em2 em).
  { unfold em2. rewrite Hdm, Hem. apply reload_entry_map. }
  assert (Hnd : NoDup (dict_keys dm)).
  { rewrite Hdm. apply group_by_keys_NoDup; constructor. }
  assert (Hitems : load_shelf_items (dict_items dm) = (em2, dm)).
  { rewrite load_shelf_items_spec. unfold dict_items. f_equal.
    apply (dict_set_items strs_eq_dec dm []). exact Hnd. }
  exists em, dm, max_text, max_decomp, em2.
  exists {| _entry_map := Some em2; _mecab_decomp_map := Some dm;
            _max_text_form_len := Some max_text;
            _max_mecab_decomp_len := Some max_decomp |}.
  rewrite Hxml in Hfs.
  split; [exact Hloaded|]. split; [exact Hfs|].
  split; [|split; [reflexivity|exact Heq]].
  apply (load_jmdict_from_shelf mecab order self2 fs1 now2 fuel2 x
           {| shelf_mtime := now; _mecab_decomp_map_items := dict_items dm |}).
  - rewrite Hfs; reflexivity.
  - rewrite Hfs; reflexivity.
  - cbn [shelf_mtime].
    destruct (Qle_bool now (xml_mtime x)) eqn:Eq; [|reflexivity].
    apply Qle_bool_iff in Eq. exfalso.
    exact (Qlt_not_le _ _ Hnewer Eq).
  - cbn [_mecab_decomp_map_items]. rewrite Hitems; cbn [fst snd].
    apply set_max_entry_lens_run; [|exact Hmd].
    rewrite <- Hmt. apply py_max_same_elements. intros n.
    rewrite !in_map_iff. split; intros (k & Hk & Hin); exists k;
      (split; [exact Hk|]);
      apply (dict_eq_keys str_eq_dec em2 em Heq); exact Hin.
Qed.

Lemma cache_round_trip_witness :
  exists em1 dm1 max_text max_decomp em2 jm2,
    loaded Samples.sample_jmdict em1 dm1 max_text max_decomp
    /\ Samples.sample_fs_loaded
       = {| xml_file :=
              Some {| xml_mtime := 10; xml_root := Samples.sample_root |};
            shelf_file :=
              Some {| shelf_mtime := 20;
                      _mecab_decomp_map_items := dict_items dm1 |} |}
    /\ load_jmdict Samples.sample_mecab Samples.sample_tag_order new_JMdict
         Samples.sample_fs_loaded 30 0
       = Ok (jm2, Samples.sample_fs_loaded)
    /\ loaded jm2 em2 dm1 max_text max_decomp
    /\ dict_eq str_eq_dec em2 em1.
Proof.
  apply (cache_round_trip Samples.sample_mecab Samples.sample_tag_order
           new_JMdict new_JMdict Samples.sample_fs
           {| xml_mtime := 10; xml_root := Samples.sample_root |}
           20 5 Samples.sample_jmdict Samples.sample_fs_loaded 30 0).
  - reflexivity.
  - intros shelf H; discriminate H.
  - vm_compute; reflexivity.
  - reflexivity.
Defined.

(** ** C9: [contains_entry] and [get_entries] *)

Lemma dict_set_items_nonempty {K X : Type}
    (K_eq_dec : forall a b : K, {a = b} + {a <> b})
    (items d : @dict K (list X)) :
  nonempty_values items -> nonempty_values d ->
  nonempty_values
    (fold_left (fun d item => dict_set K_eq_dec d (fst item) (snd item))
               items d).
Proof.
  revert d; induction items as [|[k l] items IH]; intros d Hi Hd;
    cbn [fold_left]; [assumption|].
  inversion Hi; subst. apply IH; [assumption|].
  apply dict_set_nonempty; assumption.
Qed.

(** The shelf the program leaves never has a key with an empty list. *)
Lemma reachable_shelf_nonempty mecab order fs :
  reachable_fs mecab order fs ->
  forall shelf,
    shelf_file fs = Some shelf ->
    nonempty_values (_mecab_decomp_map_items shelf).
Proof.
  induction 1 as [x|fs self now fuel jm fs' Hreach IH Hload|fs x Hreach IH];
    intros shelf Hs.
  - discriminate Hs.
  - destruct (load_jmdict_Ok _ _ _ _ _ _ _ _ Hload) as (x & _ & Hcases).
    destruct Hcases as [(shelf0 & _ & _ & -> & _)|(_ & em & dm & Hxl & _ & ->)].
    + apply IH; exact Hs.
    + cbn in Hs. inversion Hs; subst shelf; cbn.
      destruct (load_xml_entries_Ok _ _ _ _ _ _ Hxl) as (es & Hidx).
      inversion Hidx; subst. apply group_by_nonempty. constructor.
  - apply IH; exact Hs.
Qed.

(** After a successful load, the object holds the two maps and the two
    maximal lengths, and no key of a map has an empty list. *)
Lemma load_jmdict_loaded mecab order fs self now fuel jm fs' :
  reachable_fs mecab order fs ->
  load_jmdict mecab order self fs now fuel = Ok (jm, fs') ->
  exists em dm max_text max_decomp,
    loaded jm em dm max_text max_decomp
    /\ nonempty_values em /\ nonempty_values dm.
Proof.
  intros Hreach Hload.
  destruct (load_jmdict_Ok _ _ _ _ _ _ _ _ Hload) as (x & _ & Hcases).
  destruct Hcases as [(shelf & Hs & _ & _ & Hmax)|(_ & em & dm & Hxl & Hmax & _)].
  - rewrite load_shelf_items_spec in Hmax; cbn [fst snd] in Hmax.
    destruct (set_max_entry_lens_Ok _ _ _ _ Hmax) as (mt & md & _ & _ & Hl).
    do 4 eexists. split; [exact Hl|]. split.
    + apply group_by_nonempty; constructor.
    + apply dict_set_items_nonempty; [|constructor].
      exact (reachable_shelf_nonempty _ _ _ Hreach shelf Hs).
  - destruct (set_max_entry_lens_Ok _ _ _ _ Hmax) as (mt & md & _ & _ & Hl).
    destruct (load_xml_entries_Ok _ _ _ _ _ _ Hxl) as (es & Hidx).
    inversion Hidx; subst.
    do 4 eexists. split; [exact Hl|].
    split; apply group_by_nonempty; constructor.
Qed.

Lemma contains_get_dict {K X : Type}
    (K_eq_dec : forall a b : K, {a = b} + {a <> b})
    (d : @dict K (list X)) k :
  nonempty_values d ->
  dict_contains K_eq_dec d k = true
  <-> match dict_get K_eq_dec d k with Some l => l | None => [] end <> [].
Proof.
  intros Hd. unfold dict_contains.
  destruct (dict_get K_eq_dec d k) as [l|] eqn:E.
  - split; [intros _|reflexivity].
    exact (nonempty_values_get K_eq_dec d k l Hd E).
  - split; [discriminate|congruence].
Qed.

(** C9.  After a successful [load_jmdict], in a file system the program can
    have left, [contains_entry] and [get_entries] return for every key, a
    text form or a decomposition, and [contains_entry] is [True] if and
    only if the list of [get_entries] is not empty.  On an object that has
    loaded nothing, both raise [ResourceNotReadyError]. *)
Theorem contains_entry_iff_get_entries_nonempty
    mecab order fs self now fuel jm fs'
    (Hreach : reachable_fs mecab order fs)
    (Hload : load_jmdict mecab order self fs now fuel = Ok (jm, fs')) :
  (forall key, exists b l,
      contains_entry jm key = Ok b
      /\ get_entries jm key = Ok l
      /\ (b = true <-> l <> []))
  /\ (forall key,
         contains_entry new_JMdict key = Raise ResourceNotReadyError
         /\ get_entries new_JMdict key = Raise ResourceNotReadyError).
Proof.
  split; [|intros key; split; reflexivity].
  destruct (load_jmdict_loaded _ _ _ _ _ _ _ _ Hreach Hload)
    as (em & dm & mt & md & -> & Hem & Hdm).
  intros [s|d]; simpl; do 2 eexists;
    (split; [reflexivity|]); (split; [reflexivity|]);
    apply contains_get_dict; assumption.
Qed.

Lemma contains_entry_iff_get_entries_nonempty_witness :
  (forall key, exists b l,
      contains_entry Samples.sample_jmdict key = Ok b
      /\ get_entries Samples.sample_jmdict key = Ok l
      /\ (b = true <-> l <> []))
  /\ (forall key,
         contains_entry new_JMdict key = Raise ResourceNotReadyError
         /\ get_entries new_JMdict key = Raise ResourceNotReadyError).
Proof.
  apply (contains_entry_iff_get_entries_nonempty Samples.sample_mecab
           Samples.sample_tag_order Samples.sample_fs new_JMdict 20 5
           Samples.sample_jmdict Samples.sample_fs_loaded).
  - apply reachable_no_shelf.
  - vm_compute; reflexivity.
Defined.

(** ** The run of [_find_lexical_items] *)

Lemma item_of_line_position tags offset fli :
  item_of_line tags offset = Ok fli ->
  found_positions fli
  = [ {| start := offset; len := length (nth 0 tags []) |} ].
Proof.
  unfold item_of_line, _create_found_lexical_item; intros H.
  bind_inv H. bind_inv H. bind_inv H. bind_inv H.
  inversion H; subst fli; clear H.
  assert (E : a1 = nth 0 tags []).
  { unfold index in Ha1. destruct tags; simpl in *;
      [discriminate|inversion Ha1; reflexivity]. }
  subst a1. unfold cache_surface_form.
  destruct (str_eq_dec _ _); reflexivity.
Qed.

(** Every item [parse] returns has a position. *)
Lemma parse_loop_positions fuel text text_offset toks cursor acc out :
  Forall has_position acc ->
  parse_loop fuel text text_offset toks cursor acc = Ok out ->
  Forall has_position out.
Proof.
  revert cursor acc; induction toks as [|tags toks IH];
    intros cursor acc Hacc H.
  - inversion H; subst; assumption.
  - rewrite parse_loop_unfold in H.
    destruct (is_eos tags); [eapply IH; eassumption|].
    destruct (negb (accepted_count tags)); [discriminate|].
    bind_inv H. bind_inv H. bind_inv H.
    eapply IH; [|eassumption].
    apply Forall_app; split; [assumption|].
    constructor; [|constructor].
    unfold has_position. rewrite (item_of_line_position _ _ _ Ha1).
    discriminate.
Qed.

Lemma parse_positions mecab fuel text text_offset base :
  parse mecab fuel text text_offset = Ok base -> Forall has_position base.
Proof.
  unfold parse. apply parse_loop_positions. constructor.
Qed.

(** With a loaded dictionary, [_find_lexical_items] returns whenever the
    tagger adapter does. *)
Lemma find_lexical_items_returns
    mecab jm em dm max_text max_decomp fuel text offset art base :
  loaded jm em dm max_text max_decomp ->
  parse mecab fuel text offset = Ok base ->
  exists out, _find_lexical_items mecab jm fuel text offset art = Ok out.
Proof.
  intros Hloaded Hbase. unfold _find_lexical_items.
  rewrite Hbase; cbn [bind].
  rewrite (find_meta_lexical_items_run jm em dm max_text max_decomp);
    [cbn [bind]; eauto|assumption|].
  apply parse_positions in Hbase. rewrite Forall_forall in *.
  intros b Hb. apply in_map_iff in Hb. destruct Hb as (b0 & <- & Hb0).
  exact (Hbase b0 Hb0).
Qed.

(* ===================================================================== *)
(** * Further properties of the tagger adapter *)
(* ===================================================================== *)

(** Whatever [parse] returns was made line by line, at first matches. *)
Lemma parse_loop_parsed_from fuel text text_offset toks cursor acc out :
  parse_loop fuel text text_offset toks cursor acc = Ok out ->
  exists flis cursor',
    out = acc ++ flis
    /\ parsed_from text text_offset cursor (token_lines toks) flis cursor'.
Proof.
  revert cursor acc; induction toks as [|tags toks IH]; intros cursor acc H.
  - inversion H; subst. exists [], cursor. rewrite app_nil_r.
    split; [reflexivity|constructor].
  - rewrite parse_loop_unfold in H. unfold token_lines; cbn [filter].
    destruct (is_eos tags) eqn:E1; cbn [negb].
    + apply IH; exact H.
    + destruct (accepted_count tags) eqn:E2; [|discriminate].
      cbn [negb] in H. rewrite (index_0_accepted _ E2) in H; cbn [bind] in H.
      bind_inv H. bind_inv H.
      destruct (IH _ _ H) as (flis & cursor' & -> & Hrest).
      exists (a0 :: flis), cursor'. rewrite <- app_assoc.
      split; [reflexivity|].
      econstructor; try eassumption.
      eapply align_sound; eassumption.
Qed.

Lemma item_of_line_shape tags offset fli :
  accepted_count tags = true ->
  item_of_line tags offset = Ok fli ->
  base_form fli = nth 2 tags []
  /\ found_positions fli
     = [ {| start := offset; len := length (nth 0 tags []) |} ]
  /\ exists mi,
      possible_interps fli
      = [ {| mecab_interp := Some mi;
             jmdict_interp_entry_id := None;
             interp_sources := [MECAB] |} ]
      /\ MyakuDatatypes.parts_of_speech mi
         = split _POS_SPLITTER (nth 3 tags []).
Proof.
  intros H Hfli. apply accepted_count_cases in H.
  destruct H as [H|[H|H]]; explode_tags tags H;
    unfold item_of_line, _create_found_lexical_item, cache_surface_form
      in Hfli; simpl in Hfli;
    match type of Hfli with
    | context [str_eq_dec ?a ?b] => destruct (str_eq_dec a b)
    end; inversion Hfli; subst fli; simpl;
    (split; [reflexivity|]); (split; [reflexivity|]);
    eexists; split; reflexivity.
Qed.

(** A match ends inside the text. *)
Lemma matches_at_end text tok p :
  matches_at text tok p -> tok <> [] -> p + length tok <= length text.
Proof.
  unfold matches_at; intros H Hne.
  apply (f_equal (@length _)) in H. rewrite slice_length in H.
  destruct tok as [|c tok]; [congruence|]. simpl in *. lia.
Qed.

Lemma first_match_empty text cursor p :
  first_match_from text [] cursor p -> p = cursor.
Proof.
  intros (Hle & _ & Hfirst).
  destruct (Nat.eq_dec p cursor) as [|Hne]; [assumption|].
  exfalso; apply (Hfirst cursor); [lia|apply matches_at_empty].
Qed.

Lemma parsed_from_in_order text text_offset cursor lines flis cursor' :
  parsed_from text text_offset cursor lines flis cursor' ->
  cursor <= length text ->
  in_order (text_offset + cursor) (flat_map found_positions flis)
    (text_offset + length text).
Proof.
  induction 1 as [cursor|cursor tags lines p fli flis cursor' Hacc Hfirst
                    Hfli Hrest IH]; intros Hcur; simpl.
  - lia.
  - destruct (item_of_line_shape _ _ _ Hacc Hfli) as (_ & Hpos & _).
    rewrite Hpos; simpl.
    split; [destruct Hfirst; lia|].
    replace (text_offset + p + length (nth 0 tags []))
      with (text_offset + (p + length (nth 0 tags []))) by lia.
    apply IH.
    destruct (nth 0 tags []) as [|c tok] eqn:Etok.
    + apply first_match_empty in Hfirst. simpl; lia.
    + destruct Hfirst as (_ & Hm & _).
      apply matches_at_end in Hm; [exact Hm|discriminate].
Qed.

Lemma parsed_from_Forall2 text text_offset cursor lines flis cursor' :
  parsed_from text text_offset cursor lines flis cursor' ->
  Forall2
    (fun tags fli =>
       accepted_count tags = true
       /\ base_form fli = nth 2 tags []
       /\ (exists p,
              found_positions fli
              = [ {| start := text_offset + p;
                     len := length (nth 0 tags []) |} ]
              /\ matches_at text (nth 0 tags []) p)
       /\ exists mi,
           possible_interps fli
           = [ {| mecab_interp := Some mi;
                  jmdict_interp_entry_id := None;
                  interp_sources := [MECAB] |} ]
           /\ MyakuDatatypes.parts_of_speech mi
              = split _POS_SPLITTER (nth 3 tags []))
    lines flis.
Proof.
  induction 1 as [cursor|cursor tags lines p fli flis cursor' Hacc Hfirst
                    Hfli Hrest IH]; constructor; [|exact IH].
  destruct (item_of_line_shape _ _ _ Hacc Hfli) as (Hb & Hpos & Hint).
  split; [exact Hacc|]. split; [exact Hb|].
  split; [|exact Hint].
  exists p; split; [exact Hpos|]. destruct Hfirst as (_ & Hm & _); exact Hm.
Qed.

Lemma parse_parsed_from mecab fuel text text_offset flis :
  parse mecab fuel text text_offset = Ok flis ->
  exists cursor',
    parsed_from text text_offset 0
      (token_lines (_parse_mecab_output (mecab text))) flis cursor'.
Proof.
  unfold parse; intros Hrun.
  destruct (parse_loop_parsed_from _ _ _ _ _ _ _ Hrun)
    as (flis' & cursor' & E & Hp).
  simpl in E; subst flis'. exists cursor'; exact Hp.
Qed.

(** X1.  Whatever [parse] returns, it returns one item for every token
    list that [_parse_mecab_output] makes of the tagger output and that is
    not the end-of-section marker, in order.  A token list is what is left
    of a line of the output once [_adjust_if_known_problem] has corrected
    its columns and the empty columns are dropped, so its tokens need not
    be the columns the tagger wrote.  The list has four, five or six
    tokens, the base form of the item is token 2 of the list, its only
    position has the length of token 0 and starts where the text reads
    token 0, and its only interpretation is a MeCab interpretation, of
    source [MECAB], whose parts of speech are token 3 of the list split at
    the hyphens. *)
Theorem parse_returns_one_item_per_line mecab fuel text text_offset flis
    (Hrun : parse mecab fuel text text_offset = Ok flis) :
  Forall2
    (fun tags fli =>
       accepted_count tags = true
       /\ base_form fli = nth 2 tags []
       /\ (exists p,
              found_positions fli
              = [ {| start := text_offset + p;
                     len := length (nth 0 tags []) |} ]
              /\ matches_at text (nth 0 tags []) p)
       /\ exists mi,
           possible_interps fli
           = [ {| mecab_interp := Some mi;
                  jmdict_interp_entry_id := None;
                  interp_sources := [MECAB] |} ]
           /\ MyakuDatatypes.parts_of_speech mi
              = split _POS_SPLITTER (nth 3 tags []))
    (token_lines (_parse_mecab_output (mecab text))) flis.
Proof.
  destruct (parse_parsed_from _ _ _ _ _ Hrun) as (cursor' & Hp).
  eapply parsed_from_Forall2; exact Hp.
Qed.

(** X2.  The positions of the items [parse] returns, read in the order of
    the items, lie inside the block of text, between [text_offset] and
    [text_offset + len(text)], and none starts before the end of the one
    before: they are sorted and do not overlap. *)
Theorem parse_positions_in_order mecab fuel text text_offset flis
    (Hrun : parse mecab fuel text text_offset = Ok flis) :
  in_order text_offset (flat_map found_positions flis)
    (text_offset + length text).
Proof.
  unfold parse in Hrun.
  destruct (parse_loop_parsed_from _ _ _ _ _ _ _ Hrun)
    as (flis' & cursor' & E & Hp).
  simpl in E; subst flis'.
  pose proof (parsed_from_in_order _ _ _ _ _ _ Hp (Nat.le_0_l _)) as H.
  rewrite Nat.add_0_r in H. exact H.
Qed.

Lemma parse_returns_one_item_per_line_witness :
  Forall2
    (fun tags fli =>
       accepted_count tags = true
       /\ base_form fli = nth 2 tags []
       /\ (exists p,
              found_positions fli
              = [ {| start := 10 + p; len := length (nth 0 tags []) |} ]
              /\ matches_at (u "猫 が 走る") (nth 0 tags []) p)
       /\ exists mi,
           possible_interps fli
           = [ {| mecab_interp := Some mi;
                  jmdict_interp_entry_id := None;
                  interp_sources := [MECAB] |} ]
           /\ MyakuDatatypes.parts_of_speech mi
              = split _POS_SPLITTER (nth 3 tags []))
    (token_lines
       (_parse_mecab_output (Samples.sample_mecab (u "猫 が 走る"))))
    Fixtures.neko_items.
Proof.
  apply (parse_returns_one_item_per_line Samples.sample_mecab 6
           (u "猫 が 走る") 10 Fixtures.neko_items).
  vm_compute; reflexivity.
Defined.

Lemma parse_positions_in_order_witness :
  in_order 10 (flat_map found_positions Fixtures.neko_items)
    (10 + length (u "猫 が 走る")).
Proof.
  apply (parse_positions_in_order Samples.sample_mecab 6
           (u "猫 が 走る") 10 Fixtures.neko_items).
  vm_compute; reflexivity.
Defined.

(** No token list of [_parse_mecab_output] holds an empty token. *)
Lemma parse_mecab_output_tokens_nonempty output tags :
  In tags (_parse_mecab_output output) -> Forall (fun t => t <> []) tags.
Proof.
  unfold _parse_mecab_output; intros H. apply in_flat_map in H.
  destruct H as (line & _ & H).
  destruct (length line =? 0); [destruct H|].
  destruct H as [<-|[]]. apply Forall_forall; intros t Ht.
  apply filter_In in Ht. destruct Ht as [_ Ht].
  destruct t; [discriminate|discriminate].
Qed.

Lemma nth_In_nonempty (tags : list str) i :
  i < length tags -> Forall (fun t => t <> []) tags -> nth i tags [] <> [].
Proof.
  intros Hi Hall. rewrite Forall_forall in Hall.
  apply Hall, nth_In, Hi.
Qed.

(** X3.  Every item [parse] returns has a base form that is not empty and
    a position of at least one character: the tagger adapter never makes an
    item of an empty token, because [_parse_mecab_output] drops the empty
    columns of a line before the columns are counted. *)
Theorem parse_items_are_not_empty mecab fuel text text_offset flis
    (Hrun : parse mecab fuel text text_offset = Ok flis) :
  Forall
    (fun fli =>
       base_form fli <> []
       /\ exists p, found_positions fli = [p] /\ 1 <= len p)
    flis.
Proof.
  destruct (parse_parsed_from _ _ _ _ _ Hrun) as (cursor' & Hp).
  pose proof (parsed_from_Forall2 _ _ _ _ _ _ Hp) as Hall. clear Hp.
  assert (Htok : Forall (fun tags => Forall (fun t => t <> []) tags)
                   (token_lines (_parse_mecab_output (mecab text)))).
  { apply Forall_forall; intros tags Ht. unfold token_lines in Ht.
    apply filter_In in Ht. destruct Ht as [Ht _].
    eapply parse_mecab_output_tokens_nonempty; exact Ht. }
  clear Hrun. revert Htok.
  induction Hall as [|tags fli lines flis' Hx _ IH];
    intros Htok; constructor.
  - inversion Htok as [|? ? Hne _]; subst.
    destruct Hx as (Hacc & Hb & (p & Hpos & _) & _).
    apply accepted_count_cases in Hacc.
    split.
    + rewrite Hb. apply nth_In_nonempty; [lia|exact Hne].
    + eexists; split; [exact Hpos|]. simpl.
      assert (Hs : nth 0 tags [] <> [])
        by (apply nth_In_nonempty; [lia|exact Hne]).
      destruct (nth 0 tags []); [congruence|simpl; lia].
  - apply IH. inversion Htok as [|? ? _ Hrest]; subst. exact Hrest.
Qed.

Lemma parse_items_are_not_empty_witness :
  Forall
    (fun fli =>
       base_form fli <> []
       /\ exists p, found_positions fli = [p] /\ 1 <= len p)
    Fixtures.neko_items.
Proof.
  apply (parse_items_are_not_empty Samples.sample_mecab 6
           (u "猫 が 走る") 10 Fixtures.neko_items).
  vm_compute; reflexivity.
Defined.

Lemma length_list_set {A : Type} (l : list A) i x :
  i < length l -> length (list_set l i x) = length l.
Proof.
  intros Hi. unfold list_set.
  rewrite length_app, length_firstn. cbn [length].
  rewrite length_skipn. lia.
Qed.

Lemma nth_list_set_ne {A : Type} (l : list A) i j x d :
  i <> j -> i < length l -> nth j (list_set l i x) d = nth j l d.
Proof.
  intros Hne Hi. unfold list_set.
  destruct (Nat.lt_ge_cases j i) as [Hlt|Hge].
  - rewrite app_nth1 by (rewrite length_firstn; lia).
    rewrite <- (firstn_skipn i l) at 2.
    rewrite app_nth1 by (rewrite length_firstn; lia). reflexivity.
  - rewrite app_nth2 by (rewrite length_firstn; lia).
    rewrite length_firstn, Nat.min_l by lia.
    destruct (j - i) as [|k] eqn:E; [lia|]. simpl.
    rewrite <- (firstn_skipn (S i) l) at 2.
    rewrite app_nth2 by (rewrite length_firstn; lia).
    rewrite length_firstn, Nat.min_l by lia.
    f_equal; lia.
Qed.

Lemma nth_list_set_eq {A : Type} (l : list A) i x d :
  i < length l -> nth i (list_set l i x) d = x.
Proof.
  intros Hi. unfold list_set.
  rewrite app_nth2 by (rewrite length_firstn; lia).
  rewrite length_firstn, Nat.min_l by lia.
  rewrite Nat.sub_diag. reflexivity.
Qed.

(** The table of known problems maps a line to a line of as many columns,
    with the same surface form and a base form that is not blank. *)
Lemma adjust_table_row tags adjusted :
  dict_get strs_eq_dec _ADJUST_TAGS_MAP tags = Some adjusted ->
  map (fun i => nth i adjusted []) (seq 0 (length tags))
  = [u "な"; u "ナ"; u "な"; u "助動詞"; u "特殊・ダ"; u "体言接続"]
  /\ length tags = 6
  /\ nth 0 tags [] = u "な".
Proof.
  unfold _ADJUST_TAGS_MAP; cbn [dict_get].
  destruct (strs_eq_dec tags _) as [->|]; [|discriminate].
  intros H; inversion H; subst. repeat split.
Qed.

(** X4.  [_adjust_if_known_problem] keeps the number of columns of a line
    and its surface form (column 0), and on a line of at least four columns
    with a surface form it leaves a base form (column 2) that is not
    blank. *)
Theorem adjust_if_known_problem_keeps_the_line (tags : list str) :
  length (_adjust_if_known_problem tags) = length tags
  /\ nth 0 (_adjust_if_known_problem tags) [] = nth 0 tags []
  /\ (4 <= length tags -> nth 0 tags [] <> [] ->
      nth 2 (_adjust_if_known_problem tags) [] <> []).
Proof.
  unfold _adjust_if_known_problem.
  set (tags1 := if (4 <=? length tags) && (0 <? length (nth 0 tags []))
                   && (length (nth 2 tags []) =? 0)
                then list_set tags 2 (nth 0 tags []) else tags).
  assert (H1 : length tags1 = length tags
               /\ nth 0 tags1 [] = nth 0 tags []
               /\ (4 <= length tags -> nth 0 tags [] <> [] ->
                   nth 2 tags1 [] <> [])).
  { unfold tags1.
    destruct (Nat.leb_spec 4 (length tags)) as [H4|H4]; cbn [andb].
    - destruct (Nat.ltb_spec 0 (length (nth 0 tags []))) as [H0|H0];
        cbn [andb].
      + destruct (Nat.eqb_spec (length (nth 2 tags [])) 0) as [H2|H2].
        * split; [apply length_list_set; lia|].
          split; [apply nth_list_set_ne; lia|].
          intros _ Hs. rewrite nth_list_set_eq by lia. exact Hs.
        * repeat split. intros _ _ E. rewrite E in H2. apply H2; reflexivity.
      + repeat split. intros _ Hs.
        destruct (nth 0 tags []); [congruence|simpl in H0; lia].
    - repeat split. intros; lia. }
  destruct H1 as (Hlen & Hsurf & Hbase).
  destruct (dict_get strs_eq_dec _ADJUST_TAGS_MAP tags1) as [adjusted|] eqn:E.
  - destruct (adjust_table_row _ _ E) as (-> & H6 & H0).
    repeat split.
    + simpl; lia.
    + rewrite <- Hsurf, H0. reflexivity.
    + intros _ _. vm_compute; discriminate.
  - repeat split; assumption.
Qed.

Lemma adjust_if_known_problem_keeps_the_line_witness :
  nth 2 (_adjust_if_known_problem
           [u "令和"; u "レイワ"; []; u "名詞-固有名詞"]) [] <> [].
Proof.
  apply (proj2 (proj2 (adjust_if_known_problem_keeps_the_line
                         [u "令和"; u "レイワ"; []; u "名詞-固有名詞"]))).
  - simpl; lia.
  - vm_compute; discriminate.
Defined.

(* ===================================================================== *)
(** * Further properties of the dictionary *)
(* ===================================================================== *)

Lemma list_max_In l : l <> [] -> In (list_max l) l.
Proof.
  induction l as [|y l IH]; [congruence|]. intros _.
  destruct l as [|z l].
  - simpl. left; lia.
  - change (list_max (y :: z :: l)) with (Nat.max y (list_max (z :: l))).
    destruct (Nat.max_spec y (list_max (z :: l))) as [[_ E]|[_ E]];
      rewrite E.
    + right; apply IH; discriminate.
    + left; reflexivity.
Qed.

Lemma py_max_spec l m :
  py_max l = Ok m -> Forall (fun x => x <= m) l /\ In m l.
Proof.
  intros H. destruct l as [|x l]; [discriminate|].
  cbn [py_max] in H. inversion H as [Hm]; clear H.
  rewrite fold_left_max_list_max.
  change (Nat.max x (list_max l)) with (list_max (x :: l)).
  split.
  - apply Forall_forall; intros y Hy. apply In_le_list_max; exact Hy.
  - apply list_max_In; discriminate.
Qed.

(** What every successful [load_jmdict] leaves in the object, whichever
    way it loads. *)
Lemma load_jmdict_maxima mecab order self fs now fuel jm fs' :
  load_jmdict mecab order self fs now fuel = Ok (jm, fs') ->
  exists (em : EntryMap) (dm : MecabDecompMap) max_text max_decomp,
    loaded jm em dm max_text max_decomp
    /\ py_max (map (@length codepoint) (dict_keys em)) = Ok max_text
    /\ py_max (map (@length str) (dict_keys dm)) = Ok max_decomp.
Proof.
  intros Hload.
  destruct (load_jmdict_Ok _ _ _ _ _ _ _ _ Hload) as (x & _ & Hcases).
  destruct Hcases as [(shelf & _ & _ & _ & Hmax)|(_ & em & dm & _ & Hmax & _)];
    destruct (set_max_entry_lens_Ok _ _ _ _ Hmax)
      as (mt & md & H1 & H2 & Hl); eauto 8.
Qed.

(** X5.  After a successful [load_jmdict], from the XML file or from the
    shelf, the two maximal lengths are there and they are exact:
    [max_text_form_len] is the length of a longest key of the text-form
    index and [max_mecab_decomp_len] the length of a longest key of the
    decomposition index, so no key of an index is longer than its
    bound. *)
Theorem max_entry_lens_are_the_longest_keys
    mecab order self fs now fuel jm fs'
    (Hload : load_jmdict mecab order self fs now fuel = Ok (jm, fs')) :
  exists (em : EntryMap) (dm : MecabDecompMap) max_text max_decomp,
    loaded jm em dm max_text max_decomp
    /\ max_text_form_len jm = Ok max_text
    /\ max_mecab_decomp_len jm = Ok max_decomp
    /\ (forall k, In k (dict_keys em) -> length k <= max_text)
    /\ (exists k, In k (dict_keys em) /\ length k = max_text)
    /\ (forall k, In k (dict_keys dm) -> length k <= max_decomp)
    /\ (exists k, In k (dict_keys dm) /\ length k = max_decomp).
Proof.
  destruct (load_jmdict_maxima _ _ _ _ _ _ _ _ Hload)
    as (em & dm & mt & md & Hl & H1 & H2).
  apply py_max_spec in H1. apply py_max_spec in H2.
  destruct H1 as [H1a H1b], H2 as [H2a H2b].
  rewrite Forall_forall in H1a, H2a.
  exists em, dm, mt, md. split; [exact Hl|].
  split; [rewrite Hl; reflexivity|]. split; [rewrite Hl; reflexivity|].
  split; [intros k Hk; apply H1a, in_map, Hk|].
  split.
  { apply in_map_iff in H1b. destruct H1b as (k & E & Hk). eauto. }
  split; [intros k Hk; apply H2a, in_map, Hk|].
  apply in_map_iff in H2b. destruct H2b as (k & E & Hk). eauto.
Qed.

Lemma max_entry_lens_are_the_longest_keys_witness :
  exists (em : EntryMap) (dm : MecabDecompMap) max_text max_decomp,
    loaded Samples.sample_jmdict em dm max_text max_decomp
    /\ max_text_form_len Samples.sample_jmdict = Ok max_text
    /\ max_mecab_decomp_len Samples.sample_jmdict = Ok max_decomp
    /\ (forall k, In k (dict_keys em) -> length k <= max_text)
    /\ (exists k, In k (dict_keys em) /\ length k = max_text)
    /\ (forall k, In k (dict_keys dm) -> length k <= max_decomp)
    /\ (exists k, In k (dict_keys dm) /\ length k = max_decomp).
Proof.
  apply (max_entry_lens_are_the_longest_keys Samples.sample_mecab
           Samples.sample_tag_order new_JMdict Samples.sample_fs 20 5
           Samples.sample_jmdict Samples.sample_fs_loaded).
  vm_compute; reflexivity.
Defined.

Section DocumentFacts.

Variable mecab : str -> str.
Variable sense_tag_order : list str.

Lemma index_entries_decomposed fuel objs st st' :
  for_each
    (fun (st : EntryMap * MecabDecompMap) entry_obj =>
       let '(em, dm) := st in
       mecab_decomp <- _get_mecab_decomb mecab fuel entry_obj ;;
       let dm := dict_append strs_eq_dec dm mecab_decomp entry_obj in
       let em :=
         dict_append str_eq_dec em (JMdictEntry.text_form entry_obj)
           entry_obj in
       Ok (em, dm))
    objs st = Ok st' ->
  Forall (decomposed mecab fuel) objs.
Proof.
  revert st; induction objs as [|e objs IH]; intros [em dm] H;
    cbn [for_each] in H; [constructor|].
  bind_inv H. bind_inv Ha. inversion Ha; subst a.
  constructor; [|eapply IH; eassumption].
  unfold decomposed. rewrite Ha0. f_equal.
  apply get_mecab_decomb_Ok; exact Ha0.
Qed.

Lemma load_xml_records_document fuel records st st' :
  for_each
    (fun st entry_element =>
       entry_objs <- _parse_entry_xml sense_tag_order entry_element ;;
       for_each
         (fun (st : EntryMap * MecabDecompMap) entry_obj =>
            let '(em, dm) := st in
            mecab_decomp <- _get_mecab_decomb mecab fuel entry_obj ;;
            let dm := dict_append strs_eq_dec dm mecab_decomp entry_obj in
            let em :=
              dict_append str_eq_dec em (JMdictEntry.text_form entry_obj)
                entry_obj in
            Ok (em, dm))
         entry_objs st)
    records st = Ok st' ->
  exists entry_lists,
    map_outcome (_parse_entry_xml sense_tag_order) records = Ok entry_lists
    /\ st' = xml_indexes mecab fuel (concat entry_lists) st
    /\ Forall (decomposed mecab fuel) (concat entry_lists).
Proof.
  revert st; induction records as [|r records IH]; intros st H;
    cbn [for_each] in H.
  - inversion H; subst. exists []; cbn. destruct st'.
    repeat split; constructor.
  - bind_inv H. bind_inv Ha.
    pose proof (index_entries_decomposed _ _ _ _ Ha) as Hdec.
    apply index_entries_Ok in Ha.
    destruct (IH _ H) as (ess & Hmap & -> & Hall). subst a.
    exists (a0 :: ess). cbn [map_outcome]. rewrite Ha0; cbn [bind].
    rewrite Hmap; cbn [bind concat].
    split; [reflexivity|]. split; [apply xml_indexes_app|].
    apply Forall_app; split; assumption.
Qed.

Lemma load_xml_entries_document fuel root em dm :
  load_xml_entries mecab sense_tag_order fuel root = Ok (em, dm) ->
  exists es,
    document_entries sense_tag_order root = Ok es
    /\ (em, dm) = xml_indexes mecab fuel es ([], [])
    /\ Forall (decomposed mecab fuel) es.
Proof.
  unfold load_xml_entries, document_entries; intros H.
  destruct (load_xml_records_document _ _ _ _ H) as (ess & Hmap & E & Hall).
  exists (concat ess). rewrite Hmap. repeat split; assumption.
Qed.

(** A load that reads the XML file. *)
Lemma load_jmdict_reads_xml self fs x now fuel jm fs' :
  reads_xml fs x ->
  load_jmdict mecab sense_tag_order self fs now fuel = Ok (jm, fs') ->
  exists es (em : EntryMap) (dm : MecabDecompMap) max_text max_decomp,
    document_entries sense_tag_order (xml_root x) = Ok es
    /\ (em, dm) = xml_indexes mecab fuel es ([], [])
    /\ Forall (decomposed mecab fuel) es
    /\ loaded jm em dm max_text max_decomp
    /\ fs' = {| xml_file := Some x;
                shelf_file :=
                  Some {| shelf_mtime := now;
                          _mecab_decomp_map_items := dict_items dm |} |}.
Proof.
  intros (Hxml & Hstale) Hload.
  destruct (load_jmdict_Ok _ _ _ _ _ _ _ _ Hload) as (x' & Hx' & Hcases).
  rewrite Hxml in Hx'; inversion Hx'; subst x'; clear Hx'.
  destruct Hcases as [(shelf & Hs & Hq & _)|(_ & em & dm & Hxl & Hmax & Hfs)].
  { exfalso. pose proof (Hstale shelf Hs) as Hle.
    apply Qle_bool_iff in Hle. congruence. }
  destruct (load_xml_entries_document _ _ _ _ Hxl) as (es & Hdoc & Hidx & Hall).
  destruct (set_max_entry_lens_Ok _ _ _ _ Hmax) as (mt & md & _ & _ & Hl).
  rewrite Hxml in Hfs.
  exists es, em, dm, mt, md. repeat split; assumption.
Qed.

End DocumentFacts.

Lemma group_by_lookup {K X : Type}
    (K_eq_dec : forall a b : K, {a = b} + {a <> b}) (key : X -> K) xs k :
  match dict_get K_eq_dec (group_by K_eq_dec key xs []) k with
  | Some l => l
  | None => []
  end = filter (has_key K_eq_dec key k) xs.
Proof.
  rewrite group_by_get; cbn [dict_get].
  destruct (filter (has_key K_eq_dec key k) xs); reflexivity.
Qed.

(** X6.  After a [load_jmdict] that reads the XML file, the indexes are
    those of the document: [get_entries] of a text form returns exactly the
    entries of the document with that text form, in document order, and
    [get_entries] of a decomposition exactly the entries whose text form
    the tagger adapter decomposes that way, in document order. *)
Theorem xml_load_indexes_the_document
    mecab order self fs x now fuel jm fs'
    (Hreads : reads_xml fs x)
    (Hload : load_jmdict mecab order self fs now fuel = Ok (jm, fs')) :
  exists es,
    document_entries order (xml_root x) = Ok es
    /\ Forall (decomposed mecab fuel) es
    /\ (forall s,
           get_entries jm (TextForm s)
           = Ok (filter (has_key str_eq_dec JMdictEntry.text_form s) es))
    /\ (forall d,
           get_entries jm (MecabDecomp d)
           = Ok (filter
                   (has_key strs_eq_dec
                      (fun e => decomposition mecab fuel
                                  (JMdictEntry.text_form e)) d)
                   es)).
Proof.
  destruct (load_jmdict_reads_xml _ _ _ _ _ _ _ _ _ Hreads Hload)
    as (es & em & dm & mt & md & Hdoc & Hidx & Hdec & Hl & _).
  unfold xml_indexes in Hidx; cbn [fst snd] in Hidx.
  inversion Hidx as [[Hem Hdm]]; clear Hidx.
  destruct (get_entries_loaded _ _ _ _ _ Hl) as [Htext Hdecomp].
  exists es. split; [exact Hdoc|]. split; [exact Hdec|]. split.
  - intros s. rewrite Htext. unfold lookup_text. rewrite Hem.
    rewrite group_by_lookup. reflexivity.
  - intros d. rewrite Hdecomp. unfold lookup_decomp. rewrite Hdm.
    rewrite group_by_lookup. reflexivity.
Qed.

Lemma reads_sample_xml :
  reads_xml Samples.sample_fs
    {| xml_mtime := 10; xml_root := Samples.sample_root |}.
Proof. split; [reflexivity|]. intros shelf H; discriminate H. Qed.

Lemma xml_load_indexes_the_document_witness :
  exists es,
    document_entries Samples.sample_tag_order Samples.sample_root = Ok es
    /\ Forall (decomposed Samples.sample_mecab 5) es
    /\ (forall s,
           get_entries Samples.sample_jmdict (TextForm s)
           = Ok (filter (has_key str_eq_dec JMdictEntry.text_form s) es))
    /\ (forall d,
           get_entries Samples.sample_jmdict (MecabDecomp d)
           = Ok (filter
                   (has_key strs_eq_dec
                      (fun e => decomposition Samples.sample_mecab 5
                                  (JMdictEntry.text_form e)) d)
                   es)).
Proof.
  apply (xml_load_indexes_the_document Samples.sample_mecab
           Samples.sample_tag_order new_JMdict Samples.sample_fs
           {| xml_mtime := 10; xml_root := Samples.sample_root |}
           20 5 Samples.sample_jmdict Samples.sample_fs_loaded).
  - exact reads_sample_xml.
  - vm_compute; reflexivity.
Defined.

(** ** What the shelf holds *)

Lemma dict_set_snoc_perm {K X : Type}
    (K_eq_dec : forall a b : K, {a = b} + {a <> b})
    (d : @dict K (list X)) k l x :
  dict_get K_eq_dec d k = Some l ->
  Permutation (concat (map snd (dict_set K_eq_dec d k (l ++ [x]))))
              (x :: concat (map snd d)).
Proof.
  induction d as [|[k' l'] d IH]; cbn [dict_get dict_set]; [discriminate|].
  destruct (K_eq_dec k k') as [->|Hne]; intros H.
  - inversion H; subst l'. cbn [map snd concat].
    rewrite <- app_assoc. symmetry. apply Permutation_middle.
  - cbn [map snd concat].
    etransitivity; [apply Permutation_app_head, IH, H|].
    symmetry; apply Permutation_middle.
Qed.

Lemma dict_set_new_perm {K X : Type}
    (K_eq_dec : forall a b : K, {a = b} + {a <> b})
    (d : @dict K (list X)) k x :
  dict_get K_eq_dec d k = None ->
  Permutation (concat (map snd (dict_set K_eq_dec d k ([] ++ [x]))))
              (x :: concat (map snd d)).
Proof.
  induction d as [|[k' l'] d IH]; cbn [dict_get dict_set].
  - intros _. simpl. reflexivity.
  - destruct (K_eq_dec k k') as [->|Hne]; intros H; [discriminate|].
    cbn [map snd concat].
    etransitivity; [apply Permutation_app_head, IH, H|].
    symmetry; apply Permutation_middle.
Qed.

Lemma dict_set_append_perm {K X : Type}
    (K_eq_dec : forall a b : K, {a = b} + {a <> b})
    (d : @dict K (list X)) k x :
  Permutation (concat (map snd (dict_append K_eq_dec d k x)))
              (x :: concat (map snd d)).
Proof.
  unfold dict_append. destruct (dict_get K_eq_dec d k) as [l|] eqn:E.
  - apply dict_set_snoc_perm; exact E.
  - apply dict_set_new_perm; exact E.
Qed.

Lemma group_by_perm {K X : Type}
    (K_eq_dec : forall a b : K, {a = b} + {a <> b}) (key : X -> K) xs
    (d : @dict K (list X)) :
  Permutation (concat (map snd (group_by K_eq_dec key xs d)))
              (concat (map snd d) ++ xs).
Proof.
  unfold group_by. revert d; induction xs as [|x xs IH]; intros d;
    cbn [fold_left].
  - rewrite app_nil_r; reflexivity.
  - rewrite IH. rewrite dict_set_append_perm.
    cbn [app]. apply Permutation_middle.
Qed.

Lemma group_by_items_keyed {K X : Type}
    (K_eq_dec : forall a b : K, {a = b} + {a <> b}) (key : X -> K) xs k l :
  In (k, l) (group_by K_eq_dec key xs []) ->
  l <> [] /\ Forall (fun x => key x = k) l.
Proof.
  intros Hin.
  assert (Hnd : NoDup (dict_keys (group_by K_eq_dec key xs [])))
    by (apply group_by_keys_NoDup; constructor).
  pose proof (dict_In_get K_eq_dec _ k l Hnd Hin) as Hget.
  rewrite group_by_get in Hget; cbn [dict_get] in Hget.
  destruct (filter (has_key K_eq_dec key k) xs) as [|y ys] eqn:E;
    [discriminate|].
  inversion Hget; subst l; cbn [app]. split; [discriminate|].
  rewrite <- E. apply Forall_forall; intros z Hz.
  apply filter_In in Hz. destruct Hz as [_ Hz]. unfold has_key in Hz.
  destruct (K_eq_dec (key z) k); [assumption|discriminate].
Qed.

(** X7.  A [load_jmdict] that reads the XML file leaves a shelf, written
    at [now], that holds every entry of the document exactly once: the
    keys of its items are distinct, no item has an empty list, every entry
    of an item has a text form that the tagger adapter decomposes into the
    key of the item, and the lists put together are the entries of the
    document up to their order. *)
Theorem xml_load_writes_every_entry_once
    mecab order self fs x now fuel jm fs'
    (Hreads : reads_xml fs x)
    (Hload : load_jmdict mecab order self fs now fuel = Ok (jm, fs')) :
  exists es items,
    document_entries order (xml_root x) = Ok es
    /\ fs' = {| xml_file := Some x;
                shelf_file :=
                  Some {| shelf_mtime := now;
                          _mecab_decomp_map_items := items |} |}
    /\ NoDup (map fst items)
    /\ Forall
         (fun item =>
            snd item <> []
            /\ Forall
                 (fun e => decomposition mecab fuel (JMdictEntry.text_form e)
                           = fst item)
                 (snd item))
         items
    /\ Permutation (concat (map snd items)) es.
Proof.
  destruct (load_jmdict_reads_xml _ _ _ _ _ _ _ _ _ Hreads Hload)
    as (es & em & dm & mt & md & Hdoc & Hidx & _ & _ & Hfs).
  unfold xml_indexes in Hidx; cbn [fst snd] in Hidx.
  inversion Hidx as [[Hem Hdm]]; clear Hidx.
  exists es, dm. split; [exact Hdoc|]. split; [exact Hfs|].
  split; [rewrite Hdm; apply (group_by_keys_NoDup strs_eq_dec); constructor|].
  split.
  - apply Forall_forall; intros [k l] Hin. rewrite Hdm in Hin. cbn [fst snd].
    exact (group_by_items_keyed strs_eq_dec _ es k l Hin).
  - rewrite Hdm. rewrite group_by_perm. reflexivity.
Qed.

Lemma xml_load_writes_every_entry_once_witness :
  exists es items,
    document_entries Samples.sample_tag_order Samples.sample_root = Ok es
    /\ Samples.sample_fs_loaded
       = {| xml_file :=
              Some {| xml_mtime := 10; xml_root := Samples.sample_root |};
            shelf_file :=
              Some {| shelf_mtime := 20;
                      _mecab_decomp_map_items := items |} |}
    /\ NoDup (map fst items)
    /\ Forall
         (fun item =>
            snd item <> []
            /\ Forall
                 (fun e => decomposition Samples.sample_mecab 5
                             (JMdictEntry.text_form e)
                           = fst item)
                 (snd item))
         items
    /\ Permutation (concat (map snd items)) es.
Proof.
  apply (xml_load_writes_every_entry_once Samples.sample_mecab
           Samples.sample_tag_order new_JMdict Samples.sample_fs
           {| xml_mtime := 10; xml_root := Samples.sample_root |}
           20 5 Samples.sample_jmdict Samples.sample_fs_loaded).
  - exact reads_sample_xml.
  - vm_compute; reflexivity.
Defined.

(** ** How calls end *)

Lemma ends_with_bind {A B : Type} allowed (c : outcome A)
    (k : A -> outcome B) :
  ends_with allowed c ->
  (forall a, c = Ok a -> ends_with allowed (k a)) ->
  ends_with allowed (bind c k).
Proof.
  destruct c as [a|e|]; simpl; intros Hc Hk; auto.
Qed.

Lemma ends_with_for_each {A S : Type} allowed
    (body : S -> A -> outcome S) l s :
  (forall s a, In a l -> ends_with allowed (body s a)) ->
  ends_with allowed (for_each body l s).
Proof.
  revert s; induction l as [|a l IH]; intros s H; cbn [for_each].
  - exact I.
  - apply ends_with_bind; [apply H; left; reflexivity|].
    intros s' _. apply IH. intros; apply H; right; assumption.
Qed.

(** A loop whose body always ends, and raises [e] at one element whatever
    the state, raises. *)
Lemma for_each_raises {A S : Type} (e : error)
    (body : S -> A -> outcome S) l s a0 :
  (forall s a, In a l -> ends_with [e] (body s a)) ->
  In a0 l ->
  (forall s, body s a0 = Raise e) ->
  for_each body l s = Raise e.
Proof.
  revert s; induction l as [|a l IH]; intros s Hend Hin Hraise;
    [destruct Hin|].
  cbn [for_each]. destruct Hin as [->|Hin].
  - rewrite Hraise; reflexivity.
  - pose proof (Hend s a (or_introl eq_refl)) as Ha.
    destruct (body s a) as [s'|e'|]; cbn [bind].
    + apply IH; [|assumption|assumption].
      intros; apply Hend; right; assumption.
    + simpl in Ha. destruct Ha as [<-|[]]; reflexivity.
    + destruct Ha.
Qed.

(** ** Parsing a record of the document *)

Lemma raise_if_no_text_ends el :
  ends_with [ResourceLoadError] (_raise_if_no_text el).
Proof.
  unfold _raise_if_no_text. destruct (Xml.text el) as [s|]; simpl; auto.
  destruct (0 <? length s); simpl; auto.
Qed.

Lemma parse_text_elements_ends {S : Type} (store : S -> str -> str -> S)
    obj parent tags required :
  ends_with [ResourceLoadError]
    (_parse_text_elements store obj parent tags required).
Proof.
  unfold _parse_text_elements. apply ends_with_for_each. intros o tag _.
  apply ends_with_bind.
  - destruct required; [|exact I]. unfold _find_all_raise_if_none.
    destruct (length (Xml.findall tag parent) =? 0); simpl; auto.
  - intros els _. apply ends_with_for_each. intros o' el _.
    apply ends_with_bind; [apply raise_if_no_text_ends|]. intros; exact I.
Qed.

Lemma tag_in_spec tag tags :
  tag_in tag tags = true <-> exists t, In t tags /\ tag = u t.
Proof.
  unfold tag_in. rewrite existsb_exists. split.
  - intros (t & Hin & H). exists t; split; [exact Hin|].
    destruct (str_eq_dec tag (u t)); [assumption|discriminate].
  - intros (t & Hin & ->). exists t; split; [exact Hin|].
    destruct (str_eq_dec (u t) (u t)); congruence.
Qed.

Lemma is_repr_cases el :
  is_repr el = true ->
  Xml.tag el = u "k_ele" \/ Xml.tag el = u "r_ele".
Proof.
  unfold is_repr; intros H. apply tag_in_spec in H.
  destruct H as (t & [<-|[<-|[]]] & H); auto.
Qed.

Lemma entry_of_attrs_ends o :
  ends_with [ResourceLoadError] (entry_of_attrs o).
Proof.
  unfold entry_of_attrs. destruct (a_entry_id o), (a_text_form o);
    simpl; auto.
Qed.

(** [_parse_entry_xml] returns or raises [ResourceLoadError]. *)
Lemma parse_entry_xml_body_ends order entry st el :
  ends_with [ResourceLoadError]
    ((fun (st : list JMdictEntry.t * list _JMdictSense.t) element =>
        let '(repr_objs, sense_objs) := st in
        if tag_in (Xml.tag element) ["k_ele"; "r_ele"]%string then
          let repr_obj :=
            {| a_entry_id := None; a_text_form := None;
               a_text_form_info := None; a_text_form_freq := None |} in
          repr_obj <- _parse_text_elements store_entry_attr repr_obj
                        entry [_ENTRY_ID_TAG] true ;;
          text_form_tag <-
            match dict_get str_eq_dec _REPR_TEXT_FORM_TAG (Xml.tag element)
            with Some t => Ok t | None => Raise IndexError end ;;
          repr_obj <- _parse_text_elements store_entry_attr repr_obj
                        element [text_form_tag] true ;;
          optional_tags <-
            match dict_get str_eq_dec _REPR_OPTIONAL_TAGS (Xml.tag element)
            with Some t => Ok t | None => Raise IndexError end ;;
          repr_obj <- _parse_text_elements store_entry_attr repr_obj
                        element optional_tags false ;;
          repr_obj <- entry_of_attrs repr_obj ;;
          Ok (repr_objs ++ [repr_obj], sense_objs)
        else if str_eq_dec (Xml.tag element) _SENSE_ELEMENT_TAG then
          sense_obj <- _parse_text_elements store_sense_attr
                         _JMdictSense.new element
                         (_SENSE_OPTIONAL_TAGS order) false ;;
          Ok (repr_objs, sense_objs ++ [sense_obj])
        else if negb (if str_eq_dec (Xml.tag element) _ENTRY_ID_TAG
                      then true else false)
        then Raise ResourceLoadError
        else Ok (repr_objs, sense_objs)) st el).
Proof.
  destruct st as [repr_objs sense_objs]. cbv beta iota zeta.
  destruct (tag_in (Xml.tag el) ["k_ele"; "r_ele"]%string) eqn:Er.
  - apply ends_with_bind; [apply parse_text_elements_ends|]. intros o1 _.
    destruct (is_repr_cases el Er) as [E|E]; rewrite E.
    + change (dict_get str_eq_dec _REPR_TEXT_FORM_TAG (u "k_ele"))
        with (Some (u "keb")).
      change (dict_get str_eq_dec _REPR_OPTIONAL_TAGS (u "k_ele"))
        with (Some [u "ke_inf"; u "ke_pri"]).
      cbn [bind].
      apply ends_with_bind; [apply parse_text_elements_ends|]. intros o2 _.
      apply ends_with_bind; [apply parse_text_elements_ends|]. intros o3 _.
      apply ends_with_bind; [apply entry_of_attrs_ends|]. intros; exact I.
    + change (dict_get str_eq_dec _REPR_TEXT_FORM_TAG (u "r_ele"))
        with (Some (u "reb")).
      change (dict_get str_eq_dec _REPR_OPTIONAL_TAGS (u "r_ele"))
        with (Some [u "re_inf"; u "re_pri"]).
      cbn [bind].
      apply ends_with_bind; [apply parse_text_elements_ends|]. intros o2 _.
      apply ends_with_bind; [apply parse_text_elements_ends|]. intros o3 _.
      apply ends_with_bind; [apply entry_of_attrs_ends|]. intros; exact I.
  - destruct (str_eq_dec (Xml.tag el) _SENSE_ELEMENT_TAG).
    + apply ends_with_bind; [apply parse_text_elements_ends|].
      intros; exact I.
    + destruct (str_eq_dec (Xml.tag el) _ENTRY_ID_TAG); simpl; auto.
Qed.

Lemma parse_entry_xml_ends order entry :
  ends_with [ResourceLoadError] (_parse_entry_xml order entry).
Proof.
  unfold _parse_entry_xml. apply ends_with_bind.
  - apply ends_with_for_each. intros st el _.
    apply (parse_entry_xml_body_ends order entry st el).
  - intros [r s] _. exact I.
Qed.

Lemma parse_text_elements_required_missing {S : Type}
    (store : S -> str -> str -> S) obj parent tag :
  Xml.findall tag parent = [] ->
  _parse_text_elements store obj parent [tag] true = Raise ResourceLoadError.
Proof.
  intros H. unfold _parse_text_elements, _find_all_raise_if_none.
  cbn [for_each]. rewrite H. reflexivity.
Qed.

Lemma unknown_tag_cases tag :
  ~ known_tag tag ->
  tag_in tag ["k_ele"; "r_ele"]%string = false
  /\ tag <> _SENSE_ELEMENT_TAG /\ tag <> _ENTRY_ID_TAG.
Proof.
  unfold known_tag; intros H. repeat split.
  - destruct (tag_in tag ["k_ele"; "r_ele"]%string) eqn:E; [|reflexivity].
    apply tag_in_spec in E. destruct E as (t & [<-|[<-|[]]] & ->);
      exfalso; apply H; simpl; auto.
  - intros ->. apply H; simpl; auto.
  - intros ->. apply H; simpl; auto.
Qed.

(** X8.  [_parse_entry_xml] raises [ResourceLoadError] on a malformed
    record: one that has a child with a tag other than [k_ele], [r_ele],
    [sense] and [ent_seq], or a representation ([k_ele], [r_ele]) while the
    record has no [ent_seq], or a [k_ele] without [keb] or an [r_ele]
    without [reb]; this wherever the child stands among the children, and
    whatever the other children are. *)
Theorem parse_entry_xml_rejects_malformed_records
    (order : list str) (entry el : Xml.Element)
    (Hin : In el (Xml.children entry))
    (Hbad : ~ known_tag (Xml.tag el)
            \/ (is_repr el = true /\ Xml.findall (u "ent_seq") entry = [])
            \/ lacks_text_form el) :
  _parse_entry_xml order entry = Raise ResourceLoadError.
Proof.
  unfold _parse_entry_xml.
  erewrite for_each_raises with (e := ResourceLoadError) (a0 := el);
    [reflexivity| |exact Hin|].
  - intros st a _. apply (parse_entry_xml_body_ends order entry st a).
  - intros [repr_objs sense_objs].
    destruct Hbad as [Hunknown|[[Hrepr Hid]|Hform]].
    + destruct (unknown_tag_cases _ Hunknown) as (E1 & E2 & E3).
      rewrite E1.
      destruct (str_eq_dec (Xml.tag el) _SENSE_ELEMENT_TAG);
        [contradiction|].
      destruct (str_eq_dec (Xml.tag el) _ENTRY_ID_TAG); [contradiction|].
      reflexivity.
    + unfold is_repr in Hrepr. rewrite Hrepr.
      cbv zeta. unfold _ENTRY_ID_TAG.
      rewrite (parse_text_elements_required_missing _ _ _ _ Hid).
      reflexivity.
    + assert (Hrepr : tag_in (Xml.tag el) ["k_ele"; "r_ele"]%string = true).
      { apply tag_in_spec.
        destruct Hform as [[E _]|[E _]]; rewrite E;
          [exists "k_ele"%string|exists "r_ele"%string]; simpl; auto. }
      rewrite Hrepr. cbv zeta.
      pose proof (parse_text_elements_ends store_entry_attr
                    {| a_entry_id := None; a_text_form := None;
                       a_text_form_info := None;
                       a_text_form_freq := None |}
                    entry [_ENTRY_ID_TAG] true) as Hends.
      destruct (_parse_text_elements store_entry_attr _ entry
                  [_ENTRY_ID_TAG] true) as [o|e|]; cbn [bind].
      * destruct Hform as [[E Hnone]|[E Hnone]]; rewrite E.
        -- change (dict_get str_eq_dec _REPR_TEXT_FORM_TAG (u "k_ele"))
             with (Some (u "keb")).
           cbn [bind].
           rewrite (parse_text_elements_required_missing _ _ _ _ Hnone).
           reflexivity.
        -- change (dict_get str_eq_dec _REPR_TEXT_FORM_TAG (u "r_ele"))
             with (Some (u "reb")).
           cbn [bind].
           rewrite (parse_text_elements_required_missing _ _ _ _ Hnone).
           reflexivity.
      * simpl in Hends. destruct Hends as [<-|[]]. reflexivity.
      * destruct Hends.
Qed.

Lemma parse_entry_xml_rejects_malformed_records_witness :
  _parse_entry_xml Samples.sample_tag_order
    RecordFixtures.record_with_unknown_child
  = Raise ResourceLoadError.
Proof.
  apply (parse_entry_xml_rejects_malformed_records
           Samples.sample_tag_order
           RecordFixtures.record_with_unknown_child
           RecordFixtures.unknown_child).
  - simpl. right; right; left; reflexivity.
  - left. unfold known_tag. vm_compute.
    intros [H|[H|[H|[H|[]]]]]; discriminate H.
Defined.

(** ** Sense data *)

Lemma sense_applies_spec sense entry :
  match _JMdictSense.applicable_elements sense with
  | Some ae =>
      (0 <? length ae)
      && negb (existsb
                 (fun x =>
                    if str_eq_dec (JMdictEntry.text_form entry) x
                    then true else false) ae)
  | None => false
  end = negb (sense_applies sense entry).
Proof.
  unfold sense_applies.
  destruct (_JMdictSense.applicable_elements sense) as [[|a ae]|];
    try reflexivity.
  change (0 <? length (a :: ae)) with true. cbn [andb]. f_equal.
  destruct (in_dec str_eq_dec (JMdictEntry.text_form entry) (a :: ae))
    as [Hin|Hout].
  - apply existsb_exists. exists (JMdictEntry.text_form entry).
    split; [exact Hin|]. destruct (str_eq_dec _ _); congruence.
  - destruct (existsb _ (a :: ae)) eqn:E; [|reflexivity].
    apply existsb_exists in E. destruct E as (x & Hx & E).
    destruct (str_eq_dec (JMdictEntry.text_form entry) x);
      [subst; contradiction|discriminate].
Qed.

Lemma add_sense_data_snoc entries senses sense :
  _add_sense_data entries (senses ++ [sense])
  = _add_sense_data (_add_sense_data entries senses) [sense].
Proof. unfold _add_sense_data. rewrite fold_left_app. reflexivity. Qed.

(** X9.  [_add_sense_data] keeps the entries in their order, with their
    entry id, text form, text form information and frequency; every entry
    gets the parts of speech, fields, dialects and miscellaneous data of
    the last sense that applies to it (a sense that names no element, or
    names the entry's text form), also where that sense has none, and
    keeps its own where no sense applies. *)
Theorem add_sense_data_last_applicable_sense_wins
    (entries : list JMdictEntry.t) (senses : list _JMdictSense.t) :
  Forall2 (carries_sense senses) entries (_add_sense_data entries senses).
Proof.
  induction senses as [|sense senses IH] using rev_ind.
  - unfold _add_sense_data; cbn [fold_left].
    induction entries as [|e entries IHe]; constructor; [|exact IHe].
    unfold carries_sense; cbn [rev find]. tauto.
  - rewrite add_sense_data_snoc.
    set (prev := _add_sense_data entries senses) in *.
    unfold _add_sense_data at 1; cbn [fold_left].
    induction IH as [|e e' entries prev' He Hrest IHrest];
      cbn [map]; constructor; [|exact IHrest].
    destruct He as (Hid & Hform & Hinfo & Hfreq & Hsense).
    rewrite sense_applies_spec.
    assert (Happ : sense_applies sense e' = sense_applies sense e).
    { unfold sense_applies. rewrite Hform. reflexivity. }
    rewrite Happ. unfold carries_sense.
    rewrite rev_app_distr. cbn [rev app find].
    destruct (sense_applies sense e); cbn [negb].
    + cbn. tauto.
    + tauto.
Qed.

(** ** The entries of a record *)

Lemma raise_if_no_text_Ok el s :
  _raise_if_no_text el = Ok s <-> has_text el /\ s = text_of el.
Proof.
  unfold _raise_if_no_text, has_text, text_of.
  destruct (Xml.text el) as [t|].
  - destruct t as [|c t]; simpl.
    + split; [discriminate|intros [H _]; congruence].
    + split; [intros H; inversion H; split; [discriminate|reflexivity]
             |intros [_ ->]; reflexivity].
  - split; [discriminate|intros [H _]; congruence].
Qed.

Lemma for_each_Ok_iff {A S : Type} (body : S -> A -> outcome S)
    (step : S -> A -> S) (ok : A -> Prop) l :
  (forall s a s', body s a = Ok s' <-> ok a /\ s' = step s a) ->
  forall s s',
    for_each body l s = Ok s' <-> Forall ok l /\ s' = fold_left step l s.
Proof.
  intros Hbody. induction l as [|a l IH]; intros s s'; cbn [for_each fold_left].
  - split.
    + intros H; inversion H; split; [constructor|reflexivity].
    + intros [_ ->]; reflexivity.
  - split.
    + intros H. bind_inv H. apply Hbody in Ha. destruct Ha as [Hok ->].
      apply IH in H. destruct H as [Hl ->].
      split; [constructor; assumption|reflexivity].
    + intros [Hall ->]. inversion Hall as [|? ? Hok Hl]; subst.
      rewrite (proj2 (Hbody s a (step s a)) (conj Hok eq_refl)).
      cbn [bind]. apply IH. split; [assumption|reflexivity].
Qed.

Lemma fold_left_map {A B S : Type} (f : S -> B -> S) (g : A -> B) l s :
  fold_left f (map g l) s = fold_left (fun s a => f s (g a)) l s.
Proof. revert s; induction l as [|a l IH]; intros s; simpl; auto. Qed.

Lemma parse_text_elements_Ok {S : Type} (store : S -> str -> str -> S)
    obj parent tags required o :
  _parse_text_elements store obj parent tags required = Ok o
  <-> Forall (readable required parent) tags
      /\ o = fold_left
               (fun o tag =>
                  fold_left (fun o txt => store o tag txt)
                    (element_texts tag parent) o)
               tags obj.
Proof.
  unfold _parse_text_elements. apply for_each_Ok_iff.
  intros s tag s'. unfold readable, element_texts.
  rewrite fold_left_map.
  assert (Hinner : forall els,
    for_each
      (fun obj ele => txt <- _raise_if_no_text ele ;; Ok (store obj tag txt))
      els s = Ok s'
    <-> Forall has_text els
        /\ s' = fold_left (fun s a => store s tag (text_of a)) els s).
  { intros els. apply for_each_Ok_iff. intros s0 a s0'. split.
    - intros H. bind_inv H. apply raise_if_no_text_Ok in Ha.
      destruct Ha as [Ht ->]. inversion H; auto.
    - intros [Ht ->].
      rewrite (proj2 (raise_if_no_text_Ok a (text_of a)) (conj Ht eq_refl)).
      reflexivity. }
  destruct required.
  - unfold _find_all_raise_if_none.
    destruct (Xml.findall tag parent) as [|el els] eqn:E.
    + cbn [length Nat.eqb bind]. split; [discriminate|].
      intros [[_ H] _]. exfalso; apply H; reflexivity.
    + cbn [length Nat.eqb bind]. rewrite Hinner. split.
      * intros [H1 H2]; repeat split; [assumption|discriminate|assumption].
      * intros [[H1 _] H2]; split; assumption.
  - cbn [bind]. rewrite Hinner. split.
    + intros [H1 H2]; repeat split; [assumption|discriminate|assumption].
    + intros [[H1 _] H2]; split; assumption.
Qed.

Lemma fold_append_Some texts l :
  fold_left _append_to_tuple_attr texts (Some l) = Some (l ++ texts).
Proof.
  revert l; induction texts as [|t texts IH]; intros l; cbn [fold_left].
  - rewrite app_nil_r; reflexivity.
  - cbn [_append_to_tuple_attr]. rewrite IH, <- app_assoc. reflexivity.
Qed.

Lemma fold_append_None texts :
  fold_left _append_to_tuple_attr texts None = tuple_of texts.
Proof.
  destruct texts as [|t texts]; [reflexivity|].
  cbn [fold_left _append_to_tuple_attr]. rewrite fold_append_Some.
  reflexivity.
Qed.

Lemma last_cons_cons {A : Type} (a b : A) l d :
  last (a :: b :: l) d = last (b :: l) d.
Proof. reflexivity. Qed.

Lemma fold_store_entry_id texts o :
  fold_left (fun o txt => store_entry_attr o (u "ent_seq") txt) texts o
  = match texts with
    | [] => o
    | _ => {| a_entry_id := Some (last texts []);
              a_text_form := a_text_form o;
              a_text_form_info := a_text_form_info o;
              a_text_form_freq := a_text_form_freq o |}
    end.
Proof.
  revert o; induction texts as [|t texts IH]; intros o; [reflexivity|].
  cbn [fold_left]. rewrite IH.
  change (store_entry_attr o (u "ent_seq") t)
    with {| a_entry_id := Some t; a_text_form := a_text_form o;
            a_text_form_info := a_text_form_info o;
            a_text_form_freq := a_text_form_freq o |}.
  destruct texts as [|t' texts]; reflexivity.
Qed.

Lemma fold_store_text_form tag texts o :
  tag = u "keb" \/ tag = u "reb" ->
  fold_left (fun o txt => store_entry_attr o tag txt) texts o
  = match texts with
    | [] => o
    | _ => {| a_entry_id := a_entry_id o;
              a_text_form := Some (last texts []);
              a_text_form_info := a_text_form_info o;
              a_text_form_freq := a_text_form_freq o |}
    end.
Proof.
  intros Htag.
  assert (Hstore : forall o t,
    store_entry_attr o tag t
    = {| a_entry_id := a_entry_id o; a_text_form := Some t;
         a_text_form_info := a_text_form_info o;
         a_text_form_freq := a_text_form_freq o |}).
  { destruct Htag as [-> | ->]; reflexivity. }
  revert o; induction texts as [|t texts IH]; intros o; [reflexivity|].
  cbn [fold_left]. rewrite IH, Hstore.
  destruct texts as [|t' texts]; reflexivity.
Qed.

Lemma fold_store_info tag texts o :
  tag = u "ke_inf" \/ tag = u "re_inf" ->
  fold_left (fun o txt => store_entry_attr o tag txt) texts o
  = {| a_entry_id := a_entry_id o;
       a_text_form := a_text_form o;
       a_text_form_info :=
         fold_left _append_to_tuple_attr texts (a_text_form_info o);
       a_text_form_freq := a_text_form_freq o |}.
Proof.
  intros Htag.
  assert (Hstore : forall o t,
    store_entry_attr o tag t
    = {| a_entry_id := a_entry_id o; a_text_form := a_text_form o;
         a_text_form_info := _append_to_tuple_attr (a_text_form_info o) t;
         a_text_form_freq := a_text_form_freq o |}).
  { destruct Htag as [-> | ->]; reflexivity. }
  revert o; induction texts as [|t texts IH]; intros o.
  - destruct o; reflexivity.
  - cbn [fold_left]. rewrite IH, Hstore. reflexivity.
Qed.

Lemma fold_store_freq tag texts o :
  tag = u "ke_pri" \/ tag = u "re_pri" ->
  fold_left (fun o txt => store_entry_attr o tag txt) texts o
  = {| a_entry_id := a_entry_id o;
       a_text_form := a_text_form o;
       a_text_form_info := a_text_form_info o;
       a_text_form_freq :=
         fold_left _append_to_tuple_attr texts (a_text_form_freq o) |}.
Proof.
  intros Htag.
  assert (Hstore : forall o t,
    store_entry_attr o tag t
    = {| a_entry_id := a_entry_id o; a_text_form := a_text_form o;
         a_text_form_info := a_text_form_info o;
         a_text_form_freq :=
           _append_to_tuple_attr (a_text_form_freq o) t |}).
  { destruct Htag as [-> | ->]; reflexivity. }
  revert o; induction texts as [|t texts IH]; intros o.
  - destruct o; reflexivity.
  - cbn [fold_left]. rewrite IH, Hstore. reflexivity.
Qed.

Lemma bind_Ok_iff {A B : Type} (c : outcome A) (k : A -> outcome B) b :
  bind c k = Ok b <-> exists a, c = Ok a /\ k a = Ok b.
Proof.
  split; [apply bind_Ok_inv|]. intros (a & -> & H). exact H.
Qed.

Lemma Forall_one {A : Type} (P : A -> Prop) a : Forall P [a] <-> P a.
Proof.
  split; [intros H; inversion H; assumption|intros H; constructor; auto].
Qed.

Lemma Forall_two {A : Type} (P : A -> Prop) a b :
  Forall P [a; b] <-> P a /\ P b.
Proof.
  split.
  - intros H; inversion H as [|? ? Ha H']; inversion H'; auto.
  - intros [Ha Hb]; repeat constructor; assumption.
Qed.

Lemma readable_required_texts parent tag :
  readable true parent tag -> element_texts tag parent <> [].
Proof.
  intros [_ H] E. apply H; [reflexivity|].
  unfold element_texts in E. apply map_eq_nil in E. exact E.
Qed.

(** The attributes of a representation after the three calls of
    [_parse_text_elements]. *)
Lemma repr_object entry el form info pri :
  form = u "keb" \/ form = u "reb" ->
  info = u "ke_inf" \/ info = u "re_inf" ->
  pri = u "ke_pri" \/ pri = u "re_pri" ->
  element_texts (u "ent_seq") entry <> [] ->
  element_texts form el <> [] ->
  entry_of_attrs
    (fold_left
       (fun o tag =>
          fold_left (fun o txt => store_entry_attr o tag txt)
            (element_texts tag el) o)
       [info; pri]
       (fold_left
          (fun o tag =>
             fold_left (fun o txt => store_entry_attr o tag txt)
               (element_texts tag el) o)
          [form]
          (fold_left
             (fun o tag =>
                fold_left (fun o txt => store_entry_attr o tag txt)
                  (element_texts tag entry) o)
             [u "ent_seq"]
             {| a_entry_id := None; a_text_form := None;
                a_text_form_info := None; a_text_form_freq := None |})))
  = Ok (JMdictEntry.mk
          (last (element_texts (u "ent_seq") entry) [])
          (last (element_texts form el) [])
          (tuple_of (element_texts info el))
          (tuple_of (element_texts pri el))
          None None None None).
Proof.
  intros Hform Hinfo Hpri Hid Htext. cbn [fold_left].
  rewrite fold_store_entry_id, (fold_store_text_form _ _ _ Hform),
    (fold_store_info _ _ _ Hinfo), (fold_store_freq _ _ _ Hpri).
  destruct (element_texts (u "ent_seq") entry) as [|i ids];
    [contradiction|].
  destruct (element_texts form el) as [|t ts]; [contradiction|].
  cbn [a_entry_id a_text_form a_text_form_info a_text_form_freq].
  rewrite !fold_append_None. reflexivity.
Qed.

Lemma repr_chain {B : Type} entry el form info pri
    (k : JMdictEntry.t -> outcome B) b :
  form = u "keb" \/ form = u "reb" ->
  info = u "ke_inf" \/ info = u "re_inf" ->
  pri = u "ke_pri" \/ pri = u "re_pri" ->
  (o1 <- _parse_text_elements store_entry_attr
           {| a_entry_id := None; a_text_form := None;
              a_text_form_info := None; a_text_form_freq := None |}
           entry [u "ent_seq"] true ;;
   o2 <- _parse_text_elements store_entry_attr o1 el [form] true ;;
   o3 <- _parse_text_elements store_entry_attr o2 el [info; pri] false ;;
   e <- entry_of_attrs o3 ;;
   k e) = Ok b
  <-> (readable true entry (u "ent_seq")
       /\ readable true el form
       /\ readable false el info
       /\ readable false el pri)
      /\ k (JMdictEntry.mk
              (last (element_texts (u "ent_seq") entry) [])
              (last (element_texts form el) [])
              (tuple_of (element_texts info el))
              (tuple_of (element_texts pri el))
              None None None None) = Ok b.
Proof.
  intros Hform Hinfo Hpri. split.
  - intros H.
    apply bind_Ok_inv in H. destruct H as (o1 & H1 & H).
    apply bind_Ok_inv in H. destruct H as (o2 & H2 & H).
    apply bind_Ok_inv in H. destruct H as (o3 & H3 & H).
    apply bind_Ok_inv in H. destruct H as (e & He & H).
    apply parse_text_elements_Ok in H1. destruct H1 as [R1 ->].
    apply parse_text_elements_Ok in H2. destruct H2 as [R2 ->].
    apply parse_text_elements_Ok in H3. destruct H3 as [R3 ->].
    apply (proj1 (Forall_one _ _)) in R1.
    apply (proj1 (Forall_one _ _)) in R2.
    apply (proj1 (Forall_two _ _ _)) in R3. destruct R3 as [R3 R4].
    rewrite (repr_object entry el form info pri Hform Hinfo Hpri
               (readable_required_texts _ _ R1)
               (readable_required_texts _ _ R2)) in He.
    inversion He; subst e. tauto.
  - intros [(R1 & R2 & R3 & R4) H].
    rewrite (proj2 (parse_text_elements_Ok store_entry_attr _ entry
                      [u "ent_seq"] true _)
               (conj (proj2 (Forall_one _ _) R1) eq_refl)).
    cbn [bind].
    rewrite (proj2 (parse_text_elements_Ok store_entry_attr _ el
                      [form] true _)
               (conj (proj2 (Forall_one _ _) R2) eq_refl)).
    cbn [bind].
    rewrite (proj2 (parse_text_elements_Ok store_entry_attr _ el
                      [info; pri] false _)
               (conj (proj2 (Forall_two _ _ _) (conj R3 R4)) eq_refl)).
    cbn [bind].
    rewrite (repr_object entry el form info pri Hform Hinfo Hpri
               (readable_required_texts _ _ R1)
               (readable_required_texts _ _ R2)).
    cbn [bind]. exact H.
Qed.

Lemma is_repr_not_sense el : is_repr el = true -> is_sense el = false.
Proof.
  intros H. unfold is_sense.
  destruct (is_repr_cases el H) as [-> | ->]; reflexivity.
Qed.

Lemma record_steps order entry l r s :
  fold_left (record_step order entry) l (r, s)
  = (r ++ map (raw_entry entry) (filter is_repr l),
     s ++ map (sense_of order) (filter is_sense l)).
Proof.
  revert r s; induction l as [|el l IH]; intros r s; cbn [fold_left].
  - cbn [filter map]. rewrite !app_nil_r. reflexivity.
  - unfold record_step at 2. cbn [fst snd filter].
    destruct (is_repr el) eqn:Er.
    + rewrite (is_repr_not_sense el Er), IH. cbn [map].
      rewrite <- app_assoc. reflexivity.
    + destruct (is_sense el); rewrite IH; cbn [map];
        rewrite <- ?app_assoc; reflexivity.
Qed.

(** [_parse_entry_xml] returns exactly on the records whose children are
    all well formed, and then returns the entries of the representations,
    in document order, with the sense data of the record's senses. *)
Lemma parse_entry_xml_Ok order entry es :
  _parse_entry_xml order entry = Ok es
  <-> Forall (well_formed_child order entry) (Xml.children entry)
      /\ es = _add_sense_data
                (map (raw_entry entry)
                   (filter is_repr (Xml.children entry)))
                (map (sense_of order)
                   (filter is_sense (Xml.children entry))).
Proof.
  unfold _parse_entry_xml. rewrite bind_Ok_iff.
  match goal with
  | |- context [for_each ?body _ _] =>
      assert (Hloop : forall st st',
        for_each body (Xml.children entry) st = Ok st'
        <-> Forall (well_formed_child order entry) (Xml.children entry)
            /\ st' = fold_left (record_step order entry)
                       (Xml.children entry) st);
      [apply for_each_Ok_iff|]
  end.
  - intros [r s] el st'. unfold well_formed_child, record_step.
    fold (is_repr el). cbn [fst snd].
    destruct (is_repr el) eqn:Er.
    + cbv zeta. unfold _ENTRY_ID_TAG.
      destruct (is_repr_cases el Er) as [E|E]; rewrite E;
        unfold repr_tags; rewrite E.
      * change (dict_get str_eq_dec _REPR_TEXT_FORM_TAG (u "k_ele"))
          with (Some (u "keb")).
        change (dict_get str_eq_dec _REPR_OPTIONAL_TAGS (u "k_ele"))
          with (Some [u "ke_inf"; u "ke_pri"]).
        cbn [bind].
        destruct (str_eq_dec (u "k_ele") (u "k_ele")); [|congruence].
        rewrite (repr_chain entry el (u "keb") (u "ke_inf") (u "ke_pri"));
          auto.
        unfold raw_entry, repr_tags. rewrite E.
        destruct (str_eq_dec (u "k_ele") (u "k_ele")); [|congruence].
        split; [intros [H1 H2]|intros [H1 ->]]; split; auto; congruence.
      * change (dict_get str_eq_dec _REPR_TEXT_FORM_TAG (u "r_ele"))
          with (Some (u "reb")).
        change (dict_get str_eq_dec _REPR_OPTIONAL_TAGS (u "r_ele"))
          with (Some [u "re_inf"; u "re_pri"]).
        cbn [bind].
        destruct (str_eq_dec (u "r_ele") (u "k_ele")); [discriminate|].
        rewrite (repr_chain entry el (u "reb") (u "re_inf") (u "re_pri"));
          auto.
        unfold raw_entry, repr_tags. rewrite E.
        destruct (str_eq_dec (u "r_ele") (u "k_ele")); [discriminate|].
        split; [intros [H1 H2]|intros [H1 ->]]; split; auto; congruence.
    + unfold is_sense, _SENSE_ELEMENT_TAG.
      destruct (str_eq_dec (Xml.tag el) (u "sense")).
      * rewrite bind_Ok_iff. split.
        -- intros (o & Ho & H). apply parse_text_elements_Ok in Ho.
           destruct Ho as [Hr ->]. inversion H; subst.
           split; [exact Hr|reflexivity].
        -- intros [Hr ->]. eexists; split;
             [apply parse_text_elements_Ok; split; [exact Hr|reflexivity]|].
           reflexivity.
      * unfold _ENTRY_ID_TAG.
        destruct (str_eq_dec (Xml.tag el) (u "ent_seq")); cbn [negb].
        -- split; [intros H; inversion H; auto|intros [_ ->]; reflexivity].
        -- split; [discriminate|intros [H _]; contradiction].
  - split.
    + intros ([r s] & Hrun & H). apply Hloop in Hrun.
      destruct Hrun as [Hwf Hst]. rewrite record_steps in Hst.
      cbn [app] in Hst. inversion Hst; subst. inversion H; auto.
    + intros [Hwf ->]. eexists; split.
      * apply Hloop. split; [exact Hwf|reflexivity].
      * rewrite record_steps. reflexivity.
Qed.

Lemma add_sense_data_identity entries senses :
  map identity_of (_add_sense_data entries senses) = map identity_of entries.
Proof.
  unfold _add_sense_data. revert entries.
  induction senses as [|sense senses IH]; intros entries; cbn [fold_left].
  - reflexivity.
  - rewrite IH, map_map. apply map_ext. intros e.
    destruct (match _JMdictSense.applicable_elements sense with
              | Some ae => _
              | None => false
              end); reflexivity.
Qed.

Lemma last_text_nonempty els :
  Forall has_text els -> els <> [] -> last (map text_of els) [] <> [].
Proof.
  induction els as [|el els IH]; intros Hall Hne; [contradiction|].
  inversion Hall as [|? ? Hel Hrest]; subst.
  destruct els as [|el' els]; [exact Hel|].
  cbn [map]. rewrite last_cons_cons. apply IH; [exact Hrest|discriminate].
Qed.

Lemma readable_last_text parent tag :
  readable true parent tag -> last (element_texts tag parent) [] <> [].
Proof.
  intros [Hall Hne]. apply last_text_nonempty; auto.
Qed.

Lemma raw_entry_nonempty order entry el :
  is_repr el = true ->
  well_formed_child order entry el ->
  JMdictEntry.entry_id (raw_entry entry el) <> []
  /\ JMdictEntry.text_form (raw_entry entry el) <> [].
Proof.
  unfold well_formed_child, raw_entry. intros ->.
  destruct (repr_tags el) as [[form info] pri].
  intros (R1 & R2 & _). cbn [JMdictEntry.entry_id JMdictEntry.text_form].
  split; apply readable_last_text; assumption.
Qed.

(** X10.  When [_parse_entry_xml] returns, every child of the record is
    well formed, and the entries returned are those of the record's
    [k_ele] and [r_ele] children in document order, completed with the
    sense data of the record's [sense] children in document order.  Every
    entry has the text of the record's last [ent_seq] as its entry id and
    the text of the representation's last [keb] or [reb] as its text form,
    neither of them empty. *)
Theorem parse_entry_xml_reads_the_representations
    (order : list str) (entry : Xml.Element) (es : list JMdictEntry.t)
    (Hrun : _parse_entry_xml order entry = Ok es) :
  Forall (well_formed_child order entry) (Xml.children entry)
  /\ es = _add_sense_data
            (map (raw_entry entry) (filter is_repr (Xml.children entry)))
            (map (sense_of order) (filter is_sense (Xml.children entry)))
  /\ map identity_of es
     = map (fun el => identity_of (raw_entry entry el))
         (filter is_repr (Xml.children entry))
  /\ Forall (fun e =>
               JMdictEntry.entry_id e
               = last (element_texts (u "ent_seq") entry) []
               /\ JMdictEntry.entry_id e <> []
               /\ JMdictEntry.text_form e <> []) es.
Proof.
  apply parse_entry_xml_Ok in Hrun. destruct Hrun as [Hwf ->].
  assert (Hid : map identity_of
                  (_add_sense_data
                     (map (raw_entry entry)
                        (filter is_repr (Xml.children entry)))
                     (map (sense_of order)
                        (filter is_sense (Xml.children entry))))
                = map (fun el => identity_of (raw_entry entry el))
                    (filter is_repr (Xml.children entry))).
  { rewrite add_sense_data_identity, map_map. reflexivity. }
  repeat split; [exact Hwf|exact Hid|].
  apply Forall_forall. intros e He.
  apply (in_map identity_of) in He. rewrite Hid in He.
  apply in_map_iff in He. destruct He as (el & Eid & Hel).
  apply filter_In in Hel. destruct Hel as [Hel Hrepr].
  pose proof (proj1 (Forall_forall _ _) Hwf el Hel) as Hchild.
  destruct (raw_entry_nonempty order entry el Hrepr Hchild) as [N1 N2].
  unfold identity_of in Eid. injection Eid as E1 E2 E3 E4.
  rewrite <- E1, <- E2. repeat split; try assumption.
  unfold raw_entry. destruct (repr_tags el) as [[form info] pri].
  reflexivity.
Qed.

Lemma parse_entry_xml_reads_the_representations_witness :
  map identity_of RecordFixtures.record_entries
  = [(u "1358280", u "食べ物", None, Some [u "ichi1"]);
     (u "1358280", u "たべもの", None, None)].
Proof.
  pose proof (parse_entry_xml_reads_the_representations
                Samples.sample_tag_order RecordFixtures.record
                RecordFixtures.record_entries) as H.
  destruct H as (_ & _ & H & _); [vm_compute; reflexivity|].
  rewrite H. vm_compute. reflexivity.
Defined.

(** X11.  [_parse_entry_xml] returns on every record whose children are
    all well formed: each is an [ent_seq], a [sense] whose optional
    elements all have text, or a [k_ele] or [r_ele] with its text form
    ([keb], [reb]) in a record with an [ent_seq], the elements read all
    having text. *)
Theorem parse_entry_xml_accepts_well_formed_records
    (order : list str) (entry : Xml.Element)
    (Hwf : Forall (well_formed_child order entry) (Xml.children entry)) :
  _parse_entry_xml order entry
  = Ok (_add_sense_data
          (map (raw_entry entry) (filter is_repr (Xml.children entry)))
          (map (sense_of order) (filter is_sense (Xml.children entry)))).
Proof.
  apply parse_entry_xml_Ok. split; [exact Hwf|reflexivity].
Qed.

Lemma parse_entry_xml_accepts_well_formed_records_witness :
  _parse_entry_xml Samples.sample_tag_order RecordFixtures.record
  = Ok (_add_sense_data
          (map (raw_entry RecordFixtures.record)
             (filter is_repr (Xml.children RecordFixtures.record)))
          (map (sense_of Samples.sample_tag_order)
             (filter is_sense (Xml.children RecordFixtures.record)))).
Proof.
  apply (parse_entry_xml_accepts_well_formed_records
           Samples.sample_tag_order RecordFixtures.record).
  unfold RecordFixtures.record, Samples.elem, Samples.leaf.
  cbn [Xml.children].
  repeat constructor; try (vm_compute; discriminate).
Defined.

(** ** Sources the load cannot use *)

Lemma map_outcome_Ok_In {A B : Type} (f : A -> outcome B) l out a :
  map_outcome f l = Ok out -> In a l -> exists b, f a = Ok b.
Proof.
  revert out; induction l as [|x l IH]; intros out H Hin; [destruct Hin|].
  cbn [map_outcome] in H. bind_inv H. bind_inv H.
  destruct Hin as [<-|Hin]; [eauto|]. eapply IH; eassumption.
Qed.

(** A load that reads the XML file does not look into the shelf. *)
Lemma reads_xml_skips_shelf self fs x :
  reads_xml fs x ->
  _load_from_shelf_if_newer self fs (xml_mtime x) = Ok (false, self).
Proof.
  intros [_ Hstale]. unfold _load_from_shelf_if_newer.
  destruct (shelf_file fs) as [shelf|]; [|reflexivity].
  rewrite (proj2 (Qle_bool_iff _ _) (Hstale shelf eq_refl)). reflexivity.
Qed.

(** Records without a representation leave the two indexes as they are. *)
Lemma load_xml_records_without_entries mecab order fuel records lists st :
  map_outcome (_parse_entry_xml order) records = Ok lists ->
  concat lists = [] ->
  for_each
    (fun st entry_element =>
       entry_objs <- _parse_entry_xml order entry_element ;;
       for_each
         (fun (st : EntryMap * MecabDecompMap) entry_obj =>
            let '(em, dm) := st in
            mecab_decomp <- _get_mecab_decomb mecab fuel entry_obj ;;
            let dm := dict_append strs_eq_dec dm mecab_decomp entry_obj in
            let em :=
              dict_append str_eq_dec em (JMdictEntry.text_form entry_obj)
                entry_obj in
            Ok (em, dm))
         entry_objs st)
    records st = Ok st.
Proof.
  revert lists; induction records as [|r records IH]; intros lists H Hnil;
    [reflexivity|].
  cbn [map_outcome] in H. bind_inv H. bind_inv H. inversion H; subst lists.
  cbn [concat] in Hnil. apply app_eq_nil in Hnil. destruct Hnil as [-> Hnil].
  cbn [for_each]. rewrite Ha. cbn [bind for_each].
  eapply IH; eassumption.
Qed.

Lemma load_xml_entries_without_entries mecab order fuel root :
  document_entries order root = Ok [] ->
  load_xml_entries mecab order fuel root = Ok ([], []).
Proof.
  unfold document_entries, load_xml_entries. intros Hdoc. bind_inv Hdoc.
  inversion Hdoc as [Hnil].
  exact (load_xml_records_without_entries mecab order fuel _ _ ([], [])
           Ha Hnil).
Qed.

(** X12.  [load_jmdict] gives no dictionary from a source it cannot use.
    When the XML file does not exist it raises [OSError], also when there
    is a shelf, newer or not: the modification time of the XML file is
    asked for first.  When it reads the XML file and [_parse_entry_xml]
    raises [ResourceLoadError] on some record of the document, it does not
    return, whatever the other records are.  When it reads the XML file
    and no record of the document has a representation, it raises
    [ValueError]: the maximal lengths are taken over no key at all. *)
Theorem load_jmdict_rejects_unusable_sources
    (mecab : str -> str) (order : list str) (self : JMdict)
    (fs : FileSystem) (now : Q) (fuel : nat) :
  (xml_file fs = None ->
   load_jmdict mecab order self fs now fuel = Raise OSError)
  /\ (forall x entry,
         reads_xml fs x ->
         In entry (Xml.children (xml_root x)) ->
         _parse_entry_xml order entry = Raise ResourceLoadError ->
         forall r, load_jmdict mecab order self fs now fuel <> Ok r)
  /\ (forall x,
         reads_xml fs x ->
         document_entries order (xml_root x) = Ok [] ->
         load_jmdict mecab order self fs now fuel = Raise ValueError).
Proof.
  split; [|split].
  - intros Hx. unfold load_jmdict. rewrite Hx. reflexivity.
  - intros x entry Hreads Hin Hbad [jm fs'] Hload.
    destruct (load_jmdict_reads_xml _ _ _ _ _ _ _ _ _ Hreads Hload)
      as (es & _ & _ & _ & _ & Hdoc & _).
    unfold document_entries in Hdoc. bind_inv Hdoc.
    destruct (map_outcome_Ok_In _ _ _ _ Ha Hin) as (b & Hb).
    rewrite Hbad in Hb. discriminate Hb.
  - intros x Hreads Hdoc.
    unfold load_jmdict. rewrite (proj1 Hreads). cbn [bind].
    rewrite (reads_xml_skips_shelf self fs x Hreads). cbn [bind].
    rewrite (load_xml_entries_without_entries mecab order fuel _ Hdoc).
    reflexivity.
Qed.

Lemma load_jmdict_rejects_unusable_sources_witness :
  load_jmdict Samples.sample_mecab Samples.sample_tag_order new_JMdict
    RecordFixtures.shelf_only_fs 30 5 = Raise OSError
  /\ match load_jmdict Samples.sample_mecab Samples.sample_tag_order
            new_JMdict RecordFixtures.malformed_fs 20 5
     with
     | Ok _ => False
     | _ => True
     end
  /\ load_jmdict Samples.sample_mecab Samples.sample_tag_order new_JMdict
       RecordFixtures.empty_document_fs 20 5 = Raise ValueError.
Proof.
  split; [|split].
  - apply (proj1 (load_jmdict_rejects_unusable_sources
                    Samples.sample_mecab Samples.sample_tag_order
                    new_JMdict RecordFixtures.shelf_only_fs 30 5)).
    reflexivity.
  - assert (Hreads : reads_xml RecordFixtures.malformed_fs
                       {| xml_mtime := 10;
                          xml_root :=
                            Samples.elem "JMdict"
                              [RecordFixtures.record;
                               RecordFixtures.record_with_unknown_child] |}).
    { split; [reflexivity|]. intros shelf E; discriminate E. }
    pose proof (proj1 (proj2 (load_jmdict_rejects_unusable_sources
                                Samples.sample_mecab
                                Samples.sample_tag_order new_JMdict
                                RecordFixtures.malformed_fs 20 5))
                  _ RecordFixtures.record_with_unknown_child Hreads
                  (or_intror (or_introl eq_refl))
                  ltac:(vm_compute; reflexivity)) as H.
    destruct (load_jmdict Samples.sample_mecab Samples.sample_tag_order
                new_JMdict RecordFixtures.malformed_fs 20 5) as [r|e|];
      [|exact I|exact I].
    exact (H r eq_refl).
  - apply (proj2 (proj2 (load_jmdict_rejects_unusable_sources
                           Samples.sample_mecab Samples.sample_tag_order
                           new_JMdict RecordFixtures.empty_document_fs
                           20 5))
             {| xml_mtime := 10; xml_root := Samples.elem "JMdict" [] |}).
    + split; [reflexivity|]. intros shelf H; discriminate H.
    + vm_compute; reflexivity.
Defined.

(** ** Loading from the shelf *)

Lemma Qlt_Qle_bool_false (a b : Q) : (a < b)%Q -> Qle_bool b a = false.
Proof.
  intros H. destruct (Qle_bool b a) eqn:E; [|reflexivity].
  apply Qle_bool_iff in E. apply Qlt_not_le in H. contradiction.
Qed.

Lemma dict_get_set_items {K V : Type}
    (K_eq_dec : forall a b : K, {a = b} + {a <> b})
    (items : list (K * V)) (d0 : @dict K V) k :
  dict_get K_eq_dec
    (fold_left (fun d item => dict_set K_eq_dec d (fst item) (snd item))
       items d0) k
  = match find (fun item => if K_eq_dec (fst item) k then true else false)
            (rev items)
    with
    | Some item => Some (snd item)
    | None => dict_get K_eq_dec d0 k
    end.
Proof.
  induction items as [|item items IH] using rev_ind; [reflexivity|].
  rewrite fold_left_app, rev_app_distr. cbn [fold_left rev app find].
  destruct (K_eq_dec (fst item) k) as [<-|Hne].
  - apply dict_get_set_eq.
  - rewrite dict_get_set_ne by exact Hne. exact IH.
Qed.

Lemma reads_shelf_run mecab order self fs now fuel shelf :
  reads_shelf fs shelf ->
  load_jmdict mecab order self fs now fuel
  = (jm <- _set_max_entry_lens
             (set_maps self
                (fst (load_shelf_items (_mecab_decomp_map_items shelf)))
                (snd (load_shelf_items (_mecab_decomp_map_items shelf)))) ;;
     Ok (jm, fs)).
Proof.
  intros (Hs & x & Hx & Hnewer).
  unfold load_jmdict, _load_from_shelf_if_newer.
  rewrite Hx; cbn [bind]. rewrite Hs, (Qlt_Qle_bool_false _ _ Hnewer).
  destruct (load_shelf_items (_mecab_decomp_map_items shelf)) as [em dm].
  cbn [fst snd].
  destruct (_set_max_entry_lens (set_maps self em dm)); reflexivity.
Qed.

Lemma group_by_keys_nonempty {K X : Type}
    (K_eq_dec : forall a b : K, {a = b} + {a <> b}) (key : X -> K) xs :
  xs <> [] -> dict_keys (group_by K_eq_dec key xs []) <> [].
Proof.
  destruct xs as [|x xs]; [contradiction|]. intros _ E.
  assert (Hin : In (key x) (dict_keys (group_by K_eq_dec key (x :: xs) []))).
  { apply (dict_keys_In K_eq_dec). rewrite group_by_get.
    cbn [filter]. unfold has_key at 1.
    destruct (K_eq_dec (key x) (key x)); [discriminate|congruence]. }
  rewrite E in Hin. destruct Hin.
Qed.

Lemma set_items_keys_nonempty {K V : Type}
    (K_eq_dec : forall a b : K, {a = b} + {a <> b})
    (items : list (K * V)) :
  items <> [] ->
  dict_keys
    (fold_left (fun d item => dict_set K_eq_dec d (fst item) (snd item))
       items []) <> [].
Proof.
  induction items as [|item items _] using rev_ind; [contradiction|].
  intros _ E.
  assert (Hin : In (fst item)
                  (dict_keys
                     (fold_left
                        (fun d it => dict_set K_eq_dec d (fst it) (snd it))
                        (items ++ [item]) []))).
  { apply (dict_keys_In K_eq_dec). rewrite dict_get_set_items.
    rewrite rev_app_distr. cbn [rev app find].
    destruct (K_eq_dec (fst item) (fst item)); [discriminate|congruence]. }
  rewrite E in Hin. destruct Hin.
Qed.

Lemma py_max_nonempty l : l <> [] -> exists m, py_max l = Ok m.
Proof. destruct l; [contradiction|]. intros _. eexists; reflexivity. Qed.

(** X13.  When the shelf is newer than the XML file, [load_jmdict] takes
    the dictionary from the shelf alone, whatever the document and the
    tagger are, and the files stay as they are.  It returns whenever
    the shelf stores an entry; [get_entries] of a decomposition then
    returns the list stored under it (the last one, should the key occur
    twice), and [get_entries] of a text form the stored entries with that
    text form, in the order of the shelf. *)
Theorem shelf_load_indexes_the_stored_items
    (mecab : str -> str) (order : list str) (self : JMdict)
    (fs : FileSystem) (now : Q) (fuel : nat) (shelf : ShelfFile)
    (Hreads : reads_shelf fs shelf)
    (Hstored : concat (map snd (_mecab_decomp_map_items shelf)) <> []) :
  exists jm,
    load_jmdict mecab order self fs now fuel = Ok (jm, fs)
    /\ (forall s,
           get_entries jm (TextForm s)
           = Ok (filter (has_key str_eq_dec JMdictEntry.text_form s)
                   (concat (map snd (_mecab_decomp_map_items shelf)))))
    /\ (forall d,
           get_entries jm (MecabDecomp d)
           = Ok (stored_under (_mecab_decomp_map_items shelf) d)).
Proof.
  rewrite (reads_shelf_run mecab order self fs now fuel shelf Hreads).
  rewrite load_shelf_items_spec. cbn [fst snd].
  set (items := _mecab_decomp_map_items shelf) in *.
  destruct (py_max_nonempty
              (map (@length codepoint)
                 (dict_keys
                    (group_by str_eq_dec JMdictEntry.text_form
                       (concat (map snd items)) []))))
    as (mt & Hmt).
  { intros E. apply map_eq_nil in E.
    exact (group_by_keys_nonempty _ _ _ Hstored E). }
  destruct (py_max_nonempty
              (map (@length str)
                 (dict_keys
                    (fold_left
                       (fun d item =>
                          dict_set strs_eq_dec d (fst item) (snd item))
                       items []))))
    as (md & Hmd).
  { intros E. apply map_eq_nil in E.
    apply (set_items_keys_nonempty strs_eq_dec items); [|exact E].
    intros Hnil. apply Hstored. rewrite Hnil. reflexivity. }
  rewrite (set_max_entry_lens_run self _ _ mt md Hmt Hmd). cbn [bind].
  eexists. split; [reflexivity|]. split.
  - intros s. cbn. rewrite group_by_lookup. reflexivity.
  - intros d. cbn. rewrite dict_get_set_items. unfold stored_under.
    destruct (find _ (rev items)); reflexivity.
Qed.

Lemma shelf_load_indexes_the_stored_items_witness :
  exists jm,
    load_jmdict Samples.sample_mecab Samples.sample_tag_order new_JMdict
      Samples.sample_fs_loaded 30 5
    = Ok (jm, Samples.sample_fs_loaded)
    /\ get_entries jm (TextForm (u "物"))
       = get_entries Samples.sample_jmdict (TextForm (u "物")).
Proof.
  destruct (shelf_load_indexes_the_stored_items
              Samples.sample_mecab Samples.sample_tag_order new_JMdict
              Samples.sample_fs_loaded 30 5
              (match shelf_file Samples.sample_fs_loaded with
               | Some shelf => shelf
               | None => {| shelf_mtime := 0; _mecab_decomp_map_items := [] |}
               end))
    as (jm & Hload & Htext & _).
  - split; [vm_compute; reflexivity|].
    exists {| xml_mtime := 10; xml_root := Samples.sample_root |}.
    split; [vm_compute; reflexivity|]. vm_compute. reflexivity.
  - vm_compute. discriminate.
  - exists jm. split; [exact Hload|]. rewrite Htext. vm_compute.
    reflexivity.
Defined.

(** ** The finder loses no window *)

Lemma flat_map_map {A B C : Type} (f : A -> B) (g : B -> list C) l :
  flat_map g (map f l) = flat_map (fun x => g (f x)) l.
Proof. induction l as [|x l IH]; simpl; congruence. Qed.

Lemma flat_map_nil {A B : Type} (g : A -> list B) l :
  (forall x, In x l -> g x = []) -> flat_map g l = [].
Proof.
  induction l as [|x l IH]; intros H; simpl; [reflexivity|].
  rewrite (H x (or_introl eq_refl)), IH; [reflexivity|].
  intros; apply H; right; assumption.
Qed.

(** On a range, a loop that stops at the first index failing a test that
    no later index passes skips only indexes that give nothing. *)
Lemma flat_map_take_while_seq {B : Type} (f : nat -> bool)
    (g : nat -> list B) a n :
  (forall j j', a <= j <= j' -> j' < a + n -> f j' = true -> f j = true) ->
  (forall j, a <= j < a + n -> f j = false -> g j = []) ->
  flat_map g (take_while f (seq a n)) = flat_map g (seq a n).
Proof.
  revert a; induction n as [|n IH]; intros a Hmono Hnil; [reflexivity|].
  cbn [seq take_while]. destruct (f a) eqn:E.
  - cbn [flat_map]. f_equal. apply IH.
    + intros j j' Hj Hj' H. apply (Hmono j j'); [lia|lia|exact H].
    + intros j Hj H. apply Hnil; [lia|exact H].
  - cbn [flat_map]. rewrite (Hnil a) by (lia || exact E).
    symmetry. apply flat_map_nil. intros j Hj. apply in_seq in Hj.
    apply Hnil; [lia|].
    destruct (f j) eqn:Ej; [|reflexivity].
    rewrite (Hmono a j) in E; [discriminate|lia|lia|exact Ej].
Qed.

Lemma firstn_plus {A : Type} (l : list A) n m :
  firstn (n + m) l = firstn n l ++ firstn m (skipn n l).
Proof.
  revert l; induction n as [|n IH]; intros l; [reflexivity|].
  destruct l as [|x l]; cbn [Nat.add firstn skipn app].
  - rewrite firstn_nil. reflexivity.
  - rewrite IH. reflexivity.
Qed.

Lemma slice_extend {A : Type} (s : list A) i j j' :
  i <= j <= j' -> slice s i j' = slice s i j ++ slice s j j'.
Proof.
  intros H. unfold slice.
  replace (j' - i) with ((j - i) + (j' - j)) by lia.
  rewrite firstn_plus. f_equal.
  rewrite skipn_skipn. replace (j - i + i) with j by lia. reflexivity.
Qed.

Lemma sum_map_app {A : Type} (f : A -> nat) l1 l2 :
  sum (map f (l1 ++ l2)) = sum (map f l1) + sum (map f l2).
Proof. rewrite !sum_list_sum, map_app, list_sum_app. reflexivity. Qed.

(** A window within the bound stays within it when it is cut shorter. *)
Lemma within_bound_shorter max_text max_decomp (bs : list FoundJpnLexicalItem)
    i j j' :
  i <= j <= j' ->
  within_bound max_text max_decomp (slice bs i j') = true ->
  within_bound max_text max_decomp (slice bs i j) = true.
Proof.
  intros Hij. rewrite (slice_extend bs i j j' Hij).
  rewrite !within_bound_spec. unfold some_measure_within.
  rewrite !sum_map_app, length_app. lia.
Qed.

Lemma lookup_text_too_long (em : EntryMap) max_text s :
  py_max (map (@length codepoint) (dict_keys em)) = Ok max_text ->
  max_text < length s ->
  lookup_text em s = [].
Proof.
  intros Hmax Hlen. unfold lookup_text.
  destruct (dict_get str_eq_dec em s) as [l|] eqn:E; [|reflexivity].
  exfalso. apply py_max_spec in Hmax. destruct Hmax as [Hall _].
  rewrite Forall_forall in Hall.
  assert (Hin : In s (dict_keys em)).
  { apply (dict_keys_In str_eq_dec). rewrite E. discriminate. }
  pose proof (Hall _ (in_map (@length codepoint) _ _ Hin)). lia.
Qed.

Lemma lookup_decomp_too_long (dm : MecabDecompMap) max_decomp d :
  py_max (map (@length str) (dict_keys dm)) = Ok max_decomp ->
  max_decomp < length d ->
  lookup_decomp dm d = [].
Proof.
  intros Hmax Hlen. unfold lookup_decomp.
  destruct (dict_get strs_eq_dec dm d) as [l|] eqn:E; [|reflexivity].
  exfalso. apply py_max_spec in Hmax. destruct Hmax as [Hall _].
  rewrite Forall_forall in Hall.
  assert (Hin : In d (dict_keys dm)).
  { apply (dict_keys_In strs_eq_dec). rewrite E. discriminate. }
  pose proof (Hall _ (in_map (@length str) _ _ Hin)). lia.
Qed.

(** A window with its three measures over the bounds matches no entry. *)
Lemma meta_items_of_outside_bound
    jm (em : EntryMap) (dm : MecabDecompMap) max_text max_decomp first rest :
  loaded jm em dm max_text max_decomp ->
  py_max (map (@length codepoint) (dict_keys em)) = Ok max_text ->
  py_max (map (@length str) (dict_keys dm)) = Ok max_decomp ->
  Forall has_position (first :: rest) ->
  within_bound max_text max_decomp (first :: rest) = false ->
  meta_items_of jm (first :: rest) = [].
Proof.
  intros Hl Hmt Hmd Hpos Hout. unfold meta_items_of.
  rewrite (lookup_meta_lexical_item_run jm em dm max_text max_decomp
             first rest Hl Hpos).
  unfold within_bound in Hout.
  apply orb_false_iff in Hout. destruct Hout as [Hout H3].
  apply orb_false_iff in Hout. destruct Hout as [H1 H2].
  apply Nat.leb_gt in H1, H2, H3.
  rewrite (lookup_decomp_too_long dm max_decomp
             (map base_form (first :: rest)) Hmd)
    by (rewrite length_map; exact H1).
  rewrite (lookup_text_too_long em max_text
             (join (map first_surface_form (first :: rest))) Hmt)
    by (rewrite length_join, map_map; exact H3).
  rewrite (lookup_text_too_long em max_text
             (join (map base_form (first :: rest))) Hmt)
    by (rewrite length_join, map_map; exact H2).
  reflexivity.
Qed.

Lemma bounded_windows_lose_nothing
    jm (em : EntryMap) (dm : MecabDecompMap) max_text max_decomp bs :
  loaded jm em dm max_text max_decomp ->
  py_max (map (@length codepoint) (dict_keys em)) = Ok max_text ->
  py_max (map (@length str) (dict_keys dm)) = Ok max_decomp ->
  Forall has_position bs ->
  flat_map (meta_items_of jm) (bounded_windows max_text max_decomp bs)
  = flat_map (meta_items_of jm) (all_windows bs).
Proof.
  intros Hl Hmt Hmd Hpos. unfold bounded_windows, all_windows, windows_from.
  rewrite !flat_map_flat_map. apply flat_map_ext. intros i.
  rewrite !flat_map_map.
  destruct (Nat.lt_ge_cases i (length bs)) as [Hi|Hi].
  2:{ replace (length bs - (i + 1)) with 0 by lia. reflexivity. }
  apply (flat_map_take_while_seq
           (fun j => within_bound max_text max_decomp (slice bs i (j + 1)))
           (fun j => meta_items_of jm (slice bs i (j + 1)))).
  - intros j j' Hj Hj'.
    apply (within_bound_shorter max_text max_decomp bs i (j + 1) (j' + 1)).
    lia.
  - intros j Hj Hout.
    destruct (slice_cons bs i (j + 1)) as (x & r & E); [lia|lia|].
    pose proof (Forall_slice _ bs i (j + 1) Hpos) as Hpos'.
    rewrite E in *.
    apply (meta_items_of_outside_bound jm em dm max_text max_decomp);
      assumption.
Qed.

Lemma all_windows_In bs w :
  In w (all_windows bs) ->
  exists i j, i < j < length bs /\ w = slice bs i (j + 1).
Proof.
  unfold all_windows. intros H. apply in_flat_map in H.
  destruct H as (i & _ & H). apply in_map_iff in H.
  destruct H as (j & <- & H). apply in_seq in H.
  exists i, j. split; [lia|reflexivity].
Qed.

(** X14.  Stopping at the first window over the length bound loses
    nothing.  With a dictionary that a [load_jmdict] has returned and base
    items that have positions, [_find_meta_lexical_items] returns the items
    of the lookups of all the windows of two or more consecutive base
    items, by start and then by length: a window it does not look up
    matches no entry.  The lookup of every such window returns. *)
Theorem meta_finder_misses_no_window
    (mecab : str -> str) (order : list str) (self : JMdict)
    (fs : FileSystem) (now : Q) (fuel : nat) (jm : JMdict)
    (fs' : FileSystem) (bs : list FoundJpnLexicalItem)
    (Hload : load_jmdict mecab order self fs now fuel = Ok (jm, fs'))
    (Hpos : Forall has_position bs) :
  _find_meta_lexical_items jm bs
  = Ok (flat_map (meta_items_of jm) (all_windows bs))
  /\ forall w,
       In w (all_windows bs) ->
       _lookup_meta_lexical_item jm w = Ok (meta_items_of jm w).
Proof.
  destruct (load_jmdict_maxima _ _ _ _ _ _ _ _ Hload)
    as (em & dm & mt & md & Hl & Hmt & Hmd).
  split.
  - rewrite (find_meta_lexical_items_run jm em dm mt md bs Hl Hpos).
    rewrite (bounded_windows_lose_nothing jm em dm mt md bs Hl Hmt Hmd Hpos).
    reflexivity.
  - intros w Hw. apply all_windows_In in Hw.
    destruct Hw as (i & j & Hij & ->).
    apply (lookup_meta_window_Ok jm em dm mt md); assumption.
Qed.

Lemma meta_finder_misses_no_window_witness :
  _find_meta_lexical_items Samples.sample_jmdict Samples.sample_long_items
  = Ok (flat_map (meta_items_of Samples.sample_jmdict)
          (all_windows Samples.sample_long_items)).
Proof.
  exact (proj1 (meta_finder_misses_no_window Samples.sample_mecab
                  Samples.sample_tag_order new_JMdict Samples.sample_fs 20 5
                  Samples.sample_jmdict Samples.sample_fs_loaded
                  Samples.sample_long_items
                  ltac:(vm_compute; reflexivity)
                  ltac:(repeat constructor; vm_compute; discriminate))).
Defined.

(** ** The finder on short inputs and without a dictionary *)

(** X15.  With a dictionary object that holds no data,
    [_find_meta_lexical_items] returns the empty list for fewer than two
    base items, without asking the dictionary, and raises
    [ResourceNotReadyError] from two base items on. *)
Theorem meta_finder_needs_the_dictionary_from_two_items
    (jm : JMdict) (bs : list FoundJpnLexicalItem)
    (Hunloaded : _max_mecab_decomp_len jm = None) :
  _find_meta_lexical_items jm bs
  = if length bs <? 2 then Ok [] else Raise ResourceNotReadyError.
Proof.
  destruct bs as [|a [|b bs]]; [reflexivity|reflexivity|].
  unfold _find_meta_lexical_items.
  cbn [length outer_while inner_while Nat.ltb Nat.leb Nat.add].
  unfold _within_jmdict_max_entry_len, max_mecab_decomp_len.
  rewrite Hunloaded. reflexivity.
Qed.

Lemma meta_finder_needs_the_dictionary_from_two_items_witness :
  _find_meta_lexical_items new_JMdict Samples.sample_long_items
  = Raise ResourceNotReadyError.
Proof.
  rewrite (meta_finder_needs_the_dictionary_from_two_items new_JMdict
             Samples.sample_long_items eq_refl).
  reflexivity.
Defined.

(** ** What a block of text gives *)

Lemma map_outcome_map {A B C : Type} (f : A -> B) (g : B -> outcome C) l :
  map_outcome g (map f l) = map_outcome (fun x => g (f x)) l.
Proof.
  induction l as [|x l IH]; cbn [map map_outcome]; [reflexivity|].
  rewrite IH. reflexivity.
Qed.

(** The lookup of a window does not read the article of its items. *)
Lemma lookup_meta_set_article jm art w :
  _lookup_meta_lexical_item jm (map (set_article art) w)
  = _lookup_meta_lexical_item jm w.
Proof.
  unfold _lookup_meta_lexical_item.
  rewrite map_map, map_outcome_map.
  change (map (fun x => base_form (set_article art x)) w)
    with (map base_form w).
  change (map_outcome (fun x => get_first_surface_form (set_article art x)) w)
    with (map_outcome get_first_surface_form w).
  destruct w as [|x r]; reflexivity.
Qed.

Lemma slice_map {A B : Type} (f : A -> B) s i j :
  slice (map f s) i j = map f (slice s i j).
Proof. unfold slice. rewrite skipn_map, firstn_map. reflexivity. Qed.

Lemma all_windows_map art bs :
  all_windows (map (set_article art) bs)
  = map (map (set_article art)) (all_windows bs).
Proof.
  unfold all_windows. rewrite length_map, flat_map_concat_map,
    flat_map_concat_map, concat_map, map_map.
  f_equal. apply map_ext. intros i. rewrite map_map.
  apply map_ext. intros j. apply slice_map.
Qed.

Lemma meta_items_of_windows_set_article jm art bs :
  flat_map (meta_items_of jm) (all_windows (map (set_article art) bs))
  = flat_map (meta_items_of jm) (all_windows bs).
Proof.
  rewrite all_windows_map, flat_map_map. apply flat_map_ext. intros w.
  unfold meta_items_of. rewrite lookup_meta_set_article. reflexivity.
Qed.

Lemma filter_all {A : Type} (f : A -> bool) l :
  Forall (fun x => f x = true) l -> filter f l = l.
Proof.
  induction 1 as [|x l Hx _ IH]; cbn [filter]; [reflexivity|].
  rewrite Hx, IH. reflexivity.
Qed.

Lemma filter_not_symbol_set_article art l :
  filter (fun item => negb (_is_symbol item)) (map (set_article art) l)
  = map (set_article art) (filter (fun item => negb (_is_symbol item)) l).
Proof.
  induction l as [|x l IH]; [reflexivity|]. cbn [map filter].
  rewrite is_symbol_set_article.
  destruct (_is_symbol x); cbn [negb map]; rewrite IH; reflexivity.
Qed.

Lemma set_article_twice art l :
  map (set_article art) (map (set_article art) l) = map (set_article art) l.
Proof. rewrite map_map. apply map_ext. intros x; reflexivity. Qed.

(** X16.  With a dictionary that a [load_jmdict] has returned,
    [_find_lexical_items] returns on every block the tagger adapter parses:
    first the items of the tagger adapter that have no 記号 part of speech,
    in their order, then the items of the dictionary lookups of all the
    windows of two or more consecutive items of the tagger adapter (the
    windows run over the items with a 記号 part of speech too), none of
    the looked-up items being dropped; every item returned has the article
    set. *)
Theorem find_lexical_items_returns_base_then_meta
    (mecab : str -> str) (order : list str) (self : JMdict)
    (fs : FileSystem) (now : Q) (fuel : nat) (jm : JMdict)
    (fs' : FileSystem)
    (tagger : str -> str) (tagger_fuel : nat)
    (text : str) (offset : nat) (art : JpnArticle)
    (base : list FoundJpnLexicalItem)
    (Hload : load_jmdict mecab order self fs now fuel = Ok (jm, fs'))
    (Hbase : parse tagger tagger_fuel text offset = Ok base) :
  _find_lexical_items tagger jm tagger_fuel text offset art
  = Ok (map (set_article art)
          (filter (fun item => negb (_is_symbol item)) base
           ++ flat_map (meta_items_of jm) (all_windows base))).
Proof.
  destruct (load_jmdict_maxima _ _ _ _ _ _ _ _ Hload)
    as (em & dm & mt & md & Hl & Hmt & Hmd).
  assert (Hpos : Forall has_position (map (set_article art) base)).
  { apply parse_positions in Hbase. rewrite Forall_forall in *.
    intros b Hb. apply in_map_iff in Hb. destruct Hb as (b0 & <- & Hb0).
    exact (Hbase b0 Hb0). }
  unfold _find_lexical_items. rewrite Hbase; cbn [bind].
  pose proof (find_meta_lexical_items_run jm em dm mt md _ Hl Hpos) as Hrun.
  rewrite (bounded_windows_lose_nothing jm em dm mt md _ Hl Hmt Hmd Hpos)
    in Hrun.
  rewrite meta_items_of_windows_set_article in Hrun.
  rewrite Hrun; cbn [bind]. f_equal.
  rewrite filter_app, !map_app. f_equal.
  - rewrite filter_not_symbol_set_article. apply set_article_twice.
  - f_equal. apply filter_all.
    pose proof (find_meta_items_are_meta _ _ _ Hrun) as Hmeta.
    rewrite Forall_forall in *. intros m Hm.
    rewrite (meta_item_not_symbol m (Hmeta m Hm)). reflexivity.
Qed.

Lemma find_lexical_items_returns_base_then_meta_witness :
  _find_lexical_items Samples.sample_mecab Samples.sample_jmdict 5
    (u "猫。") 0 Samples.sample_article
  = Ok (map (set_article Samples.sample_article)
          (filter (fun item => negb (_is_symbol item))
             (match parse Samples.sample_mecab 5 (u "猫。") 0 with
              | Ok base => base
              | _ => []
              end)
           ++ flat_map (meta_items_of Samples.sample_jmdict)
                (all_windows
                   (match parse Samples.sample_mecab 5 (u "猫。") 0 with
                    | Ok base => base
                    | _ => []
                    end)))).
Proof.
  apply (find_lexical_items_returns_base_then_meta Samples.sample_mecab
           Samples.sample_tag_order new_JMdict Samples.sample_fs 20 5
           Samples.sample_jmdict Samples.sample_fs_loaded
           Samples.sample_mecab 5 (u "猫。") 0 Samples.sample_article).
  - vm_compute; reflexivity.
  - vm_compute; reflexivity.
Defined.

(* ===================================================================== *)
(** * The blocks of an article *)
(* ===================================================================== *)

Lemma article_loop_Ok {A : Type} (visit : str -> nat -> outcome (list A))
    blocks o acc o' acc' :
  for_each (article_loop_body visit) blocks (o, acc) = Ok (o', acc') ->
  exists founds,
    Forall2 (fun bo found =>
               visit (fst bo) (snd bo) = Ok found /\ fst bo <> [])
      (filter (fun bo => negb (length (fst bo) =? 0))
         (with_offsets o blocks))
      founds
    /\ acc' = acc ++ concat founds.
Proof.
  revert o acc; induction blocks as [|b blocks IH]; intros o acc H.
  - inversion H; subst. exists []. split; [constructor|].
    rewrite app_nil_r; reflexivity.
  - cbn [for_each] in H. bind_inv H. destruct a as [o1 acc1].
    cbn [with_offsets filter fst]. unfold article_loop_body in Ha.
    destruct (length b =? 0) eqn:Eb; cbn [negb].
    + inversion Ha; subst o1 acc1.
      apply Nat.eqb_eq in Eb. rewrite Eb. cbn [Nat.add].
      replace (o + 1) with (o + (0 + 1)) in H by lia.
      exact (IH _ _ H).
    + bind_inv Ha. inversion Ha; subst o1 acc1.
      destruct (IH _ _ H) as (founds & Hall & ->).
      exists (a :: founds). split.
      * constructor; [|exact Hall]. cbn [fst snd]. split; [exact Ha0|].
        intros ->. discriminate Eb.
      * cbn [concat]. rewrite <- app_assoc. reflexivity.
Qed.

Lemma slice_middle {A : Type} (pre b rest : list A) :
  slice (pre ++ b ++ rest) (length pre) (length pre + length b) = b.
Proof.
  unfold slice.
  replace (length pre + length b - length pre) with (length b) by lia.
  rewrite skipn_app, skipn_all, Nat.sub_diag. cbn [skipn app].
  rewrite firstn_app, firstn_all, Nat.sub_diag. cbn [firstn].
  apply app_nil_r.
Qed.

Lemma has_crlf_tail c rest : has_crlf (c :: rest) = false ->
  has_crlf rest = false.
Proof.
  destruct rest as [|c' rest']; [reflexivity|]. cbn [has_crlf].
  intros H. apply orb_false_iff in H. exact (proj2 H).
Qed.

(** Without a CR-LF pair every line boundary is one character, so the
    running offset is the place of the block. *)
Lemma splitlines_from_offsets s :
  forall cur pre,
    has_crlf s = false ->
    Forall (stands_at (pre ++ rev cur ++ s))
      (with_offsets (length pre) (splitlines_from cur s)).
Proof.
  induction s as [|c rest IH]; intros cur pre Hcr.
  - cbn [splitlines_from]. destruct cur as [|x cur']; [constructor|].
    cbn [with_offsets]. constructor; [|constructor].
    unfold stands_at; cbn [fst snd]. apply slice_middle.
  - cbn [splitlines_from]. destruct (is_line_boundary c) eqn:Eb.
    + destruct rest as [|c' rest'].
      * cbn [with_offsets]. constructor; [|constructor].
        unfold stands_at; cbn [fst snd]. apply slice_middle.
      * pose proof (has_crlf_tail _ _ Hcr) as Hcr'.
        cbn [has_crlf] in Hcr. apply orb_false_iff in Hcr.
        rewrite (proj1 Hcr). cbn [with_offsets]. constructor.
        -- unfold stands_at; cbn [fst snd]. apply slice_middle.
        -- pose proof (IH [] (pre ++ rev cur ++ [c]) Hcr') as H.
           cbn [rev app] in H.
           rewrite !length_app in H. cbn [length] in H.
           rewrite <- !app_assoc in H. cbn [app] in H. exact H.
    + pose proof (IH (c :: cur) pre (has_crlf_tail _ _ Hcr)) as H.
      cbn [rev] in H. rewrite <- !app_assoc in H. cbn [app] in H.
      exact H.
Qed.

Lemma analysed_blocks_stand text :
  has_crlf text = false -> Forall (stands_at text) (analysed_blocks text).
Proof.
  intros Hcr. unfold analysed_blocks, splitlines.
  pose proof (splitlines_from_offsets text [] [] Hcr) as H.
  cbn [rev app length] in H.
  rewrite Forall_forall in *. intros bo Hbo.
  apply filter_In in Hbo. apply H, Hbo.
Qed.

(** X17.  When [find_article_lexical_items] returns, it has called
    [_find_lexical_items] once on every line of the text that is not
    empty, in order, each with the offset the loop has reached (the sum,
    over the lines before it, of their length plus one), and it returns
    [reduce_found_lexical_items] of the items of these calls, in order.
    When the text has no CR directly followed by LF, every such line
    stands in the text at the offset it is analysed with. *)
Theorem find_article_lexical_items_analyses_every_line
    (mecab : str -> str) (jm : JMdict)
    (reduce : list FoundJpnLexicalItem -> list FoundJpnLexicalItem)
    (fuel : nat) (article : JpnArticle) (out : list FoundJpnLexicalItem)
    (Hrun : find_article_lexical_items mecab jm reduce fuel article
            = Ok out) :
  (exists founds,
      Forall2
        (fun bo found =>
           _find_lexical_items mecab jm fuel (fst bo) (snd bo) article
           = Ok found
           /\ fst bo <> [])
        (analysed_blocks (full_text article)) founds
      /\ out = reduce (concat founds))
  /\ (has_crlf (full_text article) = false ->
      Forall (stands_at (full_text article))
        (analysed_blocks (full_text article))).
Proof.
  split; [|apply analysed_blocks_stand].
  unfold find_article_lexical_items in Hrun. bind_inv Hrun.
  destruct a as [o' acc']. inversion Hrun; subst out.
  apply article_loop_Ok in Ha. destruct Ha as (founds & Hall & ->).
  exists founds. split; [exact Hall|reflexivity].
Qed.

Lemma find_article_lexical_items_analyses_every_line_witness :
  Forall (stands_at (full_text ArticleFixtures.two_blocks))
    (analysed_blocks (full_text ArticleFixtures.two_blocks)).
Proof.
  apply (find_article_lexical_items_analyses_every_line
           Samples.sample_mecab Samples.sample_jmdict (fun items => items)
           5 ArticleFixtures.two_blocks ArticleFixtures.two_blocks_items).
  - vm_compute; reflexivity.
  - vm_compute; reflexivity.
Defined.

Lemma splitlines_from_line l : forall cur rest,
  one_line l ->
  splitlines_from cur (l ++ rest) = splitlines_from (rev l ++ cur) rest.
Proof.
  induction l as [|c l IH]; intros cur rest Hl; [reflexivity|].
  inversion Hl as [|? ? Hc Hl']; subst.
  cbn [app splitlines_from]. rewrite Hc, (IH _ _ Hl').
  cbn [rev]. rewrite <- app_assoc. reflexivity.
Qed.

Lemma analysed_blocks_crlf l1 l2 :
  one_line l1 -> one_line l2 -> l1 <> [] -> l2 <> [] ->
  analysed_blocks (l1 ++ [13%N; 10%N] ++ l2)
  = [(l1, 0); (l2, length l1 + 1)].
Proof.
  intros H1 H2 N1 N2. unfold analysed_blocks, splitlines.
  rewrite (splitlines_from_line l1 [] _ H1), app_nil_r.
  cbn [app splitlines_from].
  change (is_line_boundary 13%N) with true.
  change ((13 =? 13)%N && (10 =? 10)%N) with true. cbv iota.
  rewrite rev_involutive.
  rewrite <- (app_nil_r l2) at 1.
  rewrite (splitlines_from_line l2 [] [] H2), app_nil_r.
  cbn [splitlines_from].
  destruct (rev l2) as [|x r] eqn:E.
  { apply (f_equal (@rev _)) in E. rewrite rev_involutive in E.
    contradiction. }
  rewrite <- E, rev_involutive. cbn [with_offsets filter fst Nat.add].
  destruct l1 as [|a l1']; [contradiction|].
  destruct l2 as [|b l2']; [contradiction|].
  reflexivity.
Qed.

(** X18.  After a CR-LF pair the offset is one short.  For a text of two
    lines that are not empty, separated by CR LF,
    [find_article_lexical_items] analyses the second line with the offset
    [length l1 + 1], where the LF stands, while the line stands at
    [length l1 + 2]: the loop adds one for every line boundary, and CR LF
    is one boundary of two characters. *)
Theorem crlf_leaves_the_offset_one_short
    (mecab : str -> str) (jm : JMdict)
    (reduce : list FoundJpnLexicalItem -> list FoundJpnLexicalItem)
    (fuel : nat) (article : JpnArticle) (l1 l2 : str)
    (out : list FoundJpnLexicalItem)
    (Htext : full_text article = l1 ++ [13%N; 10%N] ++ l2)
    (Hl1 : one_line l1) (Hl2 : one_line l2)
    (Hn1 : l1 <> []) (Hn2 : l2 <> [])
    (Hrun : find_article_lexical_items mecab jm reduce fuel article
            = Ok out) :
  (exists f1 f2,
      _find_lexical_items mecab jm fuel l1 0 article = Ok f1
      /\ _find_lexical_items mecab jm fuel l2 (length l1 + 1) article
         = Ok f2
      /\ out = reduce (f1 ++ f2))
  /\ stands_at (full_text article) (l2, length l1 + 2)
  /\ ~ stands_at (full_text article) (l2, length l1 + 1).
Proof.
  split; [|split].
  - unfold find_article_lexical_items in Hrun. bind_inv Hrun.
    destruct a as [o' acc']. inversion Hrun; subst out.
    apply article_loop_Ok in Ha. destruct Ha as (founds & Hall & ->).
    fold (splitlines (full_text article)) in Hall.
    fold (analysed_blocks (full_text article)) in Hall.
    rewrite Htext, (analysed_blocks_crlf l1 l2 Hl1 Hl2 Hn1 Hn2) in Hall.
    inversion Hall as [|? f1 ? founds1 [Hf1 _] Hall1]; subst.
    inversion Hall1 as [|? f2 ? founds2 [Hf2 _] Hall2]; subst.
    inversion Hall2; subst.
    exists f1, f2. cbn [fst snd] in Hf1, Hf2.
    split; [exact Hf1|]. split; [exact Hf2|].
    cbn [concat app]. rewrite app_nil_r. reflexivity.
  - rewrite Htext. unfold stands_at; cbn [fst snd].
    pose proof (slice_middle (l1 ++ [13%N; 10%N]) l2 []) as H.
    rewrite length_app, app_nil_r, <- app_assoc in H. exact H.
  - rewrite Htext. unfold stands_at, slice; cbn [fst snd].
    replace (length l1 + 1 + length l2 - (length l1 + 1)) with (length l2)
      by lia.
    replace (l1 ++ [13%N; 10%N] ++ l2) with ((l1 ++ [13%N]) ++ 10%N :: l2)
      by (rewrite <- app_assoc; reflexivity).
    replace (length l1 + 1) with (length (l1 ++ [13%N]))
      by (rewrite length_app; reflexivity).
    rewrite skipn_app, skipn_all, Nat.sub_diag. cbn [skipn app].
    destruct l2 as [|b l2']; [contradiction|].
    cbn [length firstn]. intros H. injection H as Hb _.
    inversion Hl2 as [|? ? Hbb _]; subst. discriminate Hbb.
Qed.

Lemma crlf_leaves_the_offset_one_short_witness :
  stands_at (full_text ArticleFixtures.crlf_blocks) (u "猫。", 4)
  /\ ~ stands_at (full_text ArticleFixtures.crlf_blocks) (u "猫。", 3).
Proof.
  apply (crlf_leaves_the_offset_one_short
           Samples.sample_mecab Samples.sample_jmdict (fun items => items)
           5 ArticleFixtures.crlf_blocks (u "猫。") (u "猫。")
           ArticleFixtures.crlf_blocks_items).
  - reflexivity.
  - vm_compute; repeat constructor.
  - vm_compute; repeat constructor.
  - vm_compute; discriminate.
  - vm_compute; discriminate.
  - vm_compute; reflexivity.
Defined.



